(** * go-gg: group tree, table regrouping and facet layout

    A shallow embedding of [table/group.go] (GroupID, GroupBy, Ungroup,
    Flatten, concatRows) and of [gg/facet.go] (FacetCommon.apply,
    subplotOf), with the properties of the specification stated over it.

    Pointers are addresses into append-only stores: identity of a GroupID,
    a subplot or a band is the address, never the contents.  Code that can
    panic returns a [result]. *)

From stdpp Require Import gmap strings list fin_maps sorting pretty.
From Stdlib Require Import ZArith.

Open Scope Z_scope.
Open Scope nat_scope.

(** ** Values held in an [interface{}] *)

(** The dynamic values a column cell or a group label can hold: the nil
    interface, an int, a string, a bool, or a [*subplot] (the label the
    facet code stores in a GroupID). *)
Inductive value : Type :=
  | VNil
  | VInt (z : Z)
  | VString (s : string)
  | VBool (b : bool)
  | VSubplot (p : nat).

#[global] Instance value_eq_dec : EqDecision value.
Proof. solve_decision. Defined.

Definition value_encode (v : value) : unit + (Z + (string + (bool + nat))) :=
  match v with
  | VNil => inl ()
  | VInt z => inr (inl z)
  | VString s => inr (inr (inl s))
  | VBool b => inr (inr (inr (inl b)))
  | VSubplot p => inr (inr (inr (inr p)))
  end.

Definition value_decode (e : unit + (Z + (string + (bool + nat)))) : value :=
  match e with
  | inl _ => VNil
  | inr (inl z) => VInt z
  | inr (inr (inl s)) => VString s
  | inr (inr (inr (inl b))) => VBool b
  | inr (inr (inr (inr p))) => VSubplot p
  end.

#[global] Instance value_countable : Countable value.
Proof.
  apply (inj_countable' value_encode value_decode).
  intros []; reflexivity.
Defined.

(** ** Panics *)

Inductive panic : Type :=
  | UnknownColumn (name : string)
  | IndexOutOfRange
  | NilDereference
  | ReflectPanic.

Inductive result (A : Type) : Type :=
  | Ok (a : A)
  | Panic (p : panic).

Arguments Ok {A} a.
Arguments Panic {A} p.

Definition bind {A B} (r : result A) (k : A -> result B) : result B :=
  match r with
  | Ok a => k a
  | Panic p => Panic p
  end.

Notation "'let*' x ':=' r 'in' k" := (bind r (fun x => k))
  (at level 10, x pattern, r at level 100, k at level 200).

Definition succeeds {A} (r : result A) : Prop := exists a, r = Ok a.

(** ** The GroupID tree (table/group.go) *)

(** [GroupID{*groupNode}]: [None] is the nil node, that is RootGroupID;
    [Some a] is the node allocated at address [a]. *)
Abbreviation GroupID := (option nat) (only parsing).

Definition RootGroupID : GroupID := None.

Record groupNode : Type := { parent : GroupID; label : value }.

(** The allocated group nodes, in allocation order. *)
Abbreviation heap := (list groupNode) (only parsing).

(** [g.Extend(label)]: allocates [&groupNode{g, label}]. *)
Definition Extend (g : GroupID) (l : value) (h : heap) : GroupID * heap :=
  (Some (length h), h ++ [{| parent := g; label := l |}]).

(** [g.Parent()]. *)
Definition Parent (h : heap) (g : GroupID) : GroupID :=
  match g with
  | None => RootGroupID
  | Some a => match h !! a with
              | Some n => parent n
              | None => RootGroupID
              end
  end.

(** [g.Label()]: reads [g.label] through the embedded pointer, which is a
    nil dereference at RootGroupID. *)
Definition Label (h : heap) (g : GroupID) : result value :=
  match g with
  | None => Panic NilDereference
  | Some a => match h !! a with
              | Some n => Ok (label n)
              | None => Panic NilDereference
              end
  end.

(** The labels from the root down to [g]: what [g.String()] prints, one
    "/label" per level.  [fuel] bounds the walk up; [length h] suffices. *)
Fixpoint pathFrom (fuel : nat) (h : heap) (g : GroupID) : list value :=
  match fuel, g with
  | S k, Some a =>
      match h !! a with
      | Some n => pathFrom k h (parent n) ++ [label n]
      | None => []
      end
  | _, _ => []
  end.

Definition path (h : heap) (g : GroupID) : list value := pathFrom (length h) h g.

(** A node is allocated in [h]. *)
Definition allocated (h : heap) (g : GroupID) : Prop :=
  match g with
  | None => True
  | Some a => a < length h
  end.

(** Every node's parent was allocated before it. *)
Definition heap_wf (h : heap) : Prop :=
  forall a n, h !! a = Some n ->
    match parent n with None => True | Some b => b < a end.

(** ** Tables *)

(** Modelled from the spec: the table storage ([table.go] is not part of
    the sources at hand).  A table is an ordered collection of named
    columns, each either a sequence of per-row values or a marked constant. *)
Inductive column : Type :=
  | Seq (s : list value)
  | ConstCol (v : value).

#[global] Instance column_eq_dec : EqDecision column.
Proof. solve_decision. Defined.

Abbreviation Table := (list (string * column)) (only parsing).

(** [new(Table)]. *)
Definition newTable : Table := [].

Fixpoint lookupCol (t : Table) (name : string) : option column :=
  match t with
  | [] => None
  | (n, c) :: t' => if String.eqb n name then Some c else lookupCol t' name
  end.

(** Modelled from the spec: [Columns() -> ordered list of names]. *)
Definition Columns (t : Table) : list string := t.*1.

(** Modelled from the spec: [Const(name) -> (value, isConstant)]. *)
Definition Const (t : Table) (name : string) : option value :=
  match lookupCol t name with
  | Some (ConstCol v) => Some v
  | _ => None
  end.

(** Modelled from the spec: the number of rows, the uniform length of the
    non-constant columns (a constant has no length of its own). *)
Fixpoint Len (t : Table) : nat :=
  match t with
  | [] => 0
  | (_, Seq s) :: _ => length s
  | (_, ConstCol _) :: t' => Len t'
  end.

(** Modelled from the spec: [Column(name) -> column sequence]; nil ([None])
    for an absent name, a constant repeated for every row. *)
Definition Column (t : Table) (name : string) : option (list value) :=
  match lookupCol t name with
  | Some (Seq s) => Some s
  | Some (ConstCol v) => Some (replicate (Len t) v)
  | None => None
  end.

(** Modelled from the spec: [MustColumn(name)], fatal when [Column] is nil. *)
Definition MustColumn (t : Table) (name : string) : result (list value) :=
  match Column t name with
  | Some s => Ok s
  | None => Panic (UnknownColumn name)
  end.

(** Modelled from the spec: the table builder, [Add], [AddConst], [Done].
    The names it is handed below come from [Columns] of one table. *)
Abbreviation Builder := (list (string * column)) (only parsing).

Definition Add (b : Builder) (name : string) (s : list value) : Builder :=
  b ++ [(name, Seq s)].

Definition AddConst (b : Builder) (name : string) (v : value) : Builder :=
  b ++ [(name, ConstCol v)].

Definition Done (b : Builder) : Table := b.

(** Modelled from the spec: [generic.MultiIndex(sequence, indices)], an
    order-preserving gather; an index past the end panics. *)
Fixpoint MultiIndex (s : list value) (rows : list nat) : result (list value) :=
  match rows with
  | [] => Ok []
  | i :: rows' =>
      match s !! i with
      | Some x => let* xs := MultiIndex s rows' in Ok (x :: xs)
      | None => Panic IndexOutOfRange
      end
  end.

(** Modelled from the spec: [generic.Concat(sequences...)]; a nil sequence
    contributes nothing. *)
Definition Concat (seqs : list (option (list value))) : list value :=
  concat (fmap (default []) seqs).

(** ** Groupings *)

(** Modelled from the spec: an ordered collection of (GroupID, Table)
    pairs; [Tables()] lists the ids, [Table(gid)] looks one up. *)
Abbreviation Grouping := (list (option nat * list (string * column))) (only parsing).

Definition Tables (g : Grouping) : list GroupID := g.*1.

Fixpoint TableOf (g : Grouping) (gid : GroupID) : Table :=
  match g with
  | [] => newTable
  | (gid', t) :: g' => if decide (gid' = gid) then t else TableOf g' gid
  end.

(** Modelled from the spec: the grouping builder, [Add] and [Done],
    preserving insertion order. *)
Abbreviation GroupingBuilder := (list (option nat * list (string * column))) (only parsing).

Definition GAdd (b : GroupingBuilder) (gid : GroupID) (t : Table) : GroupingBuilder :=
  b ++ [(gid, t)].

(** A table seen as a grouping: its only group is RootGroupID. *)
Definition ofTable (t : Table) : Grouping := [(RootGroupID, t)].

(** ** GroupBy *)

Record subgroupInfo : Type := { gid : GroupID; val : value }.

(** The index built on the grouped column: [subgroups], [gidkey],
    [rowsMap], and the group nodes allocated so far. *)
Record colIndex : Type := {
  subgroups : list subgroupInfo;
  gidkey : gmap value GroupID;
  rowsMap : gmap GroupID (list nat);
  nodes : heap
}.

(** One iteration of the scan, at row [i] holding [x]. *)
Definition scanRow (g : GroupID) (st : colIndex) (i : nat) (x : value) : colIndex :=
  match gidkey st !! x with
  | Some subgid =>
      {| subgroups := subgroups st;
         gidkey := gidkey st;
         rowsMap := <[subgid := default [] (rowsMap st !! subgid) ++ [i]]> (rowsMap st);
         nodes := nodes st |}
  | None =>
      let '(subgid, h') := Extend g x (nodes st) in
      let rm := <[subgid := []]> (rowsMap st) in
      {| subgroups := subgroups st ++ [{| gid := subgid; val := x |}];
         gidkey := <[x := subgid]> (gidkey st);
         rowsMap := <[subgid := default [] (rm !! subgid) ++ [i]]> rm;
         nodes := h' |}
  end.

(** [for i := 0; i < seq.Len(); i++], from row [i] on. *)
Fixpoint scan (g : GroupID) (c : list value) (i : nat) (st : colIndex) : colIndex :=
  match c with
  | [] => st
  | x :: c' => scan g c' (S i) (scanRow g st i x)
  end.

Definition createIndex (g : GroupID) (c : list value) (h : heap) : colIndex :=
  scan g c 0 {| subgroups := []; gidkey := ∅; rowsMap := ∅; nodes := h |}.

(** [for _, name := range t.Columns()] of the split, over the names left. *)
Fixpoint splitColumns (t : Table) (col0 : string) (v : value) (rows : list nat)
    (names : list string) (subtable : Builder) : result Builder :=
  match names with
  | [] => Ok subtable
  | name :: names' =>
      if String.eqb name col0 then
        splitColumns t col0 v rows names' (AddConst subtable name v)
      else match Const t name with
      | Some cv => splitColumns t col0 v rows names' (AddConst subtable name cv)
      | None =>
          let* s := MultiIndex (default [] (Column t name)) rows in
          splitColumns t col0 v rows names' (Add subtable name s)
      end
  end.

(** [for _, subgroup := range subgroups], over the subgroups left. *)
Fixpoint splitGroups (t : Table) (col0 : string) (rm : gmap GroupID (list nat))
    (sgs : list subgroupInfo) (out : GroupingBuilder) : result GroupingBuilder :=
  match sgs with
  | [] => Ok out
  | sg :: sgs' =>
      let rows := default [] (rm !! gid sg) in
      let* subtable := splitColumns t col0 (val sg) rows (Columns t) [] in
      splitGroups t col0 rm sgs' (GAdd out (gid sg) (Done subtable))
  end.

(** The body of [for _, gid := range g.Tables()], over the ids left. *)
Fixpoint groupLoop (g : Grouping) (col0 : string) (gids : list GroupID)
    (out : GroupingBuilder) (h : heap) : result (GroupingBuilder * heap) :=
  match gids with
  | [] => Ok (out, h)
  | gid0 :: gids' =>
      let t := TableOf g gid0 in
      match Const t col0 with
      | Some cv =>
          let '(subgid, h') := Extend gid0 cv h in
          groupLoop g col0 gids' (GAdd out subgid t) h'
      | None =>
          let* c := MustColumn t col0 in
          let ix := createIndex gid0 c h in
          let* out' := splitGroups t col0 (rowsMap ix) (subgroups ix) out in
          groupLoop g col0 gids' out' (nodes ix)
      end
  end.

Fixpoint GroupBy (g : Grouping) (cols : list string) (h : heap)
    : result (Grouping * heap) :=
  match cols with
  | [] => Ok (g, h)
  | col0 :: cols' =>
      let* (out, h') := groupLoop g col0 (Tables g) [] h in
      GroupBy out cols' h'
  end.

(** ** concatRows, Ungroup, Flatten *)

Fixpoint concatColumns (tabs : list Table) (cols : list string) (out : Builder) : Builder :=
  match cols with
  | [] => out
  | col :: cols' =>
      concatColumns tabs cols' (Add out col (Concat (fmap (fun tab => Column tab col) tabs)))
  end.

Definition concatRows (tabs : list Table) : Table :=
  match tabs with
  | [] => newTable
  | [t] => t
  | t0 :: _ => Done (concatColumns tabs (Columns t0) [])
  end.

(** The loop of [Ungroup] over the ids left, with the run being built. *)
Fixpoint ungroupLoop (h : heap) (g : Grouping) (gids : list GroupID)
    (runGid : GroupID) (runTabs : list Table) (out : GroupingBuilder)
    : GroupID * list Table * GroupingBuilder :=
  match gids with
  | [] => (runGid, runTabs, out)
  | gid0 :: gids' =>
      if decide (Parent h gid0 = runGid) then
        ungroupLoop h g gids' runGid (runTabs ++ [TableOf g gid0]) out
      else
        ungroupLoop h g gids' (Parent h gid0) [TableOf g gid0]
          (GAdd out runGid (concatRows runTabs))
  end.

Definition Ungroup (h : heap) (g : Grouping) : Grouping :=
  match Tables g with
  | [] => g
  | [None] => g
  | gid0 :: _ =>
      let '(runGid, runTabs, out) :=
        ungroupLoop h g (Tables g) (Parent h gid0) [] [] in
      GAdd out runGid (concatRows runTabs)
  end.

Definition Flatten (g : Grouping) : Table :=
  match Tables g with
  | [] => newTable
  | [gid0] => TableOf g gid0
  | groups => concatRows (fmap (TableOf g) groups)
  end.

(** ** The scenario of the specification *)

Definition scenarioT : Table :=
  [("g"%string, Seq [VInt 1; VInt 1; VInt 2; VInt 2]);
   ("v"%string, Seq [VInt 10; VInt 20; VInt 30; VInt 40])].

Example scenario_GroupBy :
  GroupBy (ofTable scenarioT) ["g"%string] [] =
  Ok ([(Some 0, [("g"%string, ConstCol (VInt 1)); ("v"%string, Seq [VInt 10; VInt 20])]);
       (Some 1, [("g"%string, ConstCol (VInt 2)); ("v"%string, Seq [VInt 30; VInt 40])])],
      [{| parent := None; label := VInt 1 |}; {| parent := None; label := VInt 2 |}]).
Proof. vm_compute. reflexivity. Qed.

(** ** What the index holds *)

#[global] Instance value_inhabited : Inhabited value := populate VNil.

(** The distinct values of a column, in the order they first occur. *)
Definition firstsStep (acc : list value) (x : value) : list value :=
  if decide (x ∈ acc) then acc else acc ++ [x].

Definition firsts (c : list value) : list value := foldl firstsStep [] c.

(** The rows of [c] holding [v], counted from [i], in increasing order. *)
Fixpoint positions (v : value) (c : list value) (i : nat) : list nat :=
  match c with
  | [] => []
  | x :: c' =>
      if decide (x = v) then i :: positions v c' (S i) else positions v c' (S i)
  end.

Definition childNode (g : GroupID) (v : value) : groupNode :=
  {| parent := g; label := v |}.

(** The gather that cannot fail. *)
Definition gather (s : list value) (rows : list nat) : list value :=
  fmap (fun i => s !!! i) rows.

(** The rows [rows] of [t], the column [col0] turned into the constant [v]. *)
Definition selectColumn (col0 : string) (v : value) (rows : list nat)
    (nc : string * column) : string * column :=
  if String.eqb nc.1 col0 then (nc.1, ConstCol v)
  else match nc.2 with
       | ConstCol cv => (nc.1, ConstCol cv)
       | Seq s => (nc.1, Seq (gather s rows))
       end.

Definition selectRows (col0 : string) (v : value) (rows : list nat) (t : Table) : Table :=
  fmap (selectColumn col0 v rows) t.

(** Names are unique and the ordinary columns have one length. *)
Definition table_wf (t : Table) : Prop :=
  NoDup (Columns t) /\ forall n s, (n, Seq s) ∈ t -> length s = Len t.

(** The children one group is split into, as (value, table) pairs. *)
Definition splitTable (col0 : string) (t : Table) : option (list (value * Table)) :=
  match lookupCol t col0 with
  | Some (ConstCol cv) => Some [(cv, t)]
  | Some (Seq c) => Some (fmap (fun v => (v, selectRows col0 v (positions v c 0) t)) (firsts c))
  | None => None
  end.

Definition allocChildren (g : GroupID) (vts : list (value * Table)) (h : heap)
    : Grouping * heap :=
  (imap (fun k vt => (Some (length h + k), vt.2)) vts,
   h ++ fmap (fun vt => childNode g vt.1) vts).

(** One level of [GroupBy], group by group. *)
Fixpoint regroup (col0 : string) (g : Grouping) (h : heap) : result (Grouping * heap) :=
  match g with
  | [] => Ok ([], h)
  | (gid0, t) :: g' =>
      match splitTable col0 t with
      | None => Panic (UnknownColumn col0)
      | Some vts =>
          let '(blk, h1) := allocChildren gid0 vts h in
          let* (rest, h2) := regroup col0 g' h1 in
          Ok (blk ++ rest, h2)
      end
  end.

(** ** Lemmas on the index *)

Section Firsts.

Lemma firsts_snoc (p : list value) (x : value) :
  firsts (p ++ [x]) = firstsStep (firsts p) x.
Proof. unfold firsts. by rewrite foldl_app. Qed.

Lemma elem_of_firsts (p : list value) (v : value) : v ∈ firsts p <-> v ∈ p.
Proof.
  induction p as [|x p IH] using rev_ind.
  - reflexivity.
  - rewrite firsts_snoc, elem_of_app, list_elem_of_singleton.
    unfold firstsStep. case_decide as Hx.
    + rewrite IH. split; [tauto|]. intros [?| ->]; [done|]. by apply IH.
    + rewrite elem_of_app, list_elem_of_singleton, IH. tauto.
Qed.

Lemma NoDup_firsts (p : list value) : NoDup (firsts p).
Proof.
  induction p as [|x p IH] using rev_ind.
  - constructor.
  - rewrite firsts_snoc. unfold firstsStep. case_decide as Hx; [done|].
    apply NoDup_app. split_and!; [done| |apply NoDup_singleton].
    intros y Hy ->%list_elem_of_singleton. done.
Qed.


Lemma positions_app (v : value) (p q : list value) (i : nat) :
  positions v (p ++ q) i = positions v p i ++ positions v q (i + length p).
Proof.
  revert i. induction p as [|x p IH]; intros i; simpl.
  - by rewrite Nat.add_0_r.
  - rewrite IH. replace (S i + length p) with (i + S (length p)) by lia.
    by case_decide.
Qed.

Lemma positions_absent (v : value) (c : list value) (i : nat) :
  v ∉ c -> positions v c i = [].
Proof.
  revert i. induction c as [|x c IH]; intros i Hv; simpl; [done|].
  apply not_elem_of_cons in Hv as [Hne Hv].
  case_decide; [congruence|]. by apply IH.
Qed.

Lemma positions_bound (v : value) (c : list value) (i j : nat) :
  j ∈ positions v c i -> i <= j < i + length c.
Proof.
  revert i. induction c as [|x c IH]; intros i; simpl.
  - by intros ?%elem_of_nil.
  - case_decide.
    + intros [->|Hj%IH]%elem_of_cons; lia.
    + intros Hj%IH. lia.
Qed.

Lemma positions_value (v : value) (c : list value) (i j : nat) :
  j ∈ positions v c i -> c !! (j - i) = Some v.
Proof.
  revert i. induction c as [|x c IH]; intros i; simpl.
  - by intros ?%elem_of_nil.
  - case_decide as Hx.
    + intros [->|Hj]%elem_of_cons.
      * rewrite Nat.sub_diag. simpl. by f_equal.
      * pose proof (positions_bound _ _ _ _ Hj). apply IH in Hj.
        replace (j - i) with (S (j - S i)) by lia. done.
    + intros Hj. pose proof (positions_bound _ _ _ _ Hj). apply IH in Hj.
      replace (j - i) with (S (j - S i)) by lia. done.
Qed.

Lemma positions_sublist (v : value) (c : list value) (i : nat) :
  sublist (positions v c i) (seq i (length c)).
Proof.
  revert i. induction c as [|x c IH]; intros i; simpl; [constructor|].
  case_decide; [apply sublist_skip|apply sublist_cons]; apply IH.
Qed.

End Firsts.

(** ** The scan builds the index *)

Section Scan.

Variable g : GroupID.
Variable h0 : heap.

(** The state of the scan after the rows [p]. *)
Record index_inv (p : list value) (st : colIndex) : Prop := {
  inv_subgroups :
    subgroups st = imap (fun k v => {| gid := Some (length h0 + k); val := v |}) (firsts p);
  inv_nodes : nodes st = h0 ++ fmap (childNode g) (firsts p);
  inv_key : forall k v, firsts p !! k = Some v ->
    gidkey st !! v = Some (Some (length h0 + k));
  inv_nokey : forall v, v ∉ p -> gidkey st !! v = None;
  inv_rows : forall k v, firsts p !! k = Some v ->
    rowsMap st !! Some (length h0 + k) = Some (positions v p 0)
}.

Lemma index_inv_init :
  index_inv [] {| subgroups := []; gidkey := ∅; rowsMap := ∅; nodes := h0 |}.
Proof.
  split; simpl; try done.
  by rewrite app_nil_r.
Qed.

Lemma index_inv_step (p : list value) (st : colIndex) (x : value) :
  index_inv p st -> index_inv (p ++ [x]) (scanRow g st (length p) x).
Proof.
  intros [Hsub Hnodes Hkey Hnokey Hrows].
  unfold scanRow. destruct (decide (x ∈ p)) as [Hin|Hnin].
  - (* a value seen before *)
    assert (Hf : firsts (p ++ [x]) = firsts p).
    { rewrite firsts_snoc. unfold firstsStep.
      rewrite decide_True; [done|by apply elem_of_firsts]. }
    apply elem_of_firsts, list_elem_of_lookup in Hin as [kx Hkx].
    rewrite (Hkey _ _ Hkx). rewrite (Hrows _ _ Hkx). simpl.
    split; simpl; rewrite ?Hf; try done.
    + intros v Hv. apply Hnokey. intros ?. apply Hv, elem_of_app. by left.
    + intros k v Hk. rewrite positions_app. simpl.
      destruct (decide (k = kx)) as [->|Hne].
      * assert (v = x) as -> by congruence.
        rewrite lookup_insert_eq. by rewrite decide_True.
      * rewrite lookup_insert_ne by (intros [=]; lia).
        rewrite (Hrows _ _ Hk). rewrite decide_False, app_nil_r; [done|].
        intros ->. apply Hne.
        eapply NoDup_lookup; [apply NoDup_firsts|done..].
  - (* a new value *)
    assert (Hf : firsts (p ++ [x]) = firsts p ++ [x]).
    { rewrite firsts_snoc. unfold firstsStep.
      rewrite decide_False; [done|by rewrite elem_of_firsts]. }
    rewrite (Hnokey _ Hnin). simpl. rewrite lookup_insert_eq. simpl.
    assert (Hlen : length (nodes st) = length h0 + length (firsts p)).
    { by rewrite Hnodes, length_app, length_fmap. }
    split; simpl; rewrite ?Hf.
    + rewrite imap_app, Hsub. simpl. by rewrite Hlen, Nat.add_0_r.
    + by rewrite fmap_app, Hnodes, app_assoc.
    + intros k v Hk. apply lookup_app_Some in Hk as [Hk|[Hge Hk]].
      * rewrite lookup_insert_ne; [by apply Hkey|].
        intros ->. apply Hnin, elem_of_firsts. by eapply list_elem_of_lookup_2.
      * apply list_lookup_singleton_Some in Hk as [Hk ->].
        rewrite lookup_insert_eq. do 2 f_equal. lia.
    + intros v Hv. apply not_elem_of_app in Hv as [Hv Hvx].
      rewrite lookup_insert_ne; [by apply Hnokey|].
      intros ->. apply Hvx. by apply list_elem_of_singleton.
    + intros k v Hk. rewrite positions_app. simpl.
      apply lookup_app_Some in Hk as [Hk|[Hge Hk]].
      * pose proof (lookup_lt_Some _ _ _ Hk) as Hlt.
        rewrite !lookup_insert_ne by (intros [=]; lia).
        rewrite (Hrows _ _ Hk). rewrite decide_False, app_nil_r; [done|].
        intros ->. apply Hnin, elem_of_firsts. by eapply list_elem_of_lookup_2.
      * apply list_lookup_singleton_Some in Hk as [Hk ->].
        replace (length h0 + k) with (length (nodes st)) by lia.
        rewrite lookup_insert_eq. rewrite decide_True by done.
        by rewrite positions_absent.
Qed.

Lemma scan_inv (c p : list value) (st : colIndex) :
  index_inv p st -> index_inv (p ++ c) (scan g c (length p) st).
Proof.
  revert p st. induction c as [|x c IH]; intros p st Hinv; simpl.
  - by rewrite app_nil_r.
  - replace (p ++ x :: c) with ((p ++ [x]) ++ c) by by rewrite <- app_assoc.
    replace (S (length p)) with (length (p ++ [x])) by (rewrite length_app; simpl; lia).
    apply IH. by apply index_inv_step.
Qed.

Lemma createIndex_inv (c : list value) : index_inv c (createIndex g c h0).
Proof. apply (scan_inv c [] _ index_inv_init). Qed.

End Scan.

(** ** The split builds the selected rows *)

Section Split.

Lemma MultiIndex_gather (s : list value) (rows : list nat) :
  Forall (fun i => i < length s) rows -> MultiIndex s rows = Ok (gather s rows).
Proof.
  induction 1 as [|i rows Hi _ IH]; simpl; [done|].
  destruct (lookup_lt_is_Some_2 s i Hi) as [x Hx].
  rewrite Hx, IH. simpl. unfold gather. simpl.
  by rewrite (list_lookup_total_correct _ _ _ Hx).
Qed.

Lemma lookupCol_elem (t : list (string * column)) (n : string) (c : column) :
  lookupCol t n = Some c -> (n, c) ∈ t.
Proof.
  induction t as [|[n' c'] t IH]; simpl; [done|].
  destruct (String.eqb_spec n' n) as [->|Hne].
  - intros [= ->]. apply list_elem_of_here.
  - intros H. apply list_elem_of_further. by apply IH.
Qed.

Lemma lookupCol_NoDup (t : list (string * column)) (n : string) (c : column) :
  NoDup (Columns t) -> (n, c) ∈ t -> lookupCol t n = Some c.
Proof.
  unfold Columns. induction t as [|[n' c'] t IH]; simpl.
  - by intros _ ?%elem_of_nil.
  - intros [Hn' Hnd]%NoDup_cons [[= -> ->]|Hin]%elem_of_cons.
    + by rewrite String.eqb_refl.
    + destruct (String.eqb_spec n' n) as [->|Hne]; [|by apply IH].
      exfalso. apply Hn'. apply list_elem_of_fmap. by exists (n, c).
Qed.

Lemma lookupCol_None (t : list (string * column)) (n : string) :
  lookupCol t n = None <-> n ∉ Columns t.
Proof.
  unfold Columns. induction t as [|[n' c'] t IH]; simpl.
  - split; [intros _; apply not_elem_of_nil|done].
  - rewrite not_elem_of_cons. destruct (String.eqb_spec n' n) as [->|Hne].
    + split; [done|]. by intros [? _].
    + rewrite IH. split; [|tauto]. intros ?. split; [congruence|done].
Qed.

Lemma splitColumns_spec (t : list (string * column)) (col0 : string) (v : value)
    (rows : list nat) (cs b : list (string * column)) :
  NoDup (Columns t) ->
  cs ⊆ t ->
  (forall n s, (n, Seq s) ∈ cs -> Forall (fun i => i < length s) rows) ->
  splitColumns t col0 v rows (Columns cs) b = Ok (b ++ fmap (selectColumn col0 v rows) cs).
Proof.
  intros Hnd. revert b. induction cs as [|[n c] cs IH]; intros b Hsub Hrows; simpl.
  - by rewrite app_nil_r.
  - assert (Hl : lookupCol t n = Some c).
    { apply lookupCol_NoDup; [done|]. apply Hsub, list_elem_of_here. }
    assert (Hsub' : cs ⊆ t).
    { intros y Hy. apply Hsub. by apply list_elem_of_further. }
    assert (Hrows' : forall n s, (n, Seq s) ∈ cs ->
                       Forall (fun i => i < length s) rows).
    { intros n' s Hin. apply (Hrows n'). by apply list_elem_of_further. }
    assert (Hsel : selectColumn col0 v rows (n, c) =
              if (n =? col0)%string then (n, ConstCol v)
              else match c with
                   | ConstCol cv => (n, ConstCol cv)
                   | Seq s => (n, Seq (gather s rows))
                   end) by done.
    rewrite Hsel. clear Hsel. destruct (n =? col0)%string.
    + rewrite IH by done. unfold AddConst. by rewrite <- app_assoc.
    + unfold Const, Column. rewrite Hl. destruct c as [s|cv].
      * simpl. rewrite MultiIndex_gather.
        2:{ apply (Hrows n). apply list_elem_of_here. }
        simpl. rewrite IH by done. unfold Add. by rewrite <- app_assoc.
      * rewrite IH by done. unfold AddConst. by rewrite <- app_assoc.
Qed.

Lemma splitGroups_spec (t : list (string * column)) (col0 : string)
    (rm : gmap (option nat) (list nat)) (sgs : list subgroupInfo)
    (out : list (option nat * list (string * column))) :
  table_wf t ->
  (forall sg, sg ∈ sgs -> Forall (fun i => i < Len t) (default [] (rm !! gid sg))) ->
  splitGroups t col0 rm sgs out =
  Ok (out ++ fmap (fun sg => (gid sg, selectRows col0 (val sg) (default [] (rm !! gid sg)) t)) sgs).
Proof.
  intros [Hnd Hlen]. revert out.
  induction sgs as [|sg sgs IH]; intros out Hrows; simpl.
  - by rewrite app_nil_r.
  - rewrite (splitColumns_spec t col0 (val sg) _ t []); [|done|done|].
    2:{ intros n s Hin. rewrite (Hlen _ _ Hin). apply Hrows, list_elem_of_here. }
    simpl. rewrite IH.
    2:{ intros sg' Hin. apply Hrows. by apply list_elem_of_further. }
    unfold GAdd, Done, selectRows. by rewrite <- app_assoc.
Qed.

End Split.

(** ** One level of GroupBy, group by group *)

(** The ids are distinct and allocated, the tables well formed. *)
Definition grouping_wf (h : list groupNode)
    (g : list (option nat * list (string * column))) : Prop :=
  NoDup (Tables g) /\ Forall (allocated h) (Tables g) /\ Forall table_wf (g.*2).

Section Regroup.

Lemma TableOf_NoDup (g : list (option nat * list (string * column)))
    (gid0 : option nat) (t : list (string * column)) :
  NoDup (Tables g) -> (gid0, t) ∈ g -> TableOf g gid0 = t.
Proof.
  unfold Tables. induction g as [|[gid' t'] g IH]; simpl.
  - by intros _ ?%elem_of_nil.
  - intros [Hn Hnd]%NoDup_cons [[= -> ->]|Hin]%elem_of_cons.
    + by rewrite decide_True.
    + case_decide as Heq; [|by apply IH].
      subst. exfalso. apply Hn. apply list_elem_of_fmap. by exists (gid0, t).
Qed.

Lemma createIndex_split (gid0 : option nat) (t : list (string * column))
    (col0 : string) (c : list value) (h : list groupNode)
    (out : list (option nat * list (string * column))) :
  table_wf t -> lookupCol t col0 = Some (Seq c) ->
  let ix := createIndex gid0 c h in
  splitGroups t col0 (rowsMap ix) (subgroups ix) out =
    Ok (out ++ (allocChildren gid0
                  (fmap (fun v => (v, selectRows col0 v (positions v c 0) t)) (firsts c)) h).1)
  /\ nodes ix =
     (allocChildren gid0
        (fmap (fun v => (v, selectRows col0 v (positions v c 0) t)) (firsts c)) h).2.
Proof.
  intros Hwf Hl ix.
  destruct (createIndex_inv gid0 h c) as [Hsub Hnodes _ _ Hrows]. fold ix in Hsub, Hnodes, Hrows.
  assert (HLen : length c = Len t).
  { destruct Hwf as [_ Hlen]. apply (Hlen col0). by apply lookupCol_elem. }
  assert (Hrm : forall k v, firsts c !! k = Some v ->
            default [] (rowsMap ix !! Some (length h + k)) = positions v c 0).
  { intros k v Hk. by rewrite (Hrows _ _ Hk). }
  split.
  - rewrite splitGroups_spec; [|done|].
    + f_equal. f_equal. simpl. rewrite Hsub.
      rewrite fmap_imap, imap_fmap. apply imap_ext. intros k v Hk. simpl.
      by rewrite (Hrm _ _ Hk).
    + intros sg Hsg. rewrite Hsub in Hsg.
      apply list_elem_of_lookup in Hsg as [k Hk].
      rewrite list_lookup_imap in Hk.
      destruct (firsts c !! k) as [v|] eqn:Hv; [|done].
      injection Hk as <-. simpl. rewrite (Hrm _ _ Hv).
      apply Forall_forall. intros j Hj%positions_bound. lia.
  - simpl. rewrite Hnodes. f_equal. by rewrite <- list_fmap_compose.
Qed.

Lemma groupLoop_regroup (col0 : string)
    (g gs out : list (option nat * list (string * column))) (h : list groupNode) :
  NoDup (Tables g) -> gs ⊆ g -> Forall table_wf (gs.*2) ->
  groupLoop g col0 (Tables gs) out h =
  let* (blk, h') := regroup col0 gs h in Ok (out ++ blk, h').
Proof.
  intros Hnd. revert out h.
  induction gs as [|[gid0 t] gs IH]; intros out h Hsub Hwf; simpl.
  - by rewrite app_nil_r.
  - rewrite (TableOf_NoDup g gid0 t Hnd) by (apply Hsub, list_elem_of_here).
    apply Forall_cons in Hwf as [Hwft Hwf].
    assert (Hsub' : gs ⊆ g).
    { intros y Hy. apply Hsub. by apply list_elem_of_further. }
    unfold splitTable, Const, MustColumn, Column.
    destruct (lookupCol t col0) as [[c|cv]|] eqn:Hl; simpl.
    + destruct (createIndex_split gid0 t col0 c h out Hwft Hl) as [Hsp Hno].
      simpl in Hsp, Hno. rewrite Hsp. simpl. rewrite Hno.
      rewrite IH by done.
      destruct (regroup col0 gs _) as [[rest h2]|]; simpl; [|done].
      by rewrite app_assoc.
    + rewrite IH by done. rewrite Nat.add_0_r.
      destruct (regroup col0 gs _) as [[rest h2]|]; simpl; [|done].
      unfold GAdd. by rewrite <- app_assoc.
    + done.
Qed.

(** With distinct ids and well-formed tables the loop of [GroupBy] for one
    column is [regroup]. *)
Lemma GroupBy_cons (g : list (option nat * list (string * column)))
    (col0 : string) (cols : list string) (h : list groupNode) :
  NoDup (Tables g) -> Forall table_wf (g.*2) ->
  GroupBy g (col0 :: cols) h =
  let* (out, h') := regroup col0 g h in GroupBy out cols h'.
Proof.
  intros Hnd Hwf. simpl.
  rewrite (groupLoop_regroup col0 g g [] h Hnd) by done.
  by destruct (regroup col0 g h) as [[out h']|].
Qed.

End Regroup.

(** ** The shape of one level's output *)

(** The children emitted for the group [gt]: one per (value, table) pair
    of [splitTable], each at a node whose parent is the group's id. *)
Definition block_of (col0 : string) (h' : list groupNode)
    (gt : option nat * list (string * column))
    (blk : list (option nat * list (string * column))) : Prop :=
  exists vts, splitTable col0 gt.2 = Some vts /\
    Forall2 (fun cgt vt => cgt.2 = vt.2 /\
               exists a, cgt.1 = Some a /\ h' !! a = Some (childNode gt.1 vt.1))
            blk vts.

Section Blocks.

Lemma allocChildren_ids (gid0 : option nat) (vts : list (value * list (string * column)))
    (h : list groupNode) :
  Tables (allocChildren gid0 vts h).1 = Some <$> seq (length h) (length vts).
Proof.
  unfold Tables. simpl. rewrite fmap_imap.
  rewrite <- (imap_seq vts (fun a => Some a)). apply imap_ext. done.
Qed.

Lemma allocChildren_length (gid0 : option nat) (vts : list (value * list (string * column)))
    (h : list groupNode) :
  length (allocChildren gid0 vts h).1 = length vts /\
  length (allocChildren gid0 vts h).2 = length h + length vts.
Proof. simpl. by rewrite length_imap, length_app, length_fmap. Qed.

Lemma regroup_blocks (col0 : string) (g : list (option nat * list (string * column)))
    (h : list groupNode) out h' :
  regroup col0 g h = Ok (out, h') ->
  (exists blocks, out = concat blocks /\ Forall2 (block_of col0 h') g blocks) /\
  Tables out = Some <$> seq (length h) (length out) /\
  length h' = length h + length out /\
  h `prefix_of` h'.
Proof.
  revert h out h'. induction g as [|[gid0 t] g IH]; intros h out h'; simpl.
  - intros [= <- <-]. split_and!; [by exists []|done|simpl; lia|done].
  - destruct (splitTable col0 t) as [vts|] eqn:Hsp; [|done].
    destruct (regroup col0 g _) as [[rest h2]|] eqn:Hre; simpl; [|done].
    intros [= <- <-].
    destruct (IH _ _ _ Hre) as [[blocks [-> Hbl]] [Hids [Hlen Hpre]]].
    rewrite length_app, length_fmap in Hlen.
    split_and!.
    + exists (imap (fun k vt => (Some (length h + k), vt.2)) vts :: blocks).
      split; [done|]. constructor; [|done].
      exists vts. split; [done|]. simpl.
      apply Forall2_same_length_lookup. split; [by rewrite length_imap|].
      intros k cgt vt Hk Hvt. rewrite list_lookup_imap, Hvt in Hk.
      injection Hk as <-. simpl. split; [done|].
      exists (length h + k). split; [done|].
      eapply prefix_lookup_Some; [|done].
      rewrite lookup_app_r by lia.
      replace (length h + k - length h) with k by lia.
      by rewrite list_lookup_fmap, Hvt.
    + unfold Tables in *. rewrite length_app, length_fmap in Hids.
      rewrite fmap_app, Hids. rewrite length_app, length_imap.
      rewrite seq_app, fmap_app. f_equal.
      rewrite fmap_imap. rewrite <- (imap_seq vts (fun a => Some a)).
      by apply imap_ext.
    + rewrite length_app, length_imap. lia.
    + etrans; [|done]. by apply prefix_app_r.
Qed.

Lemma regroup_Parent (col0 : string) (h' : list groupNode) gt blk cg ct :
  block_of col0 h' gt blk -> (cg, ct) ∈ blk -> Parent h' cg = gt.1.
Proof.
  intros [vts [_ Hf]] Hin.
  apply list_elem_of_lookup in Hin as [k Hk].
  destruct (Forall2_lookup_l _ _ _ _ _ Hf Hk) as [vt [_ [_ [a [Ha Hn]]]]].
  simpl in Ha. subst cg. simpl. by rewrite Hn.
Qed.

End Blocks.

(** ** Well-formedness is kept *)

Section Wf.

Lemma Columns_selectRows col0 v rows (t : list (string * column)) :
  Columns (selectRows col0 v rows t) = Columns t.
Proof.
  unfold Columns, selectRows. rewrite <- list_fmap_compose.
  apply list_fmap_ext. intros _ [n c] _. simpl. unfold selectColumn. simpl.
  destruct (n =? col0)%string; [done|]. by destruct c.
Qed.

Lemma Len_uniform (t : list (string * column)) (L : nat) :
  (forall n s, (n, Seq s) ∈ t -> length s = L) ->
  (exists n s, (n, Seq s) ∈ t) -> Len t = L.
Proof.
  induction t as [|[n [s|cv]] t IH]; intros Hall [n0 [s0 Hin]]; simpl.
  - by apply elem_of_nil in Hin.
  - apply (Hall n). apply list_elem_of_here.
  - apply IH.
    + intros n' s' H'. apply (Hall n'). by apply list_elem_of_further.
    + apply elem_of_cons in Hin as [[=]|Hin]. eauto.
Qed.

Lemma selectRows_Seq col0 v rows (t : list (string * column)) n s' :
  (n, Seq s') ∈ selectRows col0 v rows t ->
  exists s, (n, Seq s) ∈ t /\ n <> col0 /\ s' = gather s rows.
Proof.
  unfold selectRows. intros [[n0 c] [Heq Hin]]%list_elem_of_fmap.
  unfold selectColumn in Heq. simpl in Heq.
  destruct (String.eqb_spec n0 col0) as [->|Hne]; [done|].
  destruct c as [s|cv]; [|done]. injection Heq as -> ->. eauto.
Qed.

Lemma selectRows_wf col0 v rows (t : list (string * column)) :
  table_wf t -> table_wf (selectRows col0 v rows t).
Proof.
  intros [Hnd Hlen]. split; [by rewrite Columns_selectRows|].
  intros n s' Hin. symmetry. apply Len_uniform; [|eauto].
  intros n1 s1 [s [_ [_ ->]]]%selectRows_Seq.
  destruct (selectRows_Seq _ _ _ _ _ _ Hin) as [s2 [_ [_ ->]]].
  unfold gather. by rewrite !length_fmap.
Qed.

Lemma splitTable_wf col0 (t : list (string * column)) vts :
  table_wf t -> splitTable col0 t = Some vts -> Forall table_wf (vts.*2).
Proof.
  intros Hwf. unfold splitTable.
  destruct (lookupCol t col0) as [[c|cv]|]; intros [= <-].
  - rewrite <- list_fmap_compose. apply Forall_fmap, Forall_forall.
    intros v _. simpl. by apply selectRows_wf.
  - simpl. constructor; [done|constructor].
Qed.

Lemma regroup_wf (col0 : string) (g : list (option nat * list (string * column)))
    (h : list groupNode) out h' :
  grouping_wf h g -> regroup col0 g h = Ok (out, h') -> grouping_wf h' out.
Proof.
  intros [_ [_ Hwf]] Hre.
  destruct (regroup_blocks _ _ _ _ _ Hre) as [_ [Hids [Hlen _]]].
  split_and!.
  - rewrite Hids. apply (NoDup_fmap_2 _). apply NoDup_seq.
  - rewrite Hids. apply Forall_fmap, Forall_forall.
    intros a Ha%elem_of_seq. simpl. lia.
  - clear Hids Hlen. revert h out h' Hre.
    induction g as [|[gid0 t] g IH]; intros h out h'; simpl.
    + by intros [= <- <-].
    + apply Forall_cons in Hwf as [Hwft Hwf].
      destruct (splitTable col0 t) as [vts|] eqn:Hsp; [|done].
      destruct (regroup col0 g _) as [[rest h2]|] eqn:Hre; simpl; [|done].
      intros [= <- <-]. rewrite fmap_app. apply Forall_app. split.
      * rewrite fmap_imap.
        replace (imap _ vts) with (vts.*2).
        { by eapply splitTable_wf. }
        rewrite <- (imap_const snd). by apply imap_ext.
      * by eapply IH.
Qed.

End Wf.

(** ** GroupBy over several columns *)

Section Levels.

Lemma GroupBy_app (g : list (option nat * list (string * column)))
    (cols1 cols2 : list string) (h : list groupNode) :
  GroupBy g (cols1 ++ cols2) h =
  let* (mid, hm) := GroupBy g cols1 h in GroupBy mid cols2 hm.
Proof.
  revert g h. induction cols1 as [|c cols1 IH]; intros g h; simpl; [done|].
  destruct (groupLoop g c (Tables g) [] h) as [[out h']|]; simpl; [|done].
  apply IH.
Qed.

Lemma GroupBy_wf (g : list (option nat * list (string * column)))
    (cols : list string) (h : list groupNode) out h' :
  grouping_wf h g -> GroupBy g cols h = Ok (out, h') -> grouping_wf h' out.
Proof.
  revert g h. induction cols as [|c cols IH]; intros g h Hwf.
  - by intros [= <- <-].
  - destruct Hwf as [Hnd [Hal Hwf]].
    rewrite GroupBy_cons by done.
    destruct (regroup c g h) as [[mid hm]|] eqn:Hre; simpl; [|done].
    apply IH. by eapply regroup_wf.
Qed.

Lemma GroupBy_single (g : list (option nat * list (string * column)))
    (c : string) (h : list groupNode) :
  grouping_wf h g -> GroupBy g [c] h = regroup c g h.
Proof.
  intros [Hnd [_ Hwf]]. rewrite GroupBy_cons by done.
  by destruct (regroup c g h) as [[out h']|].
Qed.

Lemma ofTable_wf (t : list (string * column)) (h : list groupNode) :
  table_wf t -> grouping_wf h (ofTable t).
Proof.
  intros Hwf. split_and!.
  - apply NoDup_singleton.
  - by repeat constructor.
  - simpl. constructor; [done|constructor].
Qed.

Lemma splitTable_None (col0 : string) (t : list (string * column)) :
  splitTable col0 t = None <-> lookupCol t col0 = None.
Proof. unfold splitTable. by destruct (lookupCol t col0) as [[c|cv]|]. Qed.

Lemma regroup_Panic (col0 : string) (g : list (option nat * list (string * column)))
    (h : list groupNode) (p : panic) :
  regroup col0 g h = Panic p <->
  p = UnknownColumn col0 /\ exists t, t ∈ g.*2 /\ lookupCol t col0 = None.
Proof.
  revert h p. induction g as [|[gid0 t] g IH]; intros h p; simpl.
  - split; [done|]. by intros [_ [t [?%elem_of_nil _]]].
  - destruct (splitTable col0 t) as [vts|] eqn:Hsp.
    + assert (Hl : lookupCol t col0 <> None).
      { intros Hn%splitTable_None. congruence. }
      destruct (regroup col0 g _) as [[rest h2]|p'] eqn:Hre; simpl.
      * split; [done|]. intros [-> [t' [[->|Hin]%elem_of_cons Hn]]]; [done|].
        assert (regroup col0 g (h ++ fmap (fun vt => childNode gid0 vt.1) vts)
                = Panic (UnknownColumn col0)) as Hp by (apply IH; eauto).
        congruence.
      * apply IH in Hre as [-> [t' [Hin Hn]]].
        split; [intros [= <-]|by intros [-> _]].
        split; [done|]. exists t'. split; [|done]. by apply list_elem_of_further.
    + apply splitTable_None in Hsp. split.
      * intros [= <-]. split; [done|]. exists t. split; [|done]. apply list_elem_of_here.
      * by intros [-> _].
Qed.

Lemma lookupCol_None_api (t : list (string * column)) (c : string) :
  lookupCol t c = None <-> Const t c = None /\ Column t c = None.
Proof.
  unfold Const, Column. destruct (lookupCol t c) as [[s|cv]|]; split; try done.
  - by intros [_ ?].
  - by intros [? _].
Qed.

End Levels.

(** ** Runs of groups with one parent *)

(** The parents of the runs of adjacent equal entries that follow an entry
    [prev]: the ids [Ungroup] flushes after a run of [prev]. *)
Fixpoint runsFrom (prev : option nat) (l : list (option nat)) : list (option nat) :=
  match l with
  | [] => []
  | x :: l' => if decide (x = prev) then runsFrom prev l' else x :: runsFrom x l'
  end.

Definition runs (l : list (option nat)) : list (option nat) :=
  match l with
  | [] => []
  | x :: l' => x :: runsFrom x l'
  end.

Section Runs.




(** The ids [Ungroup] emits are the runs of the parents. *)
Lemma ungroupLoop_ids (h : list groupNode) (g : list (option nat * list (string * column)))
    (gids : list (option nat)) runGid runTabs out :
  Tables (let '(r, ts, o) := ungroupLoop h g gids runGid runTabs out in
          GAdd o r (concatRows ts)) =
  Tables out ++ runGid :: runsFrom runGid (Parent h <$> gids).
Proof.
  revert runGid runTabs out. induction gids as [|gid0 gids IH]; intros; simpl.
  - unfold Tables, GAdd. by rewrite fmap_app.
  - case_decide as Hp.
    + rewrite IH. done.
    + rewrite IH. unfold Tables, GAdd. rewrite fmap_app. simpl.
      by rewrite <- app_assoc.
Qed.

End Runs.

(** ** Tables used in the examples *)

Definition twoKeysT : list (string * column) :=
  [("a"%string, Seq [VInt 1; VInt 1; VInt 2]);
   ("b"%string, Seq [VInt 10; VInt 20; VInt 10]);
   ("v"%string, Seq [VInt 100; VInt 200; VInt 300])].

Definition constKeyT : list (string * column) :=
  [("k"%string, ConstCol (VString "left"));
   ("v"%string, Seq [VInt 7; VInt 8])].

(** The paths of the groups of a result. *)
Definition pathsOf (r : result (list (option nat * list (string * column)) * list groupNode))
    : list (list value) :=
  match r with
  | Ok (out, h) => path h <$> Tables out
  | Panic _ => []
  end.

Lemma table_wf_intro (t : list (string * column)) :
  NoDup (Columns t) ->
  Forall (fun nc => match nc.2 with Seq s => length s = Len t | ConstCol _ => True end) t ->
  table_wf t.
Proof.
  intros Hnd Hf. split; [done|]. intros n s Hin.
  by apply (proj1 (Forall_forall _ _) Hf (n, Seq s)).
Qed.

Lemma scenarioT_wf : table_wf scenarioT.
Proof.
  apply table_wf_intro; [|by repeat constructor].
  by apply (bool_decide_unpack _).
Qed.

Lemma twoKeysT_wf : table_wf twoKeysT.
Proof.
  apply table_wf_intro; [|by repeat constructor].
  by apply (bool_decide_unpack _).
Qed.

Lemma constKeyT_wf : table_wf constKeyT.
Proof.
  apply table_wf_intro; [|by repeat constructor].
  by apply (bool_decide_unpack _).
Qed.

(** ** C9: several column names *)

(** C9, as amended: [GroupBy(g, a, b)] is [GroupBy(GroupBy(g, a), b)], the
    very same grouping (same groups, same order, same GroupIDs, hence the
    same paths), and [GroupBy] with no column name returns its input. *)
Theorem GroupBy_two_columns (g : list (option nat * list (string * column)))
    (a b : string) (h : list groupNode) :
  GroupBy g [a; b] h = (let* (mid, hm) := GroupBy g [a] h in GroupBy mid [b] hm)
  /\ GroupBy g [] h = Ok (g, h).
Proof.
  split; [|done]. apply (GroupBy_app g [a] [b] h).
Qed.

(** C9, as stated, fails: on a table with keys a and b the paths of the
    groups of [GroupBy(T, a, b)] and of [GroupBy(GroupBy(T, a), b)] are the
    same two-level paths; no pair differs by a level of nesting. *)
Lemma GroupBy_two_columns_paths_counterexample :
  let direct := GroupBy (ofTable twoKeysT) ["a"%string; "b"%string] [] in
  let nested := (let* (mid, hm) := GroupBy (ofTable twoKeysT) ["a"%string] [] in
                 GroupBy mid ["b"%string] hm) in
  pathsOf direct = [[VInt 1; VInt 10]; [VInt 1; VInt 20]; [VInt 2; VInt 10]]
  /\ pathsOf nested = pathsOf direct
  /\ ~ Forall2 (fun p1 p2 => length p1 = S (length p2) \/ length p2 = S (length p1))
         (pathsOf direct) (pathsOf nested).
Proof.
  split_and!; [by vm_compute..|].
  vm_compute. intros H. inversion H as [|? ? ? ? [Hd|Hd] _]; discriminate Hd.
Qed.

(** ** C6: the missing column *)




(** ** C8: grouping by a constant *)

Section ConstantKey.

Lemma filter_all {A} (P : A -> Prop) `{forall x, Decision (P x)} (l : list A) :
  Forall P l -> filter P l = l.
Proof.
  induction 1 as [|x l Hx _ IH]; [done|].
  by rewrite filter_cons_True, IH.
Qed.

Lemma filter_none {A} (P : A -> Prop) `{forall x, Decision (P x)} (l : list A) :
  Forall (fun x => ~ P x) l -> filter P l = [].
Proof.
  induction 1 as [|x l Hx _ IH]; [done|].
  by rewrite filter_cons_False, IH.
Qed.

Lemma filter_blocks_other (col0 : string) (h' : list groupNode)
    (g : list (option nat * list (string * column))) blocks (gid0 : option nat) :
  Forall2 (block_of col0 h') g blocks -> gid0 ∉ Tables g ->
  filter (fun cgt => Parent h' cgt.1 = gid0) (concat blocks) = [].
Proof.
  unfold Tables. induction 1 as [|gt blk g blocks Hblk _ IH]; simpl; [done|].
  intros [Hne Hnin]%not_elem_of_cons. rewrite filter_app, IH, app_nil_r by done.
  apply filter_none, Forall_forall. intros [cg ct] Hin. simpl.
  by rewrite (regroup_Parent _ _ _ _ _ _ Hblk Hin).
Qed.

Lemma filter_blocks_own (col0 : string) (h' : list groupNode)
    (g : list (option nat * list (string * column))) blocks gid0 t :
  NoDup (Tables g) -> Forall2 (block_of col0 h') g blocks -> (gid0, t) ∈ g ->
  exists blk, block_of col0 h' (gid0, t) blk /\
    filter (fun cgt => Parent h' cgt.1 = gid0) (concat blocks) = blk.
Proof.
  unfold Tables. intros Hnd Hf. revert Hnd.
  induction Hf as [|gt blk g blocks Hblk Hf IH]; simpl.
  - by intros _ ?%elem_of_nil.
  - intros [Hgt Hnd]%NoDup_cons [<-|Hin]%elem_of_cons.
    + exists blk. split; [done|]. simpl in Hgt.
      rewrite filter_app, (filter_blocks_other _ _ _ _ gid0 Hf Hgt), app_nil_r.
      apply filter_all, Forall_forall. intros [cg ct] Hin.
      by apply (regroup_Parent _ _ _ _ _ _ Hblk Hin).
    + destruct (IH Hnd Hin) as [blk0 [Hb0 Hfl]]. exists blk0. split; [done|].
      rewrite filter_app, Hfl.
      replace (filter _ blk) with (@nil (option nat * list (string * column))); [done|].
      symmetry. apply filter_none, Forall_forall. intros [cg ct] Hc. simpl.
      rewrite (regroup_Parent _ _ _ _ _ _ Hblk Hc). intros Heq. apply Hgt.
      rewrite Heq. apply list_elem_of_fmap. by exists (gid0, t).
Qed.

End ConstantKey.

(** C8: when the table of an input group declares the grouped-by column a
    constant, the groups of the output whose parent is that input group are
    exactly one; its node is a fresh child of the input GroupID labelled
    with the constant, and its table is the input table itself, the column
    still a constant. *)
Theorem GroupBy_constant_column (g : list (option nat * list (string * column)))
    (c : string) (h : list groupNode) gid0 t cv out h' :
  grouping_wf h g -> (gid0, t) ∈ g -> Const t c = Some cv ->
  GroupBy g [c] h = Ok (out, h') ->
  exists a,
    filter (fun cgt => Parent h' cgt.1 = gid0) out = [(Some a, t)]
    /\ length h <= a
    /\ h' !! a = Some {| parent := gid0; label := cv |}
    /\ Const (TableOf out (Some a)) c = Some cv.
Proof.
  intros Hwf Hin Hc Hg. pose proof Hwf as [Hnd _].
  pose proof (GroupBy_wf _ _ _ _ _ Hwf Hg) as [Hnd' _].
  rewrite GroupBy_single in Hg by done.
  destruct (regroup_blocks _ _ _ _ _ Hg) as [[blocks [-> Hbl]] [Hids _]].
  destruct (filter_blocks_own _ _ _ _ _ _ Hnd Hbl Hin) as [blk [[vts [Hsp Hf]] Hfl]].
  simpl in Hsp. unfold splitTable in Hsp. unfold Const in Hc.
  destruct (lookupCol t c) as [[s|cv']|] eqn:Hl; try done.
  injection Hc as ->. injection Hsp as <-.
  apply Forall2_cons_inv_r in Hf as [[cg ct] [blk' [[Ht [a [Ha Hn]]] [Hnil ->]]]].
  apply Forall2_nil_inv_r in Hnil as ->. simpl in *. subst cg ct.
  exists a. split_and!; [done| |done|].
  - assert (Hmem : (Some a, t) ∈ concat blocks).
    { assert (Hx : (Some a, t) ∈ [(Some a, t)]) by apply list_elem_of_here.
      rewrite <- Hfl in Hx. by apply list_elem_of_filter in Hx as [_ ?]. }
    assert (Hid : Some a ∈ Tables (concat blocks)).
    { apply list_elem_of_fmap. by exists (Some a, t). }
    rewrite Hids in Hid. apply list_elem_of_fmap in Hid as [a' [[= <-] Ha']].
    apply elem_of_seq in Ha'. lia.
  - rewrite (TableOf_NoDup _ (Some a) t Hnd').
    + unfold Const. by rewrite Hl.
    + assert (Hx : (Some a, t) ∈ [(Some a, t)]) by apply list_elem_of_here.
      rewrite <- Hfl in Hx. by apply list_elem_of_filter in Hx as [_ ?].
Qed.

Lemma GroupBy_constant_column_witness :
  let h := [{| parent := None; label := VInt 0 |}] in
  let h' := h ++ [{| parent := Some 0; label := VString "left" |}] in
  exists a,
    filter (fun cgt => Parent h' cgt.1 = Some 0) [(Some 1, constKeyT)]
      = [(Some a, constKeyT)]
    /\ length h <= a
    /\ h' !! a = Some {| parent := Some 0; label := VString "left" |}
    /\ Const (TableOf [(Some 1, constKeyT)] (Some a)) "k"%string = Some (VString "left").
Proof.
  apply (GroupBy_constant_column [(Some 0, constKeyT)] "k"%string
           [{| parent := None; label := VInt 0 |}] (Some 0) constKeyT (VString "left")).
  - split_and!.
    + apply NoDup_singleton.
    + constructor; [simpl; lia|constructor].
    + constructor; [apply constKeyT_wf|constructor].
  - apply list_elem_of_here.
  - reflexivity.
  - reflexivity.
Defined.

(** ** C5: children of one group are emitted together *)

Section Contiguous.



End Contiguous.



(** ** C7: pairwise distinct values *)

Section Distinct.


End Distinct.



(** ** Rows of a table *)

(** Modelled from the spec: the cell of a column in row [i]; a constant is
    repeated for every row. *)
Definition cell (c : column) (i : nat) : value :=
  match c with
  | Seq s => s !!! i
  | ConstCol v => v
  end.

(** Row [i]: every column name with the column's value in that row. *)
Definition rowAt (t : list (string * column)) (i : nat) : list (string * value) :=
  (fun nc => (nc.1, cell nc.2 i)) <$> t.

(** The rows of a table, top to bottom. *)
Definition rows (t : list (string * column)) : list (list (string * value)) :=
  rowAt t <$> seq 0 (Len t).

(** The table has an ordinary column other than [c]. *)
Definition has_other_seq (t : list (string * column)) (c : string) : Prop :=
  exists n s, (n, Seq s) ∈ t /\ n <> c.

(** The order in which [GroupBy] emits the rows of a column: value by
    value in first-occurrence order, each value's rows in table order. *)
Definition regrouped (cs : list value) : list nat :=
  concat ((fun v => positions v cs 0) <$> firsts cs).

(** The column [name] of [tab] as [concatRows] reads it. *)
Definition colOf (tab : list (string * column)) (name : string) : list value :=
  default [] (Column tab name).

(** The table [concatRows] builds over the column names [names]. *)
Definition concatAll (names : list string) (tabs : list (list (string * column)))
    : list (string * column) :=
  (fun name => (name, Seq (concat ((fun tab => colOf tab name) <$> tabs)))) <$> names.

Section Rows.

Lemma concatColumns_spec (tabs : list (list (string * column))) (cols : list string)
    (out : list (string * column)) :
  concatColumns tabs cols out = out ++ concatAll cols tabs.
Proof.
  revert out. induction cols as [|col cols IH]; intros out; simpl.
  - by rewrite app_nil_r.
  - rewrite IH. unfold Add, Concat. rewrite <- list_fmap_compose, <- app_assoc. done.
Qed.

Lemma colOf_length (t : list (string * column)) (name : string) :
  table_wf t -> name ∈ Columns t -> length (colOf t name) = Len t.
Proof.
  intros [Hnd Hlen] [[n c] [-> Hin]]%list_elem_of_fmap. simpl.
  unfold colOf, Column. rewrite (lookupCol_NoDup _ _ _ Hnd Hin).
  destruct c as [s|v]; simpl.
  - by apply (Hlen n).
  - by rewrite length_replicate.
Qed.

Lemma rowAt_colOf (t : list (string * column)) (i : nat) :
  table_wf t -> i < Len t ->
  rowAt t i = (fun name => (name, colOf t name !!! i)) <$> Columns t.
Proof.
  intros [Hnd Hlen] Hi. unfold rowAt, Columns. rewrite <- list_fmap_compose.
  apply list_fmap_ext. intros _ [n c] Hin%list_elem_of_lookup_2. simpl. f_equal.
  unfold colOf, Column. rewrite (lookupCol_NoDup _ _ _ Hnd Hin).
  destruct c as [s|v]; simpl; [done|].
  by rewrite lookup_total_replicate_2.
Qed.

Lemma Len_concatAll (names : list string) (tabs : list (list (string * column))) :
  Forall (fun tab => table_wf tab /\ Columns tab = names) tabs ->
  Len (concatAll names tabs) = sum_list (Len <$> tabs).
Proof.
  intros Hf. destruct names as [|n0 names]; simpl.
  - induction Hf as [|tab tabs [_ Hc] _ IH]; [done|].
    unfold Columns in Hc. apply fmap_nil_inv in Hc. subst tab.
    rewrite fmap_cons. simpl. exact IH.
  - induction Hf as [|tab tabs [Hwf Hc] _ IH]; [done|].
    rewrite !fmap_cons. simpl. rewrite length_app, IH. f_equal.
    apply colOf_length; [done|]. rewrite Hc. apply list_elem_of_here.
Qed.

Lemma rows_concatAll (names : list string) (tabs : list (list (string * column))) :
  Forall (fun tab => table_wf tab /\ Columns tab = names) tabs ->
  rows (concatAll names tabs) = concat (rows <$> tabs).
Proof.
  intros Hf. unfold rows at 1. rewrite Len_concatAll by done.
  induction Hf as [|tab tabs [Hwf Hc] Hf IH]; [done|].
  rewrite !fmap_cons. cbn [concat sum_list sum_list_with].
  rewrite seq_app, fmap_app. f_equal.
  - unfold rows. apply list_fmap_ext. intros _ i Hi%list_elem_of_lookup_2%elem_of_seq.
    rewrite (rowAt_colOf tab) by (done || lia). rewrite Hc.
    unfold rowAt, concatAll. rewrite <- list_fmap_compose.
    apply list_fmap_ext. intros _ name Hn%list_elem_of_lookup_2. simpl. f_equal.
    rewrite lookup_total_app_l; [done|].
    rewrite colOf_length; [lia|done|by rewrite Hc].
  - rewrite <- IH. replace (0 + id (Len tab)) with (Len tab + 0) by (unfold id; lia).
    rewrite <- (fmap_add_seq (Len tab) 0), <- list_fmap_compose.
    apply list_fmap_ext. intros _ j _. simpl.
    unfold rowAt, concatAll. rewrite <- !list_fmap_compose.
    apply list_fmap_ext. intros _ name Hn%list_elem_of_lookup_2. simpl. f_equal.
    rewrite lookup_total_app_r; rewrite colOf_length; try done; try lia.
    + f_equal. lia.
    + by rewrite Hc.
    + by rewrite Hc.
Qed.

Lemma Columns_concatAll (names : list string) (tabs : list (list (string * column))) :
  Columns (concatAll names tabs) = names.
Proof.
  unfold Columns, concatAll. rewrite <- list_fmap_compose.
  induction names as [|n names IH]; simpl; [done|]. by f_equal.
Qed.

(** [concatRows] keeps the column names and stacks the rows. *)
Lemma concatRows_spec (names : list string) (tabs : list (list (string * column))) :
  Forall (fun tab => table_wf tab /\ Columns tab = names) tabs ->
  rows (concatRows tabs) = concat (rows <$> tabs)
  /\ (tabs <> [] -> Columns (concatRows tabs) = names).
Proof.
  intros Hf. destruct tabs as [|t0 [|t1 tabs]].
  - done.
  - simpl. rewrite app_nil_r. split; [done|]. intros _.
    by apply Forall_cons in Hf as [[_ ?] _].
  - assert (Hc : Columns t0 = names) by by apply Forall_cons in Hf as [[_ ?] _].
    unfold concatRows, Done. rewrite concatColumns_spec, Hc. simpl app.
    split; [by apply rows_concatAll|]. intros _. apply Columns_concatAll.
Qed.

Lemma TableOf_Tables (g : list (option nat * list (string * column))) :
  NoDup (Tables g) -> TableOf g <$> Tables g = g.*2.
Proof.
  intros Hnd. unfold Tables. rewrite <- list_fmap_compose.
  apply list_fmap_ext. intros _ [gid0 t] Hin%list_elem_of_lookup_2. simpl.
  by apply TableOf_NoDup.
Qed.

Lemma Flatten_concatRows (g : list (option nat * list (string * column))) :
  NoDup (Tables g) -> Flatten g = concatRows (g.*2).
Proof.
  intros Hnd. unfold Flatten. rewrite <- (TableOf_Tables g Hnd).
  by destruct (Tables g) as [|gid0 [|gid1 gids]].
Qed.

End Rows.

Section RowsOfGroups.

Lemma rowAt_selectRows (T : list (string * column)) (c : string) (cs : list value)
    (v : value) (rs : list nat) (k j : nat) :
  table_wf T -> lookupCol T c = Some (Seq cs) ->
  rs !! k = Some j -> cs !! j = Some v ->
  rowAt (selectRows c v rs T) k = rowAt T j.
Proof.
  intros [Hnd _] Hl Hk Hj. unfold rowAt, selectRows. rewrite <- list_fmap_compose.
  apply list_fmap_ext. intros _ [n col] Hin%list_elem_of_lookup_2. simpl.
  unfold selectColumn. simpl. destruct (String.eqb_spec n c) as [->|Hne]; simpl.
  - rewrite (lookupCol_NoDup _ _ _ Hnd Hin) in Hl. injection Hl as ->. simpl.
    by rewrite (list_lookup_total_correct _ _ _ Hj).
  - destruct col as [s|cv]; simpl; [|done]. f_equal. unfold gather.
    rewrite (list_lookup_total_fmap (fun i => s !!! i) rs k) by by eapply lookup_lt_Some.
    by rewrite (list_lookup_total_correct _ _ _ Hk).
Qed.

Lemma Len_selectRows (T : list (string * column)) (c : string) (v : value)
    (rs : list nat) :
  has_other_seq T c -> Len (selectRows c v rs T) = length rs.
Proof.
  intros [n [s [Hin Hne]]]. apply Len_uniform.
  - intros n1 s1 [s0 [_ [_ ->]]]%selectRows_Seq. unfold gather. by rewrite length_fmap.
  - exists n, (gather s rs). unfold selectRows. apply list_elem_of_fmap.
    exists (n, Seq s). split; [|done]. unfold selectColumn. simpl.
    by destruct (String.eqb_spec n c).
Qed.

Lemma rows_selectRows (T : list (string * column)) (c : string) (cs : list value)
    (v : value) :
  table_wf T -> lookupCol T c = Some (Seq cs) -> has_other_seq T c ->
  rows (selectRows c v (positions v cs 0) T) = rowAt T <$> positions v cs 0.
Proof.
  intros Hwf Hl Hother. unfold rows. rewrite Len_selectRows by done.
  apply list_eq. intros k. rewrite !list_lookup_fmap.
  destruct (decide (k < length (positions v cs 0))) as [Hlt|Hge].
  - destruct (lookup_lt_is_Some_2 _ _ Hlt) as [j Hj].
    rewrite Hj, lookup_seq_lt by done. simpl. f_equal.
    apply (rowAt_selectRows T c cs); [done..|].
    apply list_elem_of_lookup_2, positions_value in Hj. by rewrite Nat.sub_0_r in Hj.
  - rewrite lookup_seq_ge by lia. by rewrite lookup_ge_None_2 by lia.
Qed.

Lemma fmap_concat {A B} (f : A -> B) (ls : list (list A)) :
  f <$> concat ls = concat ((fun l : list A => f <$> l) <$> ls).
Proof.
  induction ls as [|l ls IH]; [done|].
  rewrite fmap_cons. cbn [concat]. by rewrite fmap_app, IH.
Qed.

Lemma concat_fmap_app {A B} (f g : A -> list B) (l : list A) :
  concat ((fun x => f x ++ g x) <$> l) ≡ₚ concat (f <$> l) ++ concat (g <$> l).
Proof.
  induction l as [|x l IH]; [done|].
  rewrite !fmap_cons. cbn [concat]. rewrite IH.
  rewrite <- !app_assoc. apply Permutation_app_head.
  rewrite !app_assoc. apply Permutation_app_tail, Permutation_app_comm.
Qed.

Lemma concat_single (x : value) (i : nat) (vs : list value) :
  NoDup vs -> x ∈ vs ->
  concat ((fun v => if decide (x = v) then [i] else []) <$> vs) = [i].
Proof.
  induction vs as [|v vs IH]; intros Hnd Hin; [by apply elem_of_nil in Hin|].
  apply NoDup_cons in Hnd as [Hv Hnd]. rewrite fmap_cons. cbn [concat].
  case_decide as Hx.
  - subst v. simpl. f_equal.
    clear IH Hin Hnd. induction vs as [|w vs IH]; [done|].
    apply not_elem_of_cons in Hv as [Hne Hv]. rewrite fmap_cons. cbn [concat].
    rewrite decide_False by done. by apply IH.
  - simpl. apply IH; [done|]. by apply elem_of_cons in Hin as [?|?].
Qed.

Lemma positions_partition (vs cs : list value) (i : nat) :
  NoDup vs -> (forall x, x ∈ cs -> x ∈ vs) ->
  concat ((fun v => positions v cs i) <$> vs) ≡ₚ seq i (length cs).
Proof.
  intros Hnd. revert i. induction cs as [|x cs IH]; intros i Hsub.
  - simpl. clear. induction vs as [|v vs IH]; [done|]. by rewrite fmap_cons.
  - assert (Heq : (fun v => positions v (x :: cs) i) <$> vs
                  = (fun v => (if decide (x = v) then [i] else [])
                              ++ positions v cs (S i)) <$> vs).
    { apply list_fmap_ext. intros _ v _. simpl. by case_decide. }
    rewrite Heq, concat_fmap_app, concat_single; [|done|].
    + simpl. constructor. apply IH. intros y Hy. apply Hsub. by right.
    + apply Hsub. by left.
Qed.

End RowsOfGroups.

Section OneTable.

Lemma regroup_single (c : string) (gid0 : option nat) (T : list (string * column))
    (h : list groupNode) vts :
  splitTable c T = Some vts ->
  regroup c [(gid0, T)] h = Ok (allocChildren gid0 vts h).
Proof. intros Hsp. simpl. rewrite Hsp. simpl. by rewrite app_nil_r. Qed.

Lemma allocChildren_tables (gid0 : option nat)
    (vts : list (value * list (string * column))) (h : list groupNode) :
  (allocChildren gid0 vts h).1.*2 = vts.*2.
Proof.
  simpl. rewrite fmap_imap. rewrite <- (imap_const snd). by apply imap_ext.
Qed.

Lemma allocChildren_Parent (gid0 : option nat)
    (vts : list (value * list (string * column))) (h : list groupNode) :
  Forall (fun cg => Parent (allocChildren gid0 vts h).2 cg = gid0)
    (Tables (allocChildren gid0 vts h).1).
Proof.
  rewrite allocChildren_ids. apply Forall_fmap, Forall_forall.
  intros a [Hge Hlt]%elem_of_seq. simpl.
  rewrite lookup_app_r by lia. rewrite list_lookup_fmap.
  destruct (lookup_lt_is_Some_2 vts (a - length h)) as [vt Hvt]; [lia|].
  by rewrite Hvt.
Qed.

(** The tables emitted for an ordinary column, and their rows. *)
Lemma splitTable_rows (T : list (string * column)) (c : string) (cs : list value) :
  table_wf T -> lookupCol T c = Some (Seq cs) -> has_other_seq T c ->
  exists vts, splitTable c T = Some vts
    /\ length vts = length (firsts cs)
    /\ Forall (fun tab => table_wf tab /\ Columns tab = Columns T) (vts.*2)
    /\ rows <$> vts.*2 = (fun v => rowAt T <$> positions v cs 0) <$> firsts cs.
Proof.
  intros Hwf Hl Hother. unfold splitTable. rewrite Hl. eexists. split; [done|].
  split_and!.
  - by rewrite length_fmap.
  - rewrite <- list_fmap_compose. apply Forall_fmap, Forall_forall. intros v _. simpl.
    split; [by apply selectRows_wf|apply Columns_selectRows].
  - rewrite <- !list_fmap_compose. apply list_fmap_ext. intros _ v _. simpl.
    by apply rows_selectRows.
Qed.

Lemma ungroupLoop_same_parent (h : list groupNode)
    (g : list (option nat * list (string * column))) (gids : list (option nat))
    (p : option nat) runTabs out :
  Forall (fun cg => Parent h cg = p) gids ->
  ungroupLoop h g gids p runTabs out = (p, runTabs ++ (TableOf g <$> gids), out).
Proof.
  intros Hf. revert runTabs. induction Hf as [|gid0 gids Hp _ IH]; intros runTabs; simpl.
  - by rewrite app_nil_r.
  - rewrite decide_True by done. rewrite IH. by rewrite <- app_assoc.
Qed.

Lemma rows_regrouped (T : list (string * column)) (cs : list value) :
  concat ((fun v => rowAt T <$> positions v cs 0) <$> firsts cs)
  = rowAt T <$> regrouped cs.
Proof.
  unfold regrouped. rewrite fmap_concat. by rewrite <- list_fmap_compose.
Qed.

Lemma regrouped_Permutation (cs : list value) : regrouped cs ≡ₚ seq 0 (length cs).
Proof.
  apply positions_partition; [apply NoDup_firsts|].
  intros x. by rewrite elem_of_firsts.
Qed.

(** [Ungroup] puts the children of the root back into one group. *)
Lemma Ungroup_children (vts : list (value * list (string * column)))
    (h : list groupNode) :
  vts <> [] ->
  Ungroup (allocChildren None vts h).2 (allocChildren None vts h).1
  = [(None, concatRows (vts.*2))].
Proof.
  intros Hvts.
  set (out := (allocChildren None vts h).1). set (h' := (allocChildren None vts h).2).
  assert (Hids : Tables out = Some <$> seq (length h) (length vts))
    by apply allocChildren_ids.
  assert (Hnd : NoDup (Tables out)).
  { rewrite Hids. apply (NoDup_fmap_2 _), NoDup_seq. }
  assert (Hpar : Forall (fun cg => Parent h' cg = None) (Tables out))
    by apply allocChildren_Parent.
  unfold Ungroup. destruct (Tables out) as [|gid0 gids] eqn:Hg.
  - destruct vts; [done|]. by simpl in Hids.
  - assert (Hg0 : exists a, gid0 = Some a).
    { destruct vts; [done|]. simpl in Hids. injection Hids as -> _. eauto. }
    destruct Hg0 as [a ->].
    apply Forall_cons in Hpar as Hp0. destruct Hp0 as [Hp0 _]. rewrite Hp0.
    rewrite (ungroupLoop_same_parent h' out _ None [] [] Hpar).
    rewrite <- Hg in Hnd. rewrite <- Hg, (TableOf_Tables out Hnd).
    unfold out. by rewrite allocChildren_tables.
Qed.

End OneTable.

(** ** C2: Flatten after GroupBy *)

(** C2, as stated, fails on a table whose only ordinary column is the one
    grouped by: the child tables keep nothing but constants, so tables of
    one row and of two rows are flattened to the same table, which cannot
    hold the rows of both. *)
Lemma Flatten_GroupBy_single_column_counterexample :
  let flat T := match GroupBy (ofTable T) ["c"%string] [] with
                | Ok (out, _) => Flatten out
                | Panic _ => newTable
                end in
  let T1 := [("c"%string, Seq [VInt 1; VInt 1])] in
  let T2 := [("c"%string, Seq [VInt 1])] in
  flat T1 = [("c"%string, ConstCol (VInt 1))]
  /\ flat T2 = flat T1
  /\ length (rows T1) = 2 /\ length (rows T2) = 1
  /\ ~ (rows (flat T1) ≡ₚ rows T1 /\ rows (flat T2) ≡ₚ rows T2)
  /\ ~ rows (flat T1) ≡ₚ rows T1.
Proof.
  cbv zeta. split_and!; try by vm_compute.
  - intros [H1 H2]%(fun '(conj a b) => conj (Permutation_length a) (Permutation_length b)).
    vm_compute in H1, H2. congruence.
  - intros H1%Permutation_length. by vm_compute in H1.
Qed.

(** C2, as amended: when the grouped-by column is a constant of [T], or an
    ordinary column of a table that has another ordinary column,
    [Flatten(GroupBy(T, c))] holds the same multiset of rows as [T], and the
    rows of every emitted group are a subsequence of the rows of [T]. *)
Theorem Flatten_GroupBy_rows (T : list (string * column)) (c : string)
    (h : list groupNode) :
  table_wf T ->
  (exists cv, Const T c = Some cv)
  \/ ((exists cs, lookupCol T c = Some (Seq cs)) /\ has_other_seq T c) ->
  exists out h',
    GroupBy (ofTable T) [c] h = Ok (out, h')
    /\ rows (Flatten out) ≡ₚ rows T
    /\ Forall (fun gt => sublist (rows gt.2) (rows T)) out.
Proof.
  intros Hwf Hc. rewrite GroupBy_single by by apply ofTable_wf.
  unfold ofTable, RootGroupID.
  destruct Hc as [[cv Hcv]|[[cs Hl] Hother]].
  - unfold Const in Hcv. destruct (lookupCol T c) as [[s|cv']|] eqn:Hl; try done.
    rewrite (regroup_single c None T h [(cv', T)]) by (unfold splitTable; by rewrite Hl).
    eexists _, _. split; [done|]. simpl. unfold Flatten. simpl.
    rewrite decide_True by (f_equal; lia). split; [done|].
    by repeat constructor.
  - destruct (splitTable_rows T c cs Hwf Hl Hother) as [vts [Hsp [Hlen [Hwfs Hrows]]]].
    rewrite (regroup_single c None T h vts Hsp).
    exists (allocChildren None vts h).1, (allocChildren None vts h).2.
    split; [done|].
    assert (HLen : length cs = Len T).
    { destruct Hwf as [_ HL]. apply (HL c). by apply lookupCol_elem. }
    split.
    + rewrite Flatten_concatRows.
      2:{ rewrite allocChildren_ids. apply (NoDup_fmap_2 _), NoDup_seq. }
      rewrite allocChildren_tables.
      destruct (concatRows_spec (Columns T) (vts.*2) Hwfs) as [-> _].
      rewrite Hrows, rows_regrouped. unfold rows. rewrite <- HLen.
      apply fmap_Permutation, regrouped_Permutation.
    + apply Forall_forall. intros [cg ct] Hin. simpl.
      assert (Hct : ct ∈ (allocChildren None vts h).1.*2).
      { apply list_elem_of_fmap. by exists (cg, ct). }
      rewrite allocChildren_tables in Hct.
      apply (list_elem_of_fmap_2 rows) in Hct. rewrite Hrows in Hct.
      apply list_elem_of_fmap in Hct as [v [-> _]].
      unfold rows. rewrite <- HLen. apply fmap_sublist, positions_sublist.
Qed.

Lemma Flatten_GroupBy_rows_witness :
  exists out h',
    GroupBy (ofTable scenarioT) ["g"%string] [] = Ok (out, h')
    /\ rows (Flatten out) ≡ₚ rows scenarioT
    /\ Forall (fun gt => sublist (rows gt.2) (rows scenarioT)) out.
Proof.
  apply (Flatten_GroupBy_rows scenarioT "g"%string []).
  - apply scenarioT_wf.
  - right. split.
    + exists [VInt 1; VInt 1; VInt 2; VInt 2]. reflexivity.
    + exists "v"%string, [VInt 10; VInt 20; VInt 30; VInt 40].
      split; [|discriminate]. apply list_elem_of_further, list_elem_of_here.
Defined.

(** ** C1: Ungroup after GroupBy *)

Definition interleavedT : list (string * column) :=
  [("g"%string, Seq [VInt 1; VInt 2; VInt 1]);
   ("v"%string, Seq [VInt 10; VInt 20; VInt 30])].

Lemma interleavedT_wf : table_wf interleavedT.
Proof.
  apply table_wf_intro; [|by repeat constructor].
  by apply (bool_decide_unpack _).
Qed.

(** C1, as stated, fails: the rows of a table whose equal keys are not
    adjacent come back regrouped, the third row before the second. *)
Lemma Ungroup_GroupBy_order_counterexample :
  let back := match GroupBy (ofTable interleavedT) ["g"%string] [] with
              | Ok (out, h') => Ungroup h' out
              | Panic _ => []
              end in
  back = [(RootGroupID,
           [("g"%string, Seq [VInt 1; VInt 1; VInt 2]);
            ("v"%string, Seq [VInt 10; VInt 30; VInt 20])])]
  /\ back <> ofTable interleavedT
  /\ rows <$> back.*2 <> [rows interleavedT].
Proof. cbv zeta. split_and!; by vm_compute. Qed.

(** C1, as amended: when the grouped-by column is a constant of [T],
    [Ungroup(GroupBy(T, c))] is [T] itself under its GroupID; when it is an
    ordinary, non-empty column of a table that has another ordinary column,
    the result is a single group under the GroupID of [T] with the column
    names of [T] in the same order and the rows of [T] regrouped: value by
    value in first-occurrence order, each value's rows in table order, a
    permutation of the rows of [T]. *)
Theorem Ungroup_GroupBy_rows (T : list (string * column)) (c : string)
    (h : list groupNode) :
  table_wf T ->
  (forall cv, Const T c = Some cv ->
     exists out h', GroupBy (ofTable T) [c] h = Ok (out, h')
                    /\ Ungroup h' out = ofTable T)
  /\ (forall cs, lookupCol T c = Some (Seq cs) -> cs <> [] -> has_other_seq T c ->
        exists out h' t',
          GroupBy (ofTable T) [c] h = Ok (out, h')
          /\ Ungroup h' out = [(RootGroupID, t')]
          /\ Columns t' = Columns T
          /\ rows t' = rowAt T <$> regrouped cs
          /\ regrouped cs ≡ₚ seq 0 (Len T)).
Proof.
  intros Hwf. rewrite GroupBy_single by by apply ofTable_wf.
  unfold ofTable, RootGroupID. split.
  - intros cv Hcv. unfold Const in Hcv.
    destruct (lookupCol T c) as [[s|cv']|] eqn:Hl; try done.
    rewrite (regroup_single c None T h [(cv', T)]) by (unfold splitTable; by rewrite Hl).
    exists (allocChildren None [(cv', T)] h).1, (allocChildren None [(cv', T)] h).2.
    split; [done|]. by rewrite Ungroup_children.
  - intros cs Hl Hne Hother.
    destruct (splitTable_rows T c cs Hwf Hl Hother) as [vts [Hsp [Hlen [Hwfs Hrows]]]].
    rewrite (regroup_single c None T h vts Hsp).
    assert (Hvts : vts <> []).
    { intros ->. destruct cs as [|x cs]; [done|].
      assert (Hx : x ∈ firsts (x :: cs)) by (apply elem_of_firsts; by left).
      destruct (firsts (x :: cs)); [by apply elem_of_nil in Hx|done]. }
    exists (allocChildren None vts h).1, (allocChildren None vts h).2,
      (concatRows (vts.*2)).
    split; [done|].
    destruct (concatRows_spec (Columns T) (vts.*2) Hwfs) as [Hr Hc].
    split_and!.
    + by apply Ungroup_children.
    + apply Hc. by destruct vts.
    + by rewrite Hr, Hrows, rows_regrouped.
    + assert (HLen : length cs = Len T).
      { destruct Hwf as [_ HL]. apply (HL c). by apply lookupCol_elem. }
      rewrite <- HLen. apply regrouped_Permutation.
Qed.

Lemma Ungroup_GroupBy_rows_witness :
  table_wf interleavedT /\
  exists out h' t',
    GroupBy (ofTable interleavedT) ["g"%string] [] = Ok (out, h')
    /\ Ungroup h' out = [(RootGroupID, t')]
    /\ Columns t' = Columns interleavedT
    /\ rows t' = rowAt interleavedT <$> regrouped [VInt 1; VInt 2; VInt 1]
    /\ regrouped [VInt 1; VInt 2; VInt 1] ≡ₚ seq 0 (Len interleavedT).
Proof.
  split; [apply interleavedT_wf|].
  apply (Ungroup_GroupBy_rows interleavedT "g"%string [] interleavedT_wf).
  - reflexivity.
  - discriminate.
  - exists "v"%string, [VInt 10; VInt 20; VInt 30].
    split; [|discriminate]. apply list_elem_of_further, list_elem_of_here.
Defined.

(** * Facets (gg/facet.go) *)

(** ** Subplots, bands, scales *)

(** Go's [int]: 64 bits, two's complement. *)
Definition int_wrap (z : Z) : Z := ((z + 2 ^ 63) mod 2 ^ 64 - 2 ^ 63)%Z.
Definition int_add (a b : Z) : Z := int_wrap (a + b).
Definition int_mul (a b : Z) : Z := int_wrap (a * b).

(** [subplotBand]; [bparent] is a [*subplotBand], nil when [None]. *)
Record subplotBand : Type := { bparent : option nat; blabel : string }.

(** [subplot]; pointers are addresses, nil when [None]. *)
Record subplot : Type := {
  sparent : option nat;
  sx : Z;
  sy : Z;
  vBand : option nat;
  hBand : option nat
}.

(** [var rootSubplot = &subplot{}]: the first subplot allocated. *)
Definition rootSubplot : nat := 0.

Definition rootSubplotValue : subplot :=
  {| sparent := None; sx := 0; sy := 0; vBand := None; hBand := None |}.

(** Modelled from the spec: a scale object; [CloneScaler] allocates an
    independent copy, recorded here with the scale it was cloned from. *)
Record scaler : Type := { cloneOf : option nat }.

(** Modelled from the spec: the scale every group resolves to when none
    was set. *)
Definition defaultScale : nat := 0.

(** The allocated objects. *)
Record mem : Type := {
  gnodes : list groupNode;
  subplotsM : list subplot;
  bandsM : list subplotBand;
  scalersM : list scaler
}.

Definition mem0 : mem :=
  {| gnodes := []; subplotsM := [rootSubplotValue]; bandsM := [];
     scalersM := [{| cloneOf := None |}] |}.

(** Modelled from the spec: the plot, its data and the scales set on
    groups ([plot.go] is not part of the sources at hand). *)
Record Plot : Type := {
  data : list (option nat * list (string * column));
  scaleAt : gmap (string * option nat) nat
}.

(** Modelled from the spec: [GetScale(axis, GroupID)], the scale set at
    the group or at its nearest ancestor. *)
Fixpoint GetScaleFrom (fuel : nat) (sc : gmap (string * option nat) nat)
    (h : list groupNode) (aes : string) (g : option nat) : nat :=
  match sc !! (aes, g) with
  | Some s => s
  | None =>
      match fuel, g with
      | S k, Some _ => GetScaleFrom k sc h aes (Parent h g)
      | _, _ => defaultScale
      end
  end.

Definition GetScale (sc : gmap (string * option nat) nat) (h : list groupNode)
    (aes : string) (g : option nat) : nat :=
  GetScaleFrom (S (length h)) sc h aes g.

(** Modelled from the spec: [SetScaleAt(axis, Scale, GroupID)]. *)
Definition SetScaleAt (sc : gmap (string * option nat) nat) (aes : string)
    (s : nat) (g : option nat) : gmap (string * option nat) nat :=
  <[(aes, g) := s]> sc.

(** Modelled from the spec: [Scale.Clone()]. *)
Definition CloneScaler (s : nat) (scs : list scaler) : nat * list scaler :=
  (length scs, scs ++ [{| cloneOf := Some s |}]).

(** ** Kinds and order *)

Inductive kind : Type := KInt | KString | KBool | KPtr.

#[global] Instance kind_eq_dec : EqDecision kind.
Proof. solve_decision. Defined.

(** [reflect.TypeOf]: nil for the nil interface. *)
Definition TypeOf (v : value) : option kind :=
  match v with
  | VNil => None
  | VInt _ => Some KInt
  | VString _ => Some KString
  | VBool _ => Some KBool
  | VSubplot _ => Some KPtr
  end.

(** Modelled from the spec: [generic.CanOrder(typeKind)]. *)
Definition CanOrderR (k : kind) : bool :=
  match k with
  | KInt | KString => true
  | KBool | KPtr => false
  end.

Definition value_leb (a b : value) : bool :=
  match a, b with
  | VInt x, VInt y => (x <=? y)%Z
  | VString x, VString y => String.leb x y
  | _, _ => true
  end.

Definition value_le (a b : value) : Prop := value_leb a b = true.

#[global] Instance value_le_dec (a b : value) : Decision (value_le a b).
Proof. unfold value_le. apply _. Defined.

(** Modelled from the spec: [generic.Sort], ascending. *)
Definition Sort (l : list value) : list value := merge_sort value_le l.

(** [fmt.Sprint], the default labeler. *)
Definition Sprint (sps : list subplot) (v : value) : string :=
  match v with
  | VNil => "<nil>"
  | VInt z => pretty z
  | VString s => s
  | VBool true => "true"
  | VBool false => "false"
  | VSubplot a =>
      match sps !! a with
      | Some s => "[" +:+ pretty (sx s) +:+ " " +:+ pretty (sy s) +:+ "]"
      | None => "<nil>"
      end
  end.

(** ** FacetCommon *)

Record FacetCommon : Type := {
  Col : string;
  SplitXScales : bool;
  SplitYScales : bool;
  Labeler : option (value -> string)
}.

Record valInfo : Type := { index : nat; vlabel : string }.

(** [subplotOf]: the walk up the group tree; [fuel] bounds its length. *)
Fixpoint subplotOfFrom (fuel : nat) (h : list groupNode) (g : option nat) : nat :=
  match fuel, g with
  | S k, Some a =>
      match h !! a with
      | Some n =>
          match label n with
          | VSubplot p => p
          | _ => subplotOfFrom k h (parent n)
          end
      | None => rootSubplot
      end
  | _, _ => rootSubplot
  end.

Definition subplotOf (h : list groupNode) (g : option nat) : nat :=
  subplotOfFrom (S (length h)) h g.

(** The first loop over [grouped.Tables()]: the distinct values and the
    type of the first. *)
Fixpoint collectVals (h : list groupNode) (labeler : value -> string)
    (gids : list (option nat)) (vals : gmap value valInfo)
    : result (gmap value valInfo) :=
  match gids with
  | [] => Ok vals
  | g :: gids' =>
      let* v := Label h g in
      match vals !! v with
      | Some _ => collectVals h labeler gids' vals
      | None =>
          collectVals h labeler gids'
            (<[v := {| index := size vals; vlabel := labeler v |}]> vals)
      end
  end.

Definition firstType (h : list groupNode) (gids : list (option nat))
    : result (option kind) :=
  match gids with
  | [] => Ok None
  | g :: _ => let* v := Label h g in Ok (TypeOf v)
  end.

(** [valType.Kind()]: a nil [reflect.Type] cannot be asked its kind. *)
Definition Kind (t : option kind) : result kind :=
  match t with
  | Some k => Ok k
  | None => Panic NilDereference
  end.

(** [vals[v].index = i] for the values [sorted] from position [i] on. *)
Fixpoint setIndices (sorted : list value) (i : nat) (vals : gmap value valInfo)
    : gmap value valInfo :=
  match sorted with
  | [] => vals
  | v :: sorted' =>
      setIndices sorted' (S i)
        (alter (fun info => {| index := i; vlabel := vlabel info |}) v vals)
  end.

(** The values re-indexed in sorted order when their type is orderable.
    [reflect.Append] panics on a value of another type. *)
Definition orderVals (k : kind) (vals : gmap value valInfo)
    : result (gmap value valInfo) :=
  if CanOrderR k then
    let keys := (map_to_list vals).*1 in
    if forallb (fun v => bool_decide (TypeOf v = Some k)) keys
    then Ok (setIndices (Sort keys) 0 vals)
    else Panic ReflectPanic
  else Ok vals.

Definition facetVals (h : list groupNode) (labeler : value -> string)
    (gids : list (option nat)) : result (gmap value valInfo) :=
  let* vals := collectVals h labeler gids ∅ in
  let* t := firstType h gids in
  let* k := Kind t in
  orderVals k vals.

(** ** The loop of [apply] *)

(** The objects, the three caches of one facet application ([subplots],
    [bands], [scales]), the grouping being built and the plot's scales. *)
Record facetState : Type := {
  fnodes : list groupNode;
  fsubplots : list subplot;
  fbands : list subplotBand;
  fscalers : list scaler;
  subplotsC : gmap nat (list (option nat));
  bandsC : gmap (option nat) (list (option nat));
  scalesC : gmap (option nat * nat) nat;
  ndata : list (option nat * list (string * column));
  pscales : gmap (string * option nat) nat
}.

(** [for _, val := range vals { nb := ...; nbands[val.index] = nb }], over
    the values left. *)
Fixpoint fillBands (band : option nat) (infos : list valInfo)
    (nbands : list (option nat)) (bds : list subplotBand)
    : result (list (option nat) * list subplotBand) :=
  match infos with
  | [] => Ok (nbands, bds)
  | info :: infos' =>
      if decide (index info < length nbands) then
        fillBands band infos' (<[index info := Some (length bds)]> nbands)
          (bds ++ [{| bparent := band; blabel := vlabel info |}])
      else Panic IndexOutOfRange
  end.

(** The new subplot for one value. *)
Definition newSubplot (dir : string) (sub : nat) (s : subplot) (n idx : nat)
    (nb : option nat) : subplot :=
  if String.eqb dir "x" then
    {| sparent := Some sub;
       sx := int_add (int_mul (sx s) (Z.of_nat n)) (Z.of_nat idx);
       sy := sy s; vBand := nb; hBand := hBand s |}
  else
    {| sparent := Some sub; sx := sx s;
       sy := int_add (int_mul (sy s) (Z.of_nat n)) (Z.of_nat idx);
       vBand := vBand s; hBand := nb |}.

(** [for _, val := range vals { ns := ...; nsubplots[val.index] = ns }],
    over the values left. *)
Fixpoint fillSubplots (dir : string) (sub : nat) (s : subplot) (n : nat)
    (nbands : list (option nat)) (infos : list valInfo)
    (nsubplots : list (option nat)) (sps : list subplot)
    : result (list (option nat) * list subplot) :=
  match infos with
  | [] => Ok (nsubplots, sps)
  | info :: infos' =>
      match nbands !! index info with
      | None => Panic IndexOutOfRange
      | Some nb =>
          if decide (index info < length nsubplots) then
            fillSubplots dir sub s n nbands infos'
              (<[index info := Some (length sps)]> nsubplots)
              (sps ++ [newSubplot dir sub s n (index info) nb])
          else Panic IndexOutOfRange
      end
  end.

(** The values of [vals] in the order the [range] loops visit them. *)
Definition rangeVals (vals : gmap value valInfo) : list valInfo :=
  (map_to_list vals).*2.

(** Split scales if requested, for one axis. *)
Definition splitScale (aes : string) (nband : option nat) (g ngid : option nat)
    (st : facetState) : facetState :=
  let scaler0 := GetScale (pscales st) (fnodes st) aes g in
  match scalesC st !! (nband, scaler0) with
  | Some nscaler =>
      {| fnodes := fnodes st; fsubplots := fsubplots st; fbands := fbands st;
         fscalers := fscalers st; subplotsC := subplotsC st; bandsC := bandsC st;
         scalesC := scalesC st; ndata := ndata st;
         pscales := SetScaleAt (pscales st) aes nscaler ngid |}
  | None =>
      let '(nscaler, scs') := CloneScaler scaler0 (fscalers st) in
      {| fnodes := fnodes st; fsubplots := fsubplots st; fbands := fbands st;
         fscalers := scs'; subplotsC := subplotsC st; bandsC := bandsC st;
         scalesC := <[(nband, scaler0) := nscaler]> (scalesC st); ndata := ndata st;
         pscales := SetScaleAt (pscales st) aes nscaler ngid |}
  end.

(** [nbands := bands[band]], split on the first visit of [band]. *)
Definition bandsFor (vals : gmap value valInfo) (band : option nat)
    (bc : gmap (option nat) (list (option nat))) (bds : list subplotBand)
    : result (list (option nat) * gmap (option nat) (list (option nat))
              * list subplotBand) :=
  match bc !! band with
  | Some nbands => Ok (nbands, bc, bds)
  | None =>
      let* (nbands, bds') :=
        fillBands band (rangeVals vals) (replicate (size vals) None) bds in
      Ok (nbands, <[band := nbands]> bc, bds')
  end.

(** [nsubplots := subplots[sub]], split on the first visit of [sub]. *)
Definition subplotsFor (dir : string) (vals : gmap value valInfo) (sub : nat)
    (s : subplot) (nbands : list (option nat))
    (sc : gmap nat (list (option nat))) (sps : list subplot)
    : result (list (option nat) * gmap nat (list (option nat)) * list subplot) :=
  match sc !! sub with
  | Some nsubplots => Ok (nsubplots, sc, sps)
  | None =>
      let* (nsubplots, sps') :=
        fillSubplots dir sub s (size vals) nbands (rangeVals vals)
          (replicate (size vals) None) sps in
      Ok (nsubplots, <[sub := nsubplots]> sc, sps')
  end.

(** The scales of the re-homed group, split if requested. *)
Definition splitScales (f : FacetCommon) (nband : option nat) (g ngid : option nat)
    (st : facetState) : facetState :=
  let st2 := if SplitXScales f then splitScale "x" nband g ngid st else st in
  if SplitYScales f then splitScale "y" nband g ngid st2 else st2.

(** The band of a subplot along the faceted direction: [vBand] for an X
    facet, [hBand] otherwise. *)
Definition facetedBand (dir : string) (s : subplot) : option nat :=
  if String.eqb dir "x" then vBand s else hBand s.

(** The state once the group [g] was mapped to its new subplot at [a]:
    [ngid := gid.Parent().Extend(nsubplot); ndata.Add(ngid, grouped.Table(gid))]. *)
Definition mapGroup (grouped : list (option nat * list (string * column)))
    (g : option nat) (a : nat) (sc : gmap nat (list (option nat)))
    (bc : gmap (option nat) (list (option nat))) (sps : list subplot)
    (bds : list subplotBand) (st : facetState) : option nat * facetState :=
  let '(ngid, h') := Extend (Parent (fnodes st) g) (VSubplot a) (fnodes st) in
  (ngid,
   {| fnodes := h'; fsubplots := sps; fbands := bds; fscalers := fscalers st;
      subplotsC := sc; bandsC := bc; scalesC := scalesC st;
      ndata := GAdd (ndata st) ngid (TableOf grouped g);
      pscales := pscales st |}).

(** The body of the second loop over [grouped.Tables()], for the group [g]. *)
Definition facetStep (f : FacetCommon) (dir : string) (vals : gmap value valInfo)
    (grouped : list (option nat * list (string * column))) (g : option nat)
    (st : facetState) : result facetState :=
  let sub := subplotOf (fnodes st) g in
  match fsubplots st !! sub with
  | None => Panic NilDereference
  | Some s =>
      let band := facetedBand dir s in
      let* (nbands, bc, bds) := bandsFor vals band (bandsC st) (fbands st) in
      let* (nsubplots, sc, sps) :=
        subplotsFor dir vals sub s nbands (subplotsC st) (fsubplots st) in
      let* v := Label (fnodes st) g in
      match vals !! v with
      | None => Panic NilDereference
      | Some info =>
          match nsubplots !! index info with
          | None => Panic IndexOutOfRange
          | Some None => Panic NilDereference
          | Some (Some nsubplot) =>
              let '(ngid, st1) := mapGroup grouped g nsubplot sc bc sps bds st in
              match sps !! nsubplot with
              | None => Panic NilDereference
              | Some ns => Ok (splitScales f (facetedBand dir ns) g ngid st1)
              end
          end
      end
  end.

Fixpoint facetLoop (f : FacetCommon) (dir : string) (vals : gmap value valInfo)
    (grouped : list (option nat * list (string * column)))
    (gids : list (option nat)) (st : facetState) : result facetState :=
  match gids with
  | [] => Ok st
  | g :: gids' =>
      let* st' := facetStep f dir vals grouped g st in
      facetLoop f dir vals grouped gids' st'
  end.

(** [(f *FacetCommon).apply(p, dir)]. *)
Definition apply (f : FacetCommon) (p : Plot) (dir : string) (m : mem)
    : result (Plot * mem) :=
  let labeler := default (Sprint (subplotsM m)) (Labeler f) in
  let* (grouped, h) := GroupBy (data p) [Col f] (gnodes m) in
  let* vals := facetVals h labeler (Tables grouped) in
  let* st := facetLoop f dir vals grouped (Tables grouped)
               {| fnodes := h; fsubplots := subplotsM m; fbands := bandsM m;
                  fscalers := scalersM m; subplotsC := ∅; bandsC := ∅; scalesC := ∅;
                  ndata := []; pscales := scaleAt p |} in
  Ok ({| data := ndata st; scaleAt := pscales st |},
      {| gnodes := fnodes st; subplotsM := fsubplots st; bandsM := fbands st;
         scalersM := fscalers st |}).

(** [FacetX.Apply] and [FacetY.Apply]. *)
Definition FacetX (f : FacetCommon) (p : Plot) (m : mem) : result (Plot * mem) :=
  apply f p "x" m.

Definition FacetY (f : FacetCommon) (p : Plot) (m : mem) : result (Plot * mem) :=
  apply f p "y" m.

(** ** The scenario of the specification *)

Definition facetT : list (string * column) :=
  [("f1"%string, Seq [VString "A"; VString "B"; VString "A"; VString "B"]);
   ("f2"%string, Seq [VString "C"; VString "C"; VString "D"; VString "D"]);
   ("y"%string, Seq [VInt 1; VInt 2; VInt 3; VInt 4])].

Definition facetPlot : Plot := {| data := ofTable facetT; scaleAt := ∅ |}.

Definition facetBy (c : string) (sx0 sy0 : bool) : FacetCommon :=
  {| Col := c; SplitXScales := sx0; SplitYScales := sy0; Labeler := None |}.

(** The grid positions of the subplots the groups of a plot sit in. *)
Definition positionsOf (r : result (Plot * mem)) : list (Z * Z) :=
  match r with
  | Ok (p, m) =>
      (fun g => let s := default rootSubplotValue
                           (subplotsM m !! subplotOf (gnodes m) g) in
                (sx s, sy s)) <$> Tables (data p)
  | Panic _ => []
  end.

Example scenario_FacetX :
  positionsOf (FacetX (facetBy "f1" false false) facetPlot mem0) = [(0, 0); (1, 0)]%Z.
Proof. vm_compute. reflexivity. Qed.

Example scenario_FacetX_FacetY :
  positionsOf (let* (p, m) := FacetX (facetBy "f1" false false) facetPlot mem0 in
               FacetY (facetBy "f2" false true) p m)
  = [(0, 0); (0, 1); (1, 0); (1, 1)]%Z.
Proof. vm_compute. reflexivity. Qed.

(** ** C10: the nil value type *)

Definition emptyRowsT : list (string * column) :=
  [("c"%string, Seq []); ("v"%string, Seq [])].

Section ValType.

Lemma Label_Panic (h : list groupNode) (g : option nat) (p : panic) :
  Label h g = Panic p -> p = NilDereference.
Proof.
  unfold Label. destruct g as [a|]; [|by intros [= <-]].
  destruct (h !! a); [done|by intros [= <-]].
Qed.

Lemma collectVals_Panic (h : list groupNode) (labeler : value -> string)
    (gids : list (option nat)) (vals : gmap value valInfo) (p : panic) :
  collectVals h labeler gids vals = Panic p -> p = NilDereference.
Proof.
  revert vals. induction gids as [|g gids IH]; intros vals; simpl; [done|].
  destruct (Label h g) as [v|p'] eqn:Hl; simpl.
  - destruct (vals !! v); apply IH.
  - intros [= <-]. by eapply Label_Panic.
Qed.

Lemma facetVals_nil_type (h : list groupNode) (labeler : value -> string)
    (gids : list (option nat)) :
  (let* t := firstType h gids in Kind t) = Panic NilDereference ->
  facetVals h labeler gids = Panic NilDereference.
Proof.
  unfold facetVals. intros Hk.
  destruct (collectVals h labeler gids ∅) as [vals|p] eqn:Hc; simpl.
  - destruct (firstType h gids) as [t|p]; simpl in *; [by rewrite Hk|congruence].
  - by rewrite (collectVals_Panic _ _ _ _ _ Hc).
Qed.

End ValType.

(** C10, as stated, fails: a plot whose data is one group, a table with
    columns and no rows, meets the stated precondition, yet [GroupBy] yields
    no group and the value type is nil when its kind is asked. *)
Lemma apply_one_group_no_rows_counterexample :
  let p := {| data := ofTable emptyRowsT; scaleAt := ∅ |} in
  length (data p) = 1
  /\ FacetX (facetBy "c" false false) p mem0 = Panic NilDereference
  /\ FacetY (facetBy "c" false false) p mem0 = Panic NilDereference.
Proof. cbv zeta. split_and!; by vm_compute. Qed.

(** C10, as amended: [apply] asks the kind of the type of the value of the
    first group that [GroupBy(data, Col)] yields.  It panics on a nil
    dereference when [GroupBy] yields no group, which is the case when the
    plot's data has no group, and when that first value is the nil
    interface; when there is a first group and its value is not nil the
    type is not nil and its kind is obtained. *)
Theorem apply_valType_nil (f : FacetCommon) (p : Plot) (dir : string) (m : mem)
    grouped h :
  GroupBy (data p) [Col f] (gnodes m) = Ok (grouped, h) ->
  (data p = [] -> Tables grouped = [])
  /\ (Tables grouped = [] -> apply f p dir m = Panic NilDereference)
  /\ (forall g gids v, Tables grouped = g :: gids -> Label h g = Ok v ->
        (v = VNil -> apply f p dir m = Panic NilDereference)
        /\ (v <> VNil ->
              exists k, (let* t := firstType h (Tables grouped) in Kind t) = Ok k)).
Proof.
  intros Hg. split_and!.
  - intros Hd. rewrite Hd in Hg. simpl in Hg. by injection Hg as <- _.
  - intros Hnil. unfold apply. rewrite Hg. cbv beta iota delta [bind].
    rewrite facetVals_nil_type; [done|]. by rewrite Hnil.
  - intros g gids v Hgids Hl. split.
    + intros ->. unfold apply. rewrite Hg. cbv beta iota delta [bind].
      rewrite facetVals_nil_type; [done|]. rewrite Hgids. simpl. by rewrite Hl.
    + intros Hv. rewrite Hgids. simpl. rewrite Hl. simpl.
      destruct v; try done; simpl; eauto.
Qed.

Definition facetGroupedF1 : list (option nat * list (string * column)) :=
  [(Some 0, [("f1"%string, ConstCol (VString "A"));
             ("f2"%string, Seq [VString "C"; VString "D"]);
             ("y"%string, Seq [VInt 1; VInt 3])]);
   (Some 1, [("f1"%string, ConstCol (VString "B"));
             ("f2"%string, Seq [VString "C"; VString "D"]);
             ("y"%string, Seq [VInt 2; VInt 4])])].

Definition facetHeapF1 : list groupNode :=
  [{| parent := None; label := VString "A" |};
   {| parent := None; label := VString "B" |}].

Lemma apply_valType_nil_witness :
  GroupBy (data facetPlot) ["f1"%string] (gnodes mem0) = Ok (facetGroupedF1, facetHeapF1)
  /\ ((data facetPlot = [] -> Tables facetGroupedF1 = [])
      /\ (Tables facetGroupedF1 = [] ->
          apply (facetBy "f1" false false) facetPlot "x" mem0 = Panic NilDereference)
      /\ (forall g gids v, Tables facetGroupedF1 = g :: gids ->
            Label facetHeapF1 g = Ok v ->
            (v = VNil ->
             apply (facetBy "f1" false false) facetPlot "x" mem0 = Panic NilDereference)
            /\ (v <> VNil ->
                exists k, (let* t := firstType facetHeapF1 (Tables facetGroupedF1) in
                           Kind t) = Ok k))).
Proof.
  split; [reflexivity|].
  apply (apply_valType_nil (facetBy "f1" false false) facetPlot "x" mem0
           facetGroupedF1 facetHeapF1).
  reflexivity.
Defined.

(** ** The group tree only grows *)

Section HeapGrowth.

Lemma Parent_prefix (h1 h2 : list groupNode) (g : option nat) :
  h1 `prefix_of` h2 -> allocated h1 g -> Parent h2 g = Parent h1 g.
Proof.
  intros Hpre Hal. destruct g as [a|]; [|done]. simpl in *.
  destruct (lookup_lt_is_Some_2 h1 a Hal) as [n Hn].
  by rewrite Hn, (prefix_lookup_Some _ _ _ _ Hn Hpre).
Qed.

Lemma Label_prefix (h1 h2 : list groupNode) (g : option nat) (v : value) :
  h1 `prefix_of` h2 -> Label h1 g = Ok v -> Label h2 g = Ok v.
Proof.
  intros Hpre. destruct g as [a|]; [|done]. simpl.
  destruct (h1 !! a) as [n|] eqn:Hn; [|done].
  by rewrite (prefix_lookup_Some _ _ _ _ Hn Hpre).
Qed.

Lemma Label_allocated (h : list groupNode) (g : option nat) (v : value) :
  Label h g = Ok v -> exists a, g = Some a /\ a < length h.
Proof.
  destruct g as [a|]; [|done]. simpl.
  destruct (h !! a) as [n|] eqn:Hn; [|done].
  intros _. exists a. split; [done|]. by eapply lookup_lt_Some.
Qed.

Lemma subplotOfFrom_stable (h1 h2 : list groupNode) (a fuel1 fuel2 : nat) :
  heap_wf h1 -> h1 `prefix_of` h2 -> a < length h1 -> a < fuel1 -> a < fuel2 ->
  subplotOfFrom fuel1 h1 (Some a) = subplotOfFrom fuel2 h2 (Some a).
Proof.
  intros Hwf Hpre. revert fuel1 fuel2.
  induction a as [a IH] using lt_wf_ind. intros fuel1 fuel2 Ha H1 H2.
  destruct fuel1 as [|k1]; [lia|]. destruct fuel2 as [|k2]; [lia|]. simpl.
  destruct (lookup_lt_is_Some_2 h1 a Ha) as [n Hn].
  rewrite Hn, (prefix_lookup_Some _ _ _ _ Hn Hpre).
  destruct (label n) as [|z|s0|b0|p0]; try done;
    (pose proof (Hwf a n Hn) as Hp; destruct (parent n) as [pa|];
     [apply IH; lia | by destruct k1, k2]).
Qed.

Lemma subplotOf_stable (h1 h2 : list groupNode) (g : option nat) :
  heap_wf h1 -> h1 `prefix_of` h2 -> allocated h1 g ->
  subplotOf h2 g = subplotOf h1 g.
Proof.
  intros Hwf Hpre Hal. destruct g as [a|]; [|done]. simpl in Hal.
  unfold subplotOf. symmetry. apply subplotOfFrom_stable; try done; try lia.
  apply prefix_length in Hpre. lia.
Qed.

Lemma regroup_heap_wf (c : string) (g : list (option nat * list (string * column)))
    (h : list groupNode) out h' :
  heap_wf h -> Forall (allocated h) (Tables g) ->
  regroup c g h = Ok (out, h') -> heap_wf h'.
Proof.
  revert h out h'. induction g as [|[gid0 t] g IH]; intros h out h' Hwf Hal; simpl.
  - by intros [= _ <-].
  - apply Forall_cons in Hal as [Hal0 Hal]. simpl in Hal0.
    destruct (splitTable c t) as [vts|]; [|done].
    destruct (regroup c g _) as [[rest h2]|] eqn:Hre; simpl; [|done].
    intros [= _ <-]. eapply IH; [| |exact Hre].
    + intros a n Hn. apply lookup_app_Some in Hn as [Hn|[Hge Hn]].
      * by apply Hwf.
      * apply list_lookup_fmap_Some in Hn as [vt [-> _]]. simpl.
        destruct gid0 as [b|]; [|done]. simpl in Hal0. lia.
    + eapply Forall_impl; [done|]. intros [b|] Hb; [|done]. simpl in *.
      rewrite length_app. lia.
Qed.

Lemma GroupBy_heap_wf (g : list (option nat * list (string * column)))
    (c : string) (h : list groupNode) out h' :
  heap_wf h -> grouping_wf h g -> GroupBy g [c] h = Ok (out, h') ->
  heap_wf h' /\ grouping_wf h' out /\ h `prefix_of` h'.
Proof.
  intros Hwf Hg Hgb. pose proof (GroupBy_wf _ _ _ _ _ Hg Hgb) as Hout.
  rewrite GroupBy_single in Hgb by done. destruct Hg as [_ [Hal _]].
  split_and!; [by eapply regroup_heap_wf|done|].
  by destruct (regroup_blocks _ _ _ _ _ Hgb) as [_ [_ [_ ?]]].
Qed.

End HeapGrowth.

(** ** What one facet application keeps true *)

(** The subplot at [a] is the child of [s] for the value of index [idx];
    its band on the faceted axis is the entry [idx] of [nbands]. *)
Definition childSubplot (dir : string) (n : nat) (sps : list subplot)
    (nbands : list (option nat)) (s idx a : nat) : Prop :=
  exists sub nb,
    sps !! s = Some sub /\ nbands !! idx = Some nb
    /\ sps !! a = Some (newSubplot dir s sub n idx nb).

(** The bands of a split are allocated, one band per position. *)
Definition bandsListOk (nbs : list (option nat)) (bound : nat) : Prop :=
  (forall i b, nbs !! i = Some (Some b) -> b < bound)
  /\ (forall i j b, nbs !! i = Some (Some b) -> nbs !! j = Some (Some b) -> i = j).

Section Fill.

Lemma childSubplot_prefix dir n (sps sps' : list subplot) nbands s idx a :
  sps `prefix_of` sps' -> childSubplot dir n sps nbands s idx a ->
  childSubplot dir n sps' nbands s idx a.
Proof.
  intros Hpre [sub [nb [Hs [Hnb Ha]]]]. exists sub, nb.
  split_and!; [|done|]; by eapply prefix_lookup_Some.
Qed.

Lemma facetedBand_newSubplot dir s sub n idx nb :
  facetedBand dir (newSubplot dir s sub n idx nb) = nb.
Proof. unfold facetedBand, newSubplot. by destruct (dir =? "x")%string. Qed.

Lemma fillSubplots_spec (dir : string) (sub : nat) (s : subplot) (n : nat)
    (nbands : list (option nat)) (infos : list valInfo)
    (nsub : list (option nat)) (sps : list subplot) nsub' sps' :
  fillSubplots dir sub s n nbands infos nsub sps = Ok (nsub', sps') ->
  sps `prefix_of` sps' /\ length nsub' = length nsub /\
  forall idx,
    (exists a nb, nsub !! idx = Some (Some a) /\ nbands !! idx = Some nb
                  /\ sps !! a = Some (newSubplot dir sub s n idx nb))
    \/ idx ∈ index <$> infos ->
    exists a nb, nsub' !! idx = Some (Some a) /\ nbands !! idx = Some nb
                 /\ sps' !! a = Some (newSubplot dir sub s n idx nb).
Proof.
  revert nsub sps. induction infos as [|info infos IH]; intros nsub sps; simpl.
  - intros [= <- <-]. split_and!; [done..|].
    intros idx [H|H]; [done|]. by apply elem_of_nil in H.
  - destruct (nbands !! index info) as [nb|] eqn:Hnb; [|done].
    case_decide as Hlt; [|done]. intros Hrec.
    destruct (IH _ _ Hrec) as [Hpre [Hlen Hall]]. split_and!.
    + etrans; [|done]. by apply prefix_app_r.
    + by rewrite Hlen, length_insert.
    + intros idx Hidx. apply Hall.
      destruct (decide (idx = index info)) as [->|Hne].
      * left. exists (length sps), nb. split_and!; [|done|].
        -- by rewrite list_lookup_insert_eq.
        -- by rewrite lookup_app_r, Nat.sub_diag by lia.
      * destruct Hidx as [[a [nb' [Ha [Hnb' Hs]]]]|Hin].
        -- left. exists a, nb'. split_and!; [|done|].
           ++ by rewrite list_lookup_insert_ne.
           ++ by apply lookup_app_l_Some.
        -- right. by apply elem_of_cons in Hin as [?|?].
Qed.

Lemma fillBands_spec (band : option nat) (infos : list valInfo)
    (nbs : list (option nat)) (bds : list subplotBand) nbs' bds' :
  fillBands band infos nbs bds = Ok (nbs', bds') ->
  bds `prefix_of` bds' /\ length nbs' = length nbs
  /\ (forall idx, (exists b, nbs !! idx = Some (Some b)) \/ idx ∈ index <$> infos ->
        exists b, nbs' !! idx = Some (Some b))
  /\ (bandsListOk nbs (length bds) -> bandsListOk nbs' (length bds')).
Proof.
  revert nbs bds. induction infos as [|info infos IH]; intros nbs bds; simpl.
  - intros [= <- <-]. split_and!; [done..| |done].
    intros idx [H|H]; [done|]. by apply elem_of_nil in H.
  - case_decide as Hlt; [|done]. intros Hrec.
    destruct (IH _ _ Hrec) as (Hpre & Hlen & Hall & Hok). split_and!.
    + etrans; [|done]. by apply prefix_app_r.
    + by rewrite Hlen, length_insert.
    + intros idx Hidx. apply Hall.
      destruct (decide (idx = index info)) as [->|Hne].
      * left. exists (length bds). by rewrite list_lookup_insert_eq.
      * destruct Hidx as [[b Hb]|Hin].
        -- left. exists b. by rewrite list_lookup_insert_ne.
        -- right. by apply elem_of_cons in Hin as [?|?].
    + intros [Hbound Hinj]. apply Hok. rewrite length_app. simpl. split.
      * intros i b Hi. destruct (decide (i = index info)) as [->|Hne].
        -- rewrite list_lookup_insert_eq in Hi by done. injection Hi as <-. lia.
        -- rewrite list_lookup_insert_ne in Hi by done. apply Hbound in Hi. lia.
      * intros i j b Hi Hj.
        destruct (decide (i = index info)) as [->|Hni];
          destruct (decide (j = index info)) as [->|Hnj]; [done| | |].
        -- rewrite list_lookup_insert_eq in Hi by done. injection Hi as <-.
           rewrite list_lookup_insert_ne in Hj by done. apply Hbound in Hj. lia.
        -- rewrite list_lookup_insert_eq in Hj by done. injection Hj as <-.
           rewrite list_lookup_insert_ne in Hi by done. apply Hbound in Hi. lia.
        -- rewrite list_lookup_insert_ne in Hi, Hj by done. by eapply Hinj.
Qed.

Lemma elem_of_rangeVals (vals : gmap value valInfo) (v : value) (info : valInfo) :
  vals !! v = Some info -> index info ∈ index <$> rangeVals vals.
Proof.
  intros Hv. apply list_elem_of_fmap. exists info. split; [done|].
  unfold rangeVals. apply list_elem_of_fmap. exists (v, info).
  split; [done|]. by apply elem_of_map_to_list.
Qed.

End Fill.

Section FacetInvariant.

Variable f : FacetCommon.
Variable dir : string.
Variable vals : gmap value valInfo.
Variable grouped : list (option nat * list (string * column)).
Variable h : list groupNode.

(** Every cached split of a band holds a band for every value, and no
    band twice. *)
Definition bandCacheOk (bc : gmap (option nat) (list (option nat))) : Prop :=
  forall k nbs, bc !! k = Some nbs ->
    (forall v info, vals !! v = Some info -> exists b, nbs !! index info = Some (Some b))
    /\ (forall i j b, nbs !! i = Some (Some b) -> nbs !! j = Some (Some b) -> i = j).

(** Every cached split of a subplot holds, for every value, the child of
    that subplot for the value, in the band cached for the subplot's band. *)
Definition cacheOk (sc : gmap nat (list (option nat)))
    (bc : gmap (option nat) (list (option nat))) (sps : list subplot) : Prop :=
  forall s nsub, sc !! s = Some nsub ->
    exists sub nbands,
      sps !! s = Some sub /\ bc !! facetedBand dir sub = Some nbands
      /\ forall v info, vals !! v = Some info ->
           exists a, nsub !! index info = Some (Some a)
             /\ childSubplot dir (size vals) sps nbands s (index info) a.

(** The group [g] of the grouped data was re-homed to [ngid]. *)
Definition rehomed (nodes : list groupNode) (sps : list subplot)
    (g ngid : option nat) : Prop :=
  exists v info a nbands,
    Label h g = Ok v /\ vals !! v = Some info
    /\ Parent nodes ngid = Parent h g
    /\ Label nodes ngid = Ok (VSubplot a)
    /\ childSubplot dir (size vals) sps nbands (subplotOf h g) (index info) a.

Definition facetInv (done : list (option nat)) (st : facetState) : Prop :=
  h `prefix_of` fnodes st
  /\ cacheOk (subplotsC st) (bandsC st) (fsubplots st)
  /\ Forall2 (fun g ngt => ngt.2 = TableOf grouped g
                /\ rehomed (fnodes st) (fsubplots st) g ngt.1)
       done (ndata st).

Lemma splitScale_frame aes nband g ngid st :
  let st' := splitScale aes nband g ngid st in
  fnodes st' = fnodes st /\ fsubplots st' = fsubplots st /\ fbands st' = fbands st
  /\ subplotsC st' = subplotsC st /\ bandsC st' = bandsC st /\ ndata st' = ndata st.
Proof.
  unfold splitScale. by destruct (scalesC st !! _).
Qed.

Lemma splitScales_frame nband g ngid st :
  let st' := splitScales f nband g ngid st in
  fnodes st' = fnodes st /\ fsubplots st' = fsubplots st /\ fbands st' = fbands st
  /\ subplotsC st' = subplotsC st /\ bandsC st' = bandsC st /\ ndata st' = ndata st.
Proof.
  unfold splitScales.
  destruct (SplitXScales f), (SplitYScales f); simpl;
    repeat match goal with
           | |- context [splitScale ?a ?b ?c ?d ?s] =>
               let H := fresh in
               pose proof (splitScale_frame a b c d s) as H; simpl in H;
               destruct H as (-> & -> & -> & -> & -> & ->)
           end; done.
Qed.

Lemma rehomed_prefix nodes nodes' sps sps' g ngid :
  nodes `prefix_of` nodes' -> sps `prefix_of` sps' ->
  rehomed nodes sps g ngid -> rehomed nodes' sps' g ngid.
Proof.
  intros Hn Hs (v & info & a & nbands & Hl & Hv & Hp & Hlab & Hc).
  exists v, info, a, nbands. split_and!; [done|done| | |].
  - destruct (Label_allocated _ _ _ Hlab) as [b [-> Hb]].
    rewrite (Parent_prefix nodes nodes') by done. done.
  - by eapply Label_prefix.
  - by eapply childSubplot_prefix.
Qed.

Lemma cacheOk_mono sc bc bc' sps sps' :
  (forall k nbs, bc !! k = Some nbs -> bc' !! k = Some nbs) ->
  sps `prefix_of` sps' -> cacheOk sc bc sps -> cacheOk sc bc' sps'.
Proof.
  intros Hbc Hsps Hc s nsub Hs.
  destruct (Hc s nsub Hs) as (sub & nbands & Hsub & Hb & Hall).
  exists sub, nbands. split_and!.
  - by eapply prefix_lookup_Some.
  - by apply Hbc.
  - intros v info Hv. destruct (Hall v info Hv) as [a [Ha Hch]].
    exists a. split; [done|]. by eapply childSubplot_prefix.
Qed.

Lemma bandsFor_spec (band : option nat)
    (bc : gmap (option nat) (list (option nat))) (bds : list subplotBand)
    nbands bc' bds' :
  bandsFor vals band bc bds = Ok (nbands, bc', bds') ->
  bds `prefix_of` bds' /\ bc' !! band = Some nbands
  /\ (forall k nbs, bc !! k = Some nbs -> bc' !! k = Some nbs)
  /\ (bandCacheOk bc -> bandCacheOk bc').
Proof.
  unfold bandsFor. destruct (bc !! band) as [nbs0|] eqn:Hb.
  - intros [= <- <- <-]. by split_and!.
  - destruct (fillBands _ _ _ _) as [[nbs' bds1]|] eqn:Hfill; [|done].
    simpl. intros [= <- <- <-].
    destruct (fillBands_spec _ _ _ _ _ _ Hfill) as (Hpre & Hlen & Hall & Hok).
    split_and!; [done|by rewrite lookup_insert_eq| |].
    + intros k nbs Hk. rewrite lookup_insert_ne; [done|]. intros ->. congruence.
    + intros Hbc k nbs Hk. destruct (decide (k = band)) as [->|Hne].
      * rewrite lookup_insert_eq in Hk. injection Hk as <-. split.
        -- intros v info Hv. apply Hall. right. by eapply elem_of_rangeVals.
        -- apply Hok. split.
           ++ intros i b [[=] _]%lookup_replicate.
           ++ intros i j b [[=] _]%lookup_replicate.
      * rewrite lookup_insert_ne in Hk by done. by eapply Hbc.
Qed.

Lemma subplotsFor_spec (sub : nat) (s : subplot) (nbands : list (option nat))
    (sc0 : gmap nat (list (option nat))) (bc : gmap (option nat) (list (option nat)))
    (sps0 : list subplot) nsubplots sc sps :
  cacheOk sc0 bc sps0 -> sps0 !! sub = Some s ->
  bc !! facetedBand dir s = Some nbands ->
  subplotsFor dir vals sub s nbands sc0 sps0 = Ok (nsubplots, sc, sps) ->
  sps0 `prefix_of` sps /\ sc !! sub = Some nsubplots /\ cacheOk sc bc sps.
Proof.
  intros Hc Hs Hb. unfold subplotsFor.
  destruct (sc0 !! sub) as [nsub0|] eqn:Hsub.
  - intros [= <- <- <-]. by split_and!.
  - destruct (fillSubplots _ _ _ _ _ _ _ _) as [[nsub' sps']|] eqn:Hfill; [|done].
    simpl. intros [= <- <- <-].
    destruct (fillSubplots_spec _ _ _ _ _ _ _ _ _ _ Hfill) as [Hpre [Hlen Hall]].
    split_and!; [done|by rewrite lookup_insert_eq|].
    intros s' nsub Hs'. destruct (decide (s' = sub)) as [->|Hne].
    + rewrite lookup_insert_eq in Hs'. injection Hs' as <-.
      exists s, nbands. split_and!; [by eapply prefix_lookup_Some|done|].
      intros v info Hv.
      destruct (Hall (index info)) as [a [nb [Ha [Hnb Hsp]]]].
      { right. by eapply elem_of_rangeVals. }
      exists a. split; [done|]. exists s, nb. split_and!; [|done|done].
      by eapply prefix_lookup_Some.
    + rewrite lookup_insert_ne in Hs' by done.
      by apply (cacheOk_mono sc0 bc bc sps0 sps' (fun _ _ H => H) Hpre Hc).
Qed.

(** What a step that does not panic went through. *)
Lemma facetStep_Ok (g : option nat) (st st' : facetState) :
  facetStep f dir vals grouped g st = Ok st' ->
  exists s nbands bc bds nsubplots sc sps v info a ns,
    fsubplots st !! subplotOf (fnodes st) g = Some s
    /\ bandsFor vals (facetedBand dir s) (bandsC st) (fbands st) = Ok (nbands, bc, bds)
    /\ subplotsFor dir vals (subplotOf (fnodes st) g) s nbands (subplotsC st)
         (fsubplots st) = Ok (nsubplots, sc, sps)
    /\ Label (fnodes st) g = Ok v /\ vals !! v = Some info
    /\ nsubplots !! index info = Some (Some a) /\ sps !! a = Some ns
    /\ st' = splitScales f (facetedBand dir ns) g (Some (length (fnodes st)))
               (mapGroup grouped g a sc bc sps bds st).2.
Proof.
  unfold facetStep.
  destruct (fsubplots st !! subplotOf (fnodes st) g) as [s|] eqn:Hs; [|done].
  destruct (bandsFor _ _ _ _) as [[[nbands bc] bds]|] eqn:Hbf; [|done].
  cbv beta iota delta [bind].
  destruct (subplotsFor _ _ _ _ _ _ _) as [[[nsubplots sc] sps]|] eqn:Hsf; [|done].
  cbv beta iota delta [bind].
  destruct (Label (fnodes st) g) as [v|] eqn:Hl; [|done].
  cbv beta iota delta [bind].
  destruct (vals !! v) as [info|] eqn:Hv; [|done].
  destruct (nsubplots !! index info) as [[a|]|] eqn:Ha; try done.
  unfold mapGroup, Extend.
  destruct (sps !! a) as [ns|] eqn:Hns; [|done].
  intros [= <-]. by exists s, nbands, bc, bds, nsubplots, sc, sps, v, info, a, ns.
Qed.

Hypothesis h_wf : heap_wf h.

Lemma Label_from_prefix (nodes : list groupNode) (g : option nat) (v : value) :
  h `prefix_of` nodes -> allocated h g -> Label nodes g = Ok v -> Label h g = Ok v.
Proof.
  intros Hpre Hal Hl. destruct g as [b|]; [|done]. simpl in Hal, Hl |- *.
  destruct (lookup_lt_is_Some_2 h b Hal) as [n Hn].
  by rewrite Hn, (prefix_lookup_Some _ _ _ _ Hn Hpre) in *.
Qed.

Lemma facetStep_inv (done : list (option nat)) (g : option nat) (st st' : facetState) :
  allocated h g -> facetInv done st ->
  facetStep f dir vals grouped g st = Ok st' ->
  facetInv (done ++ [g]) st'.
Proof.
  intros Hal (Hpre & Hcache & Hdata) Hstep.
  destruct (facetStep_Ok _ _ _ Hstep)
    as (s & nbands & bc & bds & nsubplots & sc & sps & v & info & a & ns
        & Hs & Hbf & Hsf & Hl & Hv & Ha & Hns & ->).
  rewrite (subplotOf_stable h (fnodes st) g h_wf Hpre Hal) in Hs, Hsf.
  destruct (bandsFor_spec _ _ _ _ _ _ Hbf) as (_ & Hbc & Hkeep & _).
  assert (Hcache1 : cacheOk (subplotsC st) bc (fsubplots st))
    by by eapply cacheOk_mono.
  destruct (subplotsFor_spec _ _ _ _ _ _ _ _ _ Hcache1 Hs Hbc Hsf)
    as (Hsps & Hsub & Hc').
  unfold mapGroup, Extend. cbn [snd].
  match goal with
  | |- facetInv _ (splitScales f ?nb ?g0 ?ng ?s0) =>
      pose proof (splitScales_frame nb g0 ng s0) as Hfr; simpl in Hfr;
      destruct Hfr as (Hf1 & Hf2 & _ & Hf4 & Hf5 & Hf6)
  end.
  unfold facetInv. rewrite Hf1, Hf2, Hf4, Hf5, Hf6.
  apply (Label_from_prefix _ _ _ Hpre Hal) in Hl as Hlab.
  split_and!.
  - etrans; [done|]. by apply prefix_app_r.
  - exact Hc'.
  - unfold GAdd. apply Forall2_app.
    + eapply Forall2_impl; [done|]. intros g0 ngt [Ht Hr]. split; [done|].
      eapply rehomed_prefix; [| |done]; [by apply prefix_app_r|done].
    + constructor; [|constructor]. split; [done|]. simpl.
      destruct (Hc' _ _ Hsub) as (sub' & nbands' & _ & _ & Hnb).
      destruct (Hnb v info Hv) as [a' [Ha' Hch]].
      assert (a' = a) as -> by congruence.
      exists v, info, a, nbands'. split_and!; [done|done| | |done].
      * unfold Parent at 1. rewrite lookup_app_r, Nat.sub_diag by lia. simpl.
        by apply Parent_prefix.
      * unfold Label. by rewrite lookup_app_r, Nat.sub_diag by lia.
Qed.

Lemma facetLoop_inv (gids done : list (option nat)) (st st' : facetState) :
  Forall (allocated h) gids -> facetInv done st ->
  facetLoop f dir vals grouped gids st = Ok st' ->
  facetInv (done ++ gids) st'.
Proof.
  revert done st. induction gids as [|g gids IH]; intros done st Hal Hinv; simpl.
  - intros [= <-]. by rewrite app_nil_r.
  - apply Forall_cons in Hal as [Hg Hal].
    destruct (facetStep f dir vals grouped g st) as [st1|] eqn:Hstep; [|done].
    cbv beta iota delta [bind]. intros Hloop.
    replace (done ++ g :: gids) with ((done ++ [g]) ++ gids) by by rewrite <- app_assoc.
    eapply IH; [done| |done]. by eapply facetStep_inv.
Qed.

End FacetInvariant.

(** ** C3: where a facet puts the groups *)

Section Int.

Lemma int_wrap_exact (z : Z) : (- 2 ^ 63 <= z < 2 ^ 63)%Z -> int_wrap z = z.
Proof.
  unfold int_wrap.
  change (2 ^ 63)%Z with 9223372036854775808%Z.
  change (2 ^ 64)%Z with 18446744073709551616%Z.
  intros Hz. rewrite Z.mod_small; lia.
Qed.

(** Without overflow the faceted coordinate is the plain product and sum. *)
Lemma int_add_mul_exact (pos n idx : Z) :
  (- 2 ^ 63 <= pos * n < 2 ^ 63)%Z -> (- 2 ^ 63 <= pos * n + idx < 2 ^ 63)%Z ->
  int_add (int_mul pos n) idx = (pos * n + idx)%Z.
Proof.
  intros H1 H2. unfold int_add, int_mul.
  rewrite (int_wrap_exact (pos * n)) by done. by rewrite int_wrap_exact.
Qed.

End Int.

(** C3: after a facet application in direction [dir] the output grouping
    lists, for every group of [GroupBy(data, Col)] and in the same order, a
    GroupID that extends the parent of the group's GroupID (not the GroupID
    itself) with the new child subplot for the group's value; that subplot
    is a child of the subplot owning the group, its coordinate on the
    faceted axis is [parent.pos * len(vals) + valueIndex] in Go's [int]
    arithmetic, and its other coordinate and band are the parent's.  On the
    scenario of the specification FacetX over {A, B} puts the groups at
    (0,0) and (1,0), and FacetY over {C, D} after it at (0,0), (1,0),
    (0,1), (1,1). *)
Theorem apply_rehomes_groups (f : FacetCommon) (p : Plot) (dir : string) (m : mem)
    (p' : Plot) (m' : mem) :
  heap_wf (gnodes m) -> grouping_wf (gnodes m) (data p) ->
  apply f p dir m = Ok (p', m') ->
  (exists grouped h vals,
     GroupBy (data p) [Col f] (gnodes m) = Ok (grouped, h)
     /\ facetVals h (default (Sprint (subplotsM m)) (Labeler f)) (Tables grouped)
        = Ok vals
     /\ Forall2
          (fun gt ngt =>
             ngt.2 = gt.2 /\
             exists v info a sub ns,
               Label h gt.1 = Ok v /\ vals !! v = Some info
               /\ Parent (gnodes m') ngt.1 = Parent h gt.1
               /\ Label (gnodes m') ngt.1 = Ok (VSubplot a)
               /\ subplotsM m' !! subplotOf h gt.1 = Some sub
               /\ subplotsM m' !! a = Some ns
               /\ sparent ns = Some (subplotOf h gt.1)
               /\ (if String.eqb dir "x" then
                     sx ns = int_add (int_mul (sx sub) (Z.of_nat (size vals)))
                               (Z.of_nat (index info))
                     /\ sy ns = sy sub /\ hBand ns = hBand sub
                   else
                     sy ns = int_add (int_mul (sy sub) (Z.of_nat (size vals)))
                               (Z.of_nat (index info))
                     /\ sx ns = sx sub /\ vBand ns = vBand sub))
          grouped (data p'))
  /\ positionsOf (FacetX (facetBy "f1" false false) facetPlot mem0)
     = [(0, 0); (1, 0)]%Z
  /\ positionsOf (let* (p1, m1) := FacetX (facetBy "f1" false false) facetPlot mem0 in
                  FacetY (facetBy "f2" false true) p1 m1)
     ≡ₚ [(0, 0); (1, 0); (0, 1); (1, 1)]%Z.
Proof.
  intros Hwf Hg Happ. split; [|split].
  - unfold apply in Happ.
    destruct (GroupBy (data p) [Col f] (gnodes m)) as [[grouped h]|] eqn:Hgb; [|done].
    cbv beta iota delta [bind] in Happ.
    destruct (facetVals h _ (Tables grouped)) as [vals|] eqn:Hvals; [|done].
    cbv beta iota delta [bind] in Happ.
    destruct (facetLoop _ _ _ _ _ _) as [st|] eqn:Hloop; [|done].
    injection Happ as <- <-. simpl.
    destruct (GroupBy_heap_wf _ _ _ _ _ Hwf Hg Hgb) as (Hwfh & (Hnd & Hal & _) & _).
    exists grouped, h, vals. split_and!; [done..|].
    assert (Hinv : facetInv dir vals grouped h (Tables grouped) st).
    { eapply (facetLoop_inv f dir vals grouped h Hwfh (Tables grouped) []);
        [done| |exact Hloop].
      split_and!; [done| |constructor].
      intros s nsub Hs. simpl in Hs. by rewrite lookup_empty in Hs. }
    destruct Hinv as (_ & _ & Hdata).
    apply Forall2_fmap_l in Hdata.
    apply Forall2_same_length_lookup. split; [by eapply Forall2_length|].
    intros i [g t] ngt Hgt Hngt.
    destruct (Forall2_lookup_lr _ _ _ _ _ _ Hdata Hgt Hngt) as [Ht Hr].
    simpl in Ht, Hr |- *. split.
    + rewrite Ht. apply TableOf_NoDup; [done|]. by eapply list_elem_of_lookup_2.
    + destruct Hr as (v & info & a & nbands & Hl & Hv & Hp & Hlab & Hc).
      destruct Hc as (sub & nb & Hsub & Hnb & Hns).
      exists v, info, a, sub, (newSubplot dir (subplotOf h g) sub (size vals)
                                 (index info) nb).
      split_and!; try done.
      * unfold newSubplot. by destruct (dir =? "x")%string.
      * unfold newSubplot. by destruct (dir =? "x")%string.
  - by vm_compute.
  - vm_compute. apply Permutation_skip, perm_swap.
Qed.

Definition facetPlotX : Plot :=
  {| data :=
       [(Some 2, [("f1"%string, ConstCol (VString "A"));
                  ("f2"%string, Seq [VString "C"; VString "D"]);
                  ("y"%string, Seq [VInt 1; VInt 3])]);
        (Some 3, [("f1"%string, ConstCol (VString "B"));
                  ("f2"%string, Seq [VString "C"; VString "D"]);
                  ("y"%string, Seq [VInt 2; VInt 4])])];
     scaleAt := ∅ |}.

Definition facetMemX : mem :=
  {| gnodes := [{| parent := None; label := VString "A" |};
                {| parent := None; label := VString "B" |};
                {| parent := None; label := VSubplot 1 |};
                {| parent := None; label := VSubplot 2 |}];
     subplotsM := [rootSubplotValue;
                   {| sparent := Some 0; sx := 0; sy := 0; vBand := Some 0; hBand := None |};
                   {| sparent := Some 0; sx := 1; sy := 0; vBand := Some 1; hBand := None |}];
     bandsM := [{| bparent := None; blabel := "A" |};
                {| bparent := None; blabel := "B" |}];
     scalersM := [{| cloneOf := None |}] |}.

Lemma facetT_wf : table_wf facetT.
Proof.
  apply table_wf_intro; [|by repeat constructor].
  by apply (bool_decide_unpack _).
Qed.

Lemma heap_wf_nil : heap_wf [].
Proof. intros a n Hn. by rewrite lookup_nil in Hn. Qed.

Lemma apply_rehomes_groups_witness :
  apply (facetBy "f1" false false) facetPlot "x" mem0 = Ok (facetPlotX, facetMemX)
  /\ exists grouped h vals,
       GroupBy (data facetPlot) [Col (facetBy "f1" false false)] (gnodes mem0)
       = Ok (grouped, h)
       /\ facetVals h (default (Sprint (subplotsM mem0))
                         (Labeler (facetBy "f1" false false))) (Tables grouped)
          = Ok vals
       /\ Forall2
            (fun gt ngt =>
               ngt.2 = gt.2 /\
               exists v info a sub ns,
                 Label h gt.1 = Ok v /\ vals !! v = Some info
                 /\ Parent (gnodes facetMemX) ngt.1 = Parent h gt.1
                 /\ Label (gnodes facetMemX) ngt.1 = Ok (VSubplot a)
                 /\ subplotsM facetMemX !! subplotOf h gt.1 = Some sub
                 /\ subplotsM facetMemX !! a = Some ns
                 /\ sparent ns = Some (subplotOf h gt.1)
                 /\ (if String.eqb "x" "x" then
                       sx ns = int_add (int_mul (sx sub) (Z.of_nat (size vals)))
                                 (Z.of_nat (index info))
                       /\ sy ns = sy sub /\ hBand ns = hBand sub
                     else
                       sy ns = int_add (int_mul (sy sub) (Z.of_nat (size vals)))
                                 (Z.of_nat (index info))
                       /\ sx ns = sx sub /\ vBand ns = vBand sub))
            grouped (data facetPlotX).
Proof.
  split; [by vm_compute|].
  apply (apply_rehomes_groups (facetBy "f1" false false) facetPlot "x" mem0
           facetPlotX facetMemX).
  - apply heap_wf_nil.
  - apply ofTable_wf, facetT_wf.
  - by vm_compute.
Defined.

(** ** The values of a facet *)

Section FacetVals.

(** The indices tell the values apart. *)
Definition index_inj (vals : gmap value valInfo) : Prop :=
  forall v1 v2 i1 i2, vals !! v1 = Some i1 -> vals !! v2 = Some i2 ->
    index i1 = index i2 -> v1 = v2.

Lemma collectVals_spec (h : list groupNode) (labeler : value -> string)
    (gids : list (option nat)) (vals0 vals : gmap value valInfo) :
  collectVals h labeler gids vals0 = Ok vals ->
  (forall v info, vals0 !! v = Some info -> index info < size vals0) ->
  index_inj vals0 ->
  (forall v, is_Some (vals !! v) <->
             is_Some (vals0 !! v) \/ exists g, g ∈ gids /\ Label h g = Ok v)
  /\ index_inj vals.
Proof.
  revert vals0. induction gids as [|g gids IH]; intros vals0; simpl.
  - intros [= <-] _ Hinj. split; [|done]. intros v. split; [by left|].
    intros [?|[g [?%elem_of_nil _]]]; done.
  - destruct (Label h g) as [v0|] eqn:Hl; [|done]. cbv beta iota delta [bind].
    destruct (vals0 !! v0) as [info0|] eqn:Hv0.
    + intros Hc Hb Hinj. destruct (IH _ Hc Hb Hinj) as [Hkeys Hinj']. split; [|done].
      intros v. rewrite Hkeys. split.
      * intros [?|[g' [Hin Hg']]]; [by left|]. right. exists g'. split; [by right|done].
      * intros [?|[g' [[->|Hin]%elem_of_cons Hg']]]; [by left| |by right; eauto].
        left. assert (v = v0) as -> by congruence. by rewrite Hv0.
    + intros Hc Hb Hinj.
      destruct (IH _ Hc) as [Hkeys Hinj'].
      * intros v info Hv. rewrite map_size_insert_None by done.
        destruct (decide (v = v0)) as [->|Hne].
        -- rewrite lookup_insert_eq in Hv. injection Hv as <-. simpl. lia.
        -- rewrite lookup_insert_ne in Hv by done. apply Hb in Hv. lia.
      * intros v1 v2 i1 i2 H1 H2 Heq.
        destruct (decide (v1 = v0)) as [->|Hn1];
          destruct (decide (v2 = v0)) as [->|Hn2]; [done| | |].
        -- rewrite lookup_insert_eq in H1. injection H1 as <-.
           rewrite lookup_insert_ne in H2 by done. apply Hb in H2. simpl in Heq. lia.
        -- rewrite lookup_insert_eq in H2. injection H2 as <-.
           rewrite lookup_insert_ne in H1 by done. apply Hb in H1. simpl in Heq. lia.
        -- rewrite lookup_insert_ne in H1, H2 by done. by eapply Hinj.
      * split; [|done]. intros v. rewrite Hkeys. split.
        -- intros [Hs|[g' [Hin Hg']]].
           ++ destruct (decide (v = v0)) as [->|Hne].
              ** right. exists g. split; [by left|done].
              ** left. by rewrite lookup_insert_ne in Hs.
           ++ right. exists g'. split; [by right|done].
        -- intros [Hs|[g' [[->|Hin]%elem_of_cons Hg']]].
           ++ left. destruct (decide (v = v0)) as [->|Hne].
              ** by rewrite lookup_insert_eq.
              ** by rewrite lookup_insert_ne.
           ++ left. assert (v = v0) as -> by congruence. by rewrite lookup_insert_eq.
           ++ right. eauto.
Qed.

Lemma setIndices_notin (sorted : list value) (i : nat) (vals : gmap value valInfo)
    (v : value) :
  v ∉ sorted -> setIndices sorted i vals !! v = vals !! v.
Proof.
  revert i vals. induction sorted as [|v0 sorted IH]; intros i vals Hv; simpl; [done|].
  apply not_elem_of_cons in Hv as [Hne Hv].
  rewrite IH by done. by rewrite lookup_alter_ne.
Qed.

Lemma setIndices_lookup (sorted : list value) (i k : nat)
    (vals : gmap value valInfo) (v : value) :
  NoDup sorted -> sorted !! k = Some v ->
  setIndices sorted i vals !! v
  = (fun info => {| index := i + k; vlabel := vlabel info |}) <$> vals !! v.
Proof.
  revert i k vals. induction sorted as [|v0 sorted IH]; intros i k vals Hnd Hk; [done|].
  apply NoDup_cons in Hnd as [Hv0 Hnd]. simpl. destruct k as [|k]; simpl in Hk.
  - injection Hk as ->. rewrite setIndices_notin by done.
    rewrite lookup_alter_eq, Nat.add_0_r. done.
  - rewrite (IH (S i) k) by done. rewrite lookup_alter_ne.
    + by replace (S i + k) with (i + S k) by lia.
    + intros ->. apply Hv0. by eapply list_elem_of_lookup_2.
Qed.

Lemma setIndices_dom (sorted : list value) (i : nat) (vals : gmap value valInfo) :
  dom (setIndices sorted i vals) = dom vals.
Proof.
  revert i vals. induction sorted as [|v0 sorted IH]; intros i vals; simpl; [done|].
  by rewrite IH, dom_alter_L.
Qed.

Lemma orderVals_spec (k : kind) (vals vals' : gmap value valInfo) :
  orderVals k vals = Ok vals' -> index_inj vals ->
  (forall v, is_Some (vals' !! v) <-> is_Some (vals !! v))
  /\ index_inj vals' /\ size vals' = size vals.
Proof.
  unfold orderVals. destruct (CanOrderR k); [|by intros [= <-]].
  destruct (forallb _ _); [|done]. intros [= <-] _.
  set (keys := (map_to_list vals).*1).
  assert (Hnd : NoDup (Sort keys)).
  { unfold Sort. rewrite merge_sort_Permutation. apply NoDup_fst_map_to_list. }
  assert (Hin : forall v, v ∈ Sort keys <-> is_Some (vals !! v)).
  { intros v. unfold Sort. rewrite merge_sort_Permutation. unfold keys.
    rewrite list_elem_of_fmap. split.
    - intros [[v' info] [-> Hm%elem_of_map_to_list]]. by exists info.
    - intros [info Hv]. exists (v, info). split; [done|].
      by apply elem_of_map_to_list. }
  assert (Hlook : forall v, is_Some (setIndices (Sort keys) 0 vals !! v)
                            <-> is_Some (vals !! v)).
  { intros v. destruct (decide (v ∈ Sort keys)) as [Hv|Hv].
    - apply list_elem_of_lookup in Hv as [j Hj].
      rewrite (setIndices_lookup _ 0 j vals v Hnd Hj). by rewrite fmap_is_Some.
    - by rewrite setIndices_notin. }
  split_and!; [done| |].
  - intros v1 v2 i1 i2 H1 H2 Heq.
    assert (H1' : v1 ∈ Sort keys) by (apply Hin, Hlook; eauto).
    assert (H2' : v2 ∈ Sort keys) by (apply Hin, Hlook; eauto).
    apply list_elem_of_lookup in H1' as [j1 Hj1].
    apply list_elem_of_lookup in H2' as [j2 Hj2].
    rewrite (setIndices_lookup _ 0 j1 vals v1 Hnd Hj1) in H1.
    rewrite (setIndices_lookup _ 0 j2 vals v2 Hnd Hj2) in H2.
    destruct (vals !! v1) as [x1|]; [|done]. destruct (vals !! v2) as [x2|]; [|done].
    simpl in H1, H2. injection H1 as <-. injection H2 as <-. simpl in Heq.
    assert (j1 = j2) as -> by lia. congruence.
  - by rewrite <- !size_dom, setIndices_dom.
Qed.

End FacetVals.

Section FacetValsSpec.

Lemma facetVals_spec (h : list groupNode) (labeler : value -> string)
    (gids : list (option nat)) (vals : gmap value valInfo) :
  facetVals h labeler gids = Ok vals ->
  (forall v, is_Some (vals !! v) <-> exists g, g ∈ gids /\ Label h g = Ok v)
  /\ index_inj vals.
Proof.
  unfold facetVals.
  destruct (collectVals h labeler gids ∅) as [vals0|] eqn:Hc; [|done].
  cbv beta iota delta [bind].
  destruct (firstType h gids) as [t|]; [|done]. cbv beta iota delta [bind].
  destruct (Kind t) as [k|]; [|done]. cbv beta iota delta [bind].
  intros Ho.
  destruct (collectVals_spec _ _ _ _ _ Hc) as [Hkeys Hinj].
  { intros v info Hv. by rewrite lookup_empty in Hv. }
  { intros v1 v2 i1 i2 Hv. by rewrite lookup_empty in Hv. }
  destruct (orderVals_spec _ _ _ Ho Hinj) as (Hdom & Hinj' & _).
  split; [|done]. intros v. rewrite Hdom, Hkeys. split.
  - intros [Hs|?]; [|done]. rewrite lookup_empty in Hs. by destruct Hs.
  - by right.
Qed.

End FacetValsSpec.

(** ** Scales resolve along the group tree *)

Section GetScaleStable.

Lemma GetScaleFrom_root (fuel : nat) (sc : gmap (string * option nat) nat)
    (h : list groupNode) (aes : string) :
  GetScaleFrom fuel sc h aes None = default defaultScale (sc !! (aes, None)).
Proof. destruct fuel; simpl; by destruct (sc !! (aes, None)). Qed.

Lemma GetScaleFrom_stable (sc1 sc2 : gmap (string * option nat) nat)
    (h1 h2 : list groupNode) (aes : string) (g : option nat) (fuel1 fuel2 : nat) :
  heap_wf h1 -> h1 `prefix_of` h2 ->
  (forall g', allocated h1 g' -> sc2 !! (aes, g') = sc1 !! (aes, g')) ->
  allocated h1 g ->
  (forall a, g = Some a -> a < fuel1 /\ a < fuel2) ->
  GetScaleFrom fuel1 sc1 h1 aes g = GetScaleFrom fuel2 sc2 h2 aes g.
Proof.
  intros Hwf Hpre Hsc. destruct g as [a|].
  2:{ intros _ _. rewrite !GetScaleFrom_root. by rewrite Hsc. }
  intros Hal Hfuel. destruct (Hfuel a eq_refl) as [H1 H2]. clear Hfuel.
  revert fuel1 fuel2 Hal H1 H2. induction a as [a IH] using lt_wf_ind.
  intros fuel1 fuel2 Hal H1 H2. simpl in Hal.
  destruct fuel1 as [|k1]; [lia|]. destruct fuel2 as [|k2]; [lia|]. simpl.
  rewrite (Hsc (Some a)) by done.
  destruct (sc1 !! (aes, Some a)); [done|].
  destruct (lookup_lt_is_Some_2 h1 a Hal) as [n Hn].
  rewrite Hn, (prefix_lookup_Some _ _ _ _ Hn Hpre).
  pose proof (Hwf a n Hn) as Hp. destruct (parent n) as [b|].
  - apply IH; simpl; lia.
  - rewrite !GetScaleFrom_root. by rewrite Hsc.
Qed.

Lemma GetScale_stable (sc1 sc2 : gmap (string * option nat) nat)
    (h1 h2 : list groupNode) (aes : string) (g : option nat) :
  heap_wf h1 -> h1 `prefix_of` h2 ->
  (forall g', allocated h1 g' -> sc2 !! (aes, g') = sc1 !! (aes, g')) ->
  allocated h1 g ->
  GetScale sc2 h2 aes g = GetScale sc1 h1 aes g.
Proof.
  intros Hwf Hpre Hsc Hal. unfold GetScale. symmetry.
  apply GetScaleFrom_stable; try done.
  intros a ->. simpl in Hal. apply prefix_length in Hpre. lia.
Qed.

Lemma GetScaleFrom_step (fuel : nat) (sc : gmap (string * option nat) nat)
    (h : list groupNode) (aes : string) (a : nat) :
  GetScaleFrom (S fuel) sc h aes (Some a)
  = match sc !! (aes, Some a) with
    | Some s => s
    | None => GetScaleFrom fuel sc h aes (Parent h (Some a))
    end.
Proof. done. Qed.

(** A group without a scale of its own resolves to its parent's. *)
Lemma GetScale_unset (sc : gmap (string * option nat) nat) (h : list groupNode)
    (aes : string) (a : nat) (n : groupNode) :
  heap_wf h -> h !! a = Some n -> sc !! (aes, Some a) = None ->
  GetScale sc h aes (Some a) = GetScale sc h aes (parent n).
Proof.
  intros Hwf Hn Hsc. unfold GetScale. rewrite GetScaleFrom_step, Hsc.
  unfold Parent. rewrite Hn.
  pose proof (lookup_lt_Some _ _ _ Hn) as Hlt.
  pose proof (Hwf a n Hn) as Hp.
  apply GetScaleFrom_stable; try done.
  - destruct (parent n) as [b|]; simpl; [lia|done].
  - intros b Hb. rewrite Hb in Hp. lia.
Qed.

End GetScaleStable.

(** ** The cache of cloned scales *)

(** The clones cached for (band, scale) pairs are scales allocated by this
    application, each a clone of the scale it is cached for, and no clone
    is cached for two pairs. *)
Definition scaleCacheOk (base : nat) (sc : gmap (option nat * nat) nat)
    (scs : list scaler) : Prop :=
  base <= length scs
  /\ (forall k c, sc !! k = Some c ->
        base <= c < length scs /\ scs !! c = Some {| cloneOf := Some k.2 |})
  /\ (forall k1 k2 c, sc !! k1 = Some c -> sc !! k2 = Some c -> k1 = k2).

Section SplitScale.

Lemma GetScale_set (sc : gmap (string * option nat) nat) (h : list groupNode)
    (aes : string) (g : option nat) (c : nat) :
  sc !! (aes, g) = Some c -> GetScale sc h aes g = c.
Proof. intros Hc. unfold GetScale. simpl. by rewrite Hc. Qed.

Lemma splitScale_spec (aes : string) (nband : option nat) (g ngid : option nat)
    (st : facetState) (base : nat) :
  let st' := splitScale aes nband g ngid st in
  exists c,
    scalesC st' !! (nband, GetScale (pscales st) (fnodes st) aes g) = Some c
    /\ pscales st' = <[(aes, ngid) := c]> (pscales st)
    /\ (forall k c', scalesC st !! k = Some c' -> scalesC st' !! k = Some c')
    /\ fscalers st `prefix_of` fscalers st'
    /\ (scaleCacheOk base (scalesC st) (fscalers st) ->
        scaleCacheOk base (scalesC st') (fscalers st')).
Proof.
  unfold splitScale.
  set (s0 := GetScale (pscales st) (fnodes st) aes g).
  destruct (scalesC st !! (nband, s0)) as [c|] eqn:Hc; simpl.
  - exists c. by split_and!.
  - exists (length (fscalers st)). split_and!.
    + by rewrite lookup_insert_eq.
    + done.
    + intros k c' Hk. rewrite lookup_insert_ne; [done|]. intros <-. congruence.
    + by apply prefix_app_r.
    + intros (Hbase & Hent & Hinj). split_and!.
      * rewrite length_app. lia.
      * intros k c Hk. rewrite length_app. simpl.
        destruct (decide (k = (nband, s0))) as [->|Hne].
        -- rewrite lookup_insert_eq in Hk. injection Hk as <-. split; [lia|].
           by rewrite lookup_app_r, Nat.sub_diag by lia.
        -- rewrite lookup_insert_ne in Hk by done.
           destruct (Hent k c Hk) as [Hb Hl]. split; [lia|].
           by apply lookup_app_l_Some.
      * intros k1 k2 c H1 H2.
        destruct (decide (k1 = (nband, s0))) as [->|Hn1];
          destruct (decide (k2 = (nband, s0))) as [->|Hn2]; [done| | |].
        -- rewrite lookup_insert_eq in H1. injection H1 as <-.
           rewrite lookup_insert_ne in H2 by done.
           destruct (Hent _ _ H2) as [? _]. lia.
        -- rewrite lookup_insert_eq in H2. injection H2 as <-.
           rewrite lookup_insert_ne in H1 by done.
           destruct (Hent _ _ H1) as [? _]. lia.
        -- rewrite lookup_insert_ne in H1, H2 by done. by eapply Hinj.
Qed.

Lemma splitScales_spec (f : FacetCommon) (nband : option nat) (g ngid : option nat)
    (st : facetState) (base : nat) :
  let st' := splitScales f nband g ngid st in
  (forall k c', scalesC st !! k = Some c' -> scalesC st' !! k = Some c')
  /\ (scaleCacheOk base (scalesC st) (fscalers st) ->
      scaleCacheOk base (scalesC st') (fscalers st'))
  /\ (forall aes g', g' <> ngid -> pscales st' !! (aes, g') = pscales st !! (aes, g'))
  /\ (forall aes g' c, pscales st' !! (aes, g') = Some c ->
        g' = ngid \/ pscales st !! (aes, g') = Some c)
  /\ (if SplitXScales f
      then exists c,
             scalesC st' !! (nband, GetScale (pscales st) (fnodes st) "x" g) = Some c
             /\ pscales st' !! ("x"%string, ngid) = Some c
      else pscales st' !! ("x"%string, ngid) = pscales st !! ("x"%string, ngid)).
Proof.
  unfold splitScales.
  destruct (SplitXScales f).
  - destruct (splitScale_spec "x" nband g ngid st base)
      as (c & Hc & Hp & Hkeep & _ & Hok).
    set (stx := splitScale "x" nband g ngid st) in *.
    destruct (SplitYScales f).
    + destruct (splitScale_spec "y" nband g ngid stx base)
        as (c' & Hc' & Hp' & Hkeep' & _ & Hok').
      split_and!.
      * intros k c0 Hk. by apply Hkeep', Hkeep.
      * intros H. by apply Hok', Hok.
      * intros aes g' Hne. rewrite Hp', Hp.
        rewrite !lookup_insert_ne by (intros [=]; congruence). done.
      * intros aes g' c0. rewrite Hp', Hp.
        destruct (decide (g' = ngid)) as [->|Hne]; [by left|].
        rewrite !lookup_insert_ne by (intros [=]; congruence). by right.
      * exists c. split; [by apply Hkeep'|].
        rewrite Hp', Hp. rewrite lookup_insert_ne by done.
        by rewrite lookup_insert_eq.
    + split_and!; [done|done| | |].
      * intros aes g' Hne. rewrite Hp.
        by rewrite lookup_insert_ne by (intros [=]; congruence).
      * intros aes g' c0. rewrite Hp.
        destruct (decide (g' = ngid)) as [->|Hne]; [by left|].
        rewrite lookup_insert_ne by (intros [=]; congruence). by right.
      * exists c. split; [done|]. rewrite Hp. by rewrite lookup_insert_eq.
  - destruct (SplitYScales f).
    + destruct (splitScale_spec "y" nband g ngid st base)
        as (c' & Hc' & Hp' & Hkeep' & _ & Hok').
      split_and!; [done|done| | |].
      * intros aes g' Hne. rewrite Hp'.
        by rewrite lookup_insert_ne by (intros [=]; congruence).
      * intros aes g' c0. rewrite Hp'.
        destruct (decide (g' = ngid)) as [->|Hne]; [by left|].
        rewrite lookup_insert_ne by (intros [=]; congruence). by right.
      * rewrite Hp'. by rewrite lookup_insert_ne.
    + split_and!; try done. intros aes g' c0 ?. by right.
Qed.

End SplitScale.

(** ** Scales across one facet application on an unfaceted plot *)

Section ScaleInvariant.

Variable f : FacetCommon.
Variable dir : string.
Variable vals : gmap value valInfo.
Variable grouped : list (option nat * list (string * column)).
Variable h : list groupNode.
Variable sc0 : gmap (string * option nat) nat.
Variable scs0 : list scaler.
Variable sps0 : list subplot.
Variable r0 : subplot.
Variable S0 : nat.

Hypothesis h_wf : heap_wf h.
Hypothesis root_at : sps0 !! rootSubplot = Some r0.
Hypothesis sc0_keys : forall aes g c, sc0 !! (aes, g) = Some c -> allocated h g.

(** The group [g] re-homed to [ng]: its new subplot lies in the band of
    its value, and its x scale is the clone cached for that band, or is
    not set when the x scales are not split. *)
Definition scaled (st : facetState) (g ng : option nat) : Prop :=
  exists v info a ns nbs b,
    Label h g = Ok v /\ vals !! v = Some info
    /\ Parent (fnodes st) ng = Parent h g
    /\ Label (fnodes st) ng = Ok (VSubplot a) /\ fsubplots st !! a = Some ns
    /\ bandsC st !! facetedBand dir r0 = Some nbs
    /\ nbs !! index info = Some (Some b)
    /\ facetedBand dir ns = Some b
    /\ if SplitXScales f
       then exists c, scalesC st !! (Some b, S0) = Some c
                      /\ pscales st !! ("x"%string, ng) = Some c
       else pscales st !! ("x"%string, ng) = None.

Definition scaleInv (done : list (option nat)) (st : facetState) : Prop :=
  h `prefix_of` fnodes st
  /\ sps0 `prefix_of` fsubplots st
  /\ cacheOk dir vals (subplotsC st) (bandsC st) (fsubplots st)
  /\ bandCacheOk vals (bandsC st)
  /\ scaleCacheOk (length scs0) (scalesC st) (fscalers st)
  /\ (forall aes g', allocated h g' -> pscales st !! (aes, g') = sc0 !! (aes, g'))
  /\ (forall aes g' c, pscales st !! (aes, g') = Some c -> allocated (fnodes st) g')
  /\ Forall2 (fun g ngt => scaled st g ngt.1) done (ndata st).

Lemma scaled_mono (st st' : facetState) (g ng : option nat) :
  fnodes st `prefix_of` fnodes st' -> fsubplots st `prefix_of` fsubplots st' ->
  (forall k nbs, bandsC st !! k = Some nbs -> bandsC st' !! k = Some nbs) ->
  (forall k c, scalesC st !! k = Some c -> scalesC st' !! k = Some c) ->
  (forall g', allocated (fnodes st) g' ->
     pscales st' !! ("x"%string, g') = pscales st !! ("x"%string, g')) ->
  scaled st g ng -> scaled st' g ng.
Proof.
  intros Hn Hs Hb Hsc Hp
    (v & info & a & ns & nbs & b & Hl & Hv & Hpar & Hlab & Hns & Hnbs & Hidx & Hfb & Hx).
  destruct (Label_allocated _ _ _ Hlab) as [a' [-> Ha']].
  exists v, info, a, ns, nbs, b. split_and!; try done.
  - by rewrite (Parent_prefix (fnodes st) (fnodes st')).
  - by eapply Label_prefix.
  - by eapply prefix_lookup_Some.
  - by apply Hb.
  - destruct (SplitXScales f).
    + destruct Hx as [c [Hc Hpc]]. exists c. split; [by apply Hsc|].
      by rewrite Hp.
    + by rewrite Hp.
Qed.

Lemma scaleInv_step (done : list (option nat)) (g : option nat) (st st' : facetState) :
  allocated h g -> subplotOf h g = rootSubplot -> GetScale sc0 h "x" g = S0 ->
  scaleInv done st ->
  facetStep f dir vals grouped g st = Ok st' ->
  scaleInv (done ++ [g]) st'.
Proof.
  intros Hal Hroot HS (Hpre & Hsps0 & Hcache & Hbands & Hscales & Hold & Hkeys & Hdata) Hstep.
  destruct (facetStep_Ok _ _ _ _ _ _ _ Hstep)
    as (s & nbands & bc & bds & nsubplots & sc & sps & v & info & a & ns
        & Hs & Hbf & Hsf & Hl & Hv & Ha & Hns & ->).
  rewrite (subplotOf_stable h (fnodes st) g h_wf Hpre Hal), Hroot in Hs, Hsf.
  assert (s = r0) as ->.
  { pose proof (prefix_lookup_Some _ _ _ _ root_at Hsps0). congruence. }
  destruct (bandsFor_spec _ _ _ _ _ _ _ Hbf) as (_ & Hbc & Hkeep & Hbok).
  specialize (Hbok Hbands).
  assert (Hcache1 : cacheOk dir vals (subplotsC st) bc (fsubplots st)).
  { by apply (cacheOk_mono dir vals _ (bandsC st) bc (fsubplots st) (fsubplots st) Hkeep). }
  destruct (subplotsFor_spec _ _ _ _ _ _ _ _ _ _ _ Hcache1 Hs Hbc Hsf)
    as (Hsps & Hsub & Hc').
  (* the new subplot and its band *)
  destruct (Hc' _ _ Hsub) as (sub' & nbands' & Hsub' & Hbc' & Hnb).
  assert (sub' = r0) as ->.
  { pose proof (prefix_lookup_Some _ _ _ _ Hs Hsps). congruence. }
  assert (nbands' = nbands) as -> by congruence.
  destruct (Hnb v info Hv) as (a' & Ha' & sub'' & nb & Hsub'' & Hnbi & Hnew).
  assert (a' = a) as -> by congruence.
  assert (ns = newSubplot dir rootSubplot sub'' (size vals) (index info) nb)
    as Hnseq by congruence.
  destruct (proj1 (Hbok _ _ Hbc) v info Hv) as [b Hb].
  assert (nb = Some b) as -> by congruence.
  assert (Hfb : facetedBand dir ns = Some b).
  { rewrite Hnseq. apply facetedBand_newSubplot. }
  rewrite Hfb.
  (* the state before the scales are split *)
  set (ng := Some (length (fnodes st))).
  set (st1 := (mapGroup grouped g a sc bc sps bds st).2).
  assert (Hst1 : fnodes st1 = fnodes st ++ [{| parent := Parent (fnodes st) g;
                                                label := VSubplot a |}]
                 /\ fsubplots st1 = sps /\ subplotsC st1 = sc /\ bandsC st1 = bc
                 /\ scalesC st1 = scalesC st /\ fscalers st1 = fscalers st
                 /\ pscales st1 = pscales st
                 /\ ndata st1 = ndata st ++ [(ng, TableOf grouped g)]) by done.
  destruct Hst1 as (Hn1 & Hs1 & Hsc1 & Hb1 & Hscc1 & Hscs1 & Hp1 & Hd1).
  pose proof (splitScales_frame f (Some b) g ng st1) as Hfr. cbv zeta in Hfr.
  destruct Hfr as (Hf1 & Hf2 & _ & Hf4 & Hf5 & Hf6).
  pose proof (splitScales_spec f (Some b) g ng st1 (length scs0)) as Hsp.
  cbv zeta in Hsp.
  destruct Hsp as (Hkeepc & Hokc & Hother & Hkeysp & Hx).
  set (st2 := splitScales f (Some b) g ng st1) in *.
  assert (Hng : ~ allocated (fnodes st) ng) by (simpl; lia).
  assert (HS1 : GetScale (pscales st1) (fnodes st1) "x" g = S0).
  { rewrite <- HS. apply GetScale_stable; try done.
    - rewrite Hn1. etrans; [done|]. by apply prefix_app_r.
    - intros g' Hg'. rewrite Hp1. by apply Hold. }
  rewrite HS1 in Hx.
  apply (Label_from_prefix h _ _ _ Hpre Hal) in Hl as Hlab.
  unfold scaleInv. rewrite Hf1, Hf2, Hf4, Hf5, Hf6, Hn1, Hs1, Hsc1, Hb1, Hd1.
  split_and!.
  - etrans; [done|]. by apply prefix_app_r.
  - by etrans.
  - done.
  - done.
  - apply Hokc. by rewrite Hscc1, Hscs1.
  - intros aes g' Hg'. rewrite Hother, Hp1; [by apply Hold|].
    intros ->. unfold ng in Hg'. simpl in Hg'.
    apply prefix_length in Hpre. lia.
  - intros aes g' c Hc. destruct (Hkeysp _ _ _ Hc) as [->|Hc'0].
    + simpl. rewrite length_app. simpl. lia.
    + rewrite Hp1 in Hc'0. apply Hkeys in Hc'0.
      destruct g' as [x|]; [|done]. simpl in *. rewrite length_app. lia.
  - apply Forall2_app.
    + eapply Forall2_impl; [done|]. intros g0 ngt Hsc0.
      apply (scaled_mono st st2); [| | | | |done].
      * rewrite Hf1, Hn1. by apply prefix_app_r.
      * by rewrite Hf2, Hs1.
      * intros k nbs Hk. rewrite Hf5, Hb1. by apply Hkeep.
      * intros k c Hk. apply Hkeepc. by rewrite Hscc1.
      * intros g' Hg'. rewrite Hother, Hp1; [done|]. by intros ->.
    + constructor; [|constructor]. simpl.
      exists v, info, a, ns, nbands, b. rewrite Hf1, Hf2, Hf5, Hn1, Hs1, Hb1.
      split_and!; [done|done| | |done|done|done|done|].
      * unfold ng, Parent at 1. rewrite lookup_app_r, Nat.sub_diag by lia. simpl.
        by apply Parent_prefix.
      * unfold ng, Label. by rewrite lookup_app_r, Nat.sub_diag by lia.
      * destruct (SplitXScales f); [done|]. rewrite Hx, Hp1.
        destruct (pscales st !! ("x"%string, ng)) as [c|] eqn:Hc; [|done].
        by apply Hkeys in Hc.
Qed.

Lemma scaleInv_loop (gids done : list (option nat)) (st st' : facetState) :
  Forall (fun g => allocated h g /\ subplotOf h g = rootSubplot
                   /\ GetScale sc0 h "x" g = S0) gids ->
  scaleInv done st ->
  facetLoop f dir vals grouped gids st = Ok st' ->
  scaleInv (done ++ gids) st'.
Proof.
  revert done st. induction gids as [|g gids IH]; intros done st Hal Hinv; simpl.
  - intros [= <-]. by rewrite app_nil_r.
  - apply Forall_cons in Hal as [(Hg1 & Hg2 & Hg3) Hal].
    destruct (facetStep f dir vals grouped g st) as [st1|] eqn:Hstep; [|done].
    cbv beta iota delta [bind]. intros Hloop.
    replace (done ++ g :: gids) with ((done ++ [g]) ++ gids) by by rewrite <- app_assoc.
    eapply IH; [done| |done]. by eapply scaleInv_step.
Qed.

End ScaleInvariant.

(** ** C4: shared and split x scales *)

(** The x scale a group resolves to. *)
Definition xScaleOf (p : Plot) (m : mem) (g : option nat) : nat :=
  GetScale (scaleAt p) (gnodes m) "x" g.

(** The band, along the faceted direction, of the subplot a group was
    re-homed to. *)
Definition newBandOf (dir : string) (m : mem) (g : option nat) : option nat :=
  match Label (gnodes m) g with
  | Ok (VSubplot a) =>
      match subplotsM m !! a with
      | Some ns => facetedBand dir ns
      | None => None
      end
  | _ => None
  end.

(** C4: let a facet over 3 distinct values be applied to a plot with one
    subplot whose groups all resolve their x scale to one scale [S0].
    With [SplitXScales] false every group of the new data still resolves
    its x scale to [S0] itself.  With [SplitXScales] true the groups of the
    new data resolve to exactly 3 distinct scales, each a clone of [S0]
    allocated by this application, and two groups resolve to the same
    clone exactly when their new subplots lie in the same new band. *)
Theorem apply_splits_scales (f : FacetCommon) (p : Plot) (dir : string) (m : mem)
    (p' : Plot) (m' : mem) grouped h vals (r0 : subplot) (S0 : nat) :
  heap_wf (gnodes m) -> grouping_wf (gnodes m) (data p) ->
  (forall aes g c, scaleAt p !! (aes, g) = Some c -> allocated (gnodes m) g) ->
  subplotsM m !! rootSubplot = Some r0 ->
  apply f p dir m = Ok (p', m') ->
  GroupBy (data p) [Col f] (gnodes m) = Ok (grouped, h) ->
  facetVals h (default (Sprint (subplotsM m)) (Labeler f)) (Tables grouped) = Ok vals ->
  size vals = 3 ->
  (forall g, g ∈ Tables grouped ->
     subplotOf h g = rootSubplot /\ GetScale (scaleAt p) h "x" g = S0) ->
  (SplitXScales f = false ->
     Forall (fun ngt => xScaleOf p' m' ngt.1 = S0) (data p'))
  /\ (SplitXScales f = true ->
      exists clones,
        length clones = 3 /\ NoDup clones
        /\ Forall (fun c => length (scalersM m) <= c
                            /\ scalersM m' !! c = Some {| cloneOf := Some S0 |}) clones
        /\ (forall c, c ∈ clones <->
                      exists ngt, ngt ∈ data p' /\ xScaleOf p' m' ngt.1 = c)
        /\ (forall ngt1 ngt2, ngt1 ∈ data p' -> ngt2 ∈ data p' ->
              (newBandOf dir m' ngt1.1 = newBandOf dir m' ngt2.1
               <-> xScaleOf p' m' ngt1.1 = xScaleOf p' m' ngt2.1))).
Proof.
  intros Hwf Hg Hkeys0 Hroot Happ Hgb Hvals Hsize Hone.
  unfold apply in Happ. rewrite Hgb in Happ. cbv beta iota delta [bind] in Happ.
  rewrite Hvals in Happ. cbv beta iota delta [bind] in Happ.
  destruct (facetLoop _ _ _ _ _ _) as [st|] eqn:Hloop; [|done].
  injection Happ as <- <-. unfold xScaleOf, newBandOf. simpl.
  destruct (GroupBy_heap_wf _ _ _ _ _ Hwf Hg Hgb) as (Hwfh & (Hnd & Hal & _) & Hpre0).
  assert (Hkeysh : forall aes g c, scaleAt p !! (aes, g) = Some c -> allocated h g).
  { intros aes g c Hc. apply Hkeys0 in Hc. destruct g as [x|]; [|done]. simpl in *.
    apply prefix_length in Hpre0. lia. }
  assert (Hfresh : forall g, g ∈ Tables grouped ->
            exists ag, g = Some ag /\ length (gnodes m) <= ag).
  { rewrite GroupBy_single in Hgb by done.
    destruct (regroup_blocks _ _ _ _ _ Hgb) as (_ & Hids & _). rewrite Hids.
    intros g [ag [-> Hag%elem_of_seq]]%list_elem_of_fmap. exists ag. split; [done|lia]. }
  assert (Hinv : scaleInv f dir vals h (scaleAt p) (scalersM m) (subplotsM m) r0 S0
                   (Tables grouped) st).
  { eapply (scaleInv_loop f dir vals grouped h (scaleAt p) (scalersM m) (subplotsM m)
              r0 S0 Hwfh Hroot (Tables grouped) []); [| |exact Hloop].
    - apply Forall_forall. intros g Hin. split; [|by apply Hone].
      by apply (proj1 (Forall_forall _ _) Hal).
    - split_and!; simpl; done. }
  destruct Hinv as (Hpre & _ & _ & Hbands & Hscales & Hold & _ & Hdata).
  destruct (facetVals_spec _ _ _ _ Hvals) as [Hlabels Hinj].
  split.
  - (* the x scales are shared *)
    intros Hflag. apply Forall_forall. intros ngt Hin.
    apply list_elem_of_lookup in Hin as [i Hi].
    destruct (Forall2_lookup_r _ _ _ _ _ Hdata Hi) as (g & Hgi & Hsc).
    destruct Hsc as (v & info & a & ns & nbs & b & Hl & Hv & Hpar & Hlab & _ & _ & _ & _ & Hx).
    rewrite Hflag in Hx.
    apply list_elem_of_lookup_2 in Hgi.
    destruct (Hone g Hgi) as [_ HS]. destruct (Hfresh g Hgi) as (ag & -> & Hag).
    destruct (Label_allocated _ _ _ Hlab) as (a' & Hng & Ha'). rewrite Hng in *.
    unfold GetScale. rewrite GetScaleFrom_step, Hx, Hpar.
    assert (Hagl : ag < length h).
    { by apply (proj1 (Forall_forall _ _) Hal (Some ag)). }
    destruct (lookup_lt_is_Some_2 h ag Hagl) as [n Hn].
    assert (Hnone : scaleAt p !! ("x"%string, Some ag) = None).
    { destruct (scaleAt p !! _) as [c|] eqn:Hc; [|done].
      apply Hkeys0 in Hc. simpl in Hc. lia. }
    rewrite (GetScale_unset _ _ _ _ _ Hwfh Hn Hnone) in HS.
    rewrite <- HS. unfold Parent. rewrite Hn. unfold GetScale. symmetry.
    pose proof (Hwfh ag n Hn) as Hp.
    apply prefix_length in Hpre as Hlen.
    apply GetScaleFrom_stable; try done.
    + intros g' Hg'. by apply Hold.
    + destruct (parent n) as [x|]; simpl; [lia|done].
    + intros x Hx'. rewrite Hx' in Hp. lia.
  - (* the x scales are split *)
    intros Hflag.
    set (rb := facetedBand dir r0).
    set (xclone := fun v : value =>
           match vals !! v with
           | Some info =>
               match bandsC st !! rb with
               | Some nbs =>
                   match nbs !! index info with
                   | Some (Some b) => default 0 (scalesC st !! (Some b, S0))
                   | _ => 0
                   end
               | None => 0
               end
           | None => 0
           end).
    assert (Hsum : forall g (ngt : option nat * list (string * column)),
              scaled f dir vals h r0 S0 st g ngt.1 ->
              exists v info nbs b c,
                Label h g = Ok v /\ vals !! v = Some info
                /\ bandsC st !! rb = Some nbs /\ nbs !! index info = Some (Some b)
                /\ scalesC st !! (Some b, S0) = Some c
                /\ GetScale (pscales st) (fnodes st) "x" ngt.1 = c
                /\ match Label (fnodes st) ngt.1 with
                   | Ok (VSubplot a) =>
                       match fsubplots st !! a with
                       | Some ns => facetedBand dir ns
                       | None => None
                       end
                   | _ => None
                   end = Some b
                /\ xclone v = c).
    { intros g ngt (v & info & a & ns & nbs & b & Hl & Hv & _ & Hlab & Hns & Hnbs & Hb & Hfb & Hx).
      rewrite Hflag in Hx. destruct Hx as (c & Hc & Hpc).
      exists v, info, nbs, b, c. split_and!; try done.
      - by apply GetScale_set.
      - by rewrite Hlab, Hns.
      - unfold xclone. fold rb in Hnbs. by rewrite Hv, Hnbs, Hb, Hc. }
    assert (Hgroup : forall v, is_Some (vals !! v) ->
              exists g ngt, ngt ∈ ndata st /\ Label h g = Ok v
                            /\ scaled f dir vals h r0 S0 st g ngt.1).
    { intros v (g & Hgin & Hl)%Hlabels.
      apply list_elem_of_lookup in Hgin as [i Hi].
      destruct (Forall2_lookup_l _ _ _ _ _ Hdata Hi) as (ngt & Hngt & Hsc).
      exists g, ngt. split_and!; [by eapply list_elem_of_lookup_2|done|done]. }
    assert (Hdatum : forall ngt, ngt ∈ ndata st ->
              exists g, scaled f dir vals h r0 S0 st g ngt.1).
    { intros ngt [i Hi]%list_elem_of_lookup.
      destruct (Forall2_lookup_r _ _ _ _ _ Hdata Hi) as (g & _ & Hsc). eauto. }
    destruct Hscales as (_ & Hent & Hcinj).
    exists (xclone <$> (map_to_list vals).*1). split_and!.
    + by rewrite !length_fmap, length_map_to_list.
    + apply NoDup_fmap_2_strong; [|apply NoDup_fst_map_to_list].
      intros x y Hx Hy Heq.
      apply list_elem_of_fmap in Hx as [[x' ix] [-> Hx%elem_of_map_to_list]].
      apply list_elem_of_fmap in Hy as [[y' iy] [-> Hy%elem_of_map_to_list]].
      simpl in *.
      destruct (Hgroup x') as (gx & ngx & _ & Hlx & Hscx); [eauto|].
      destruct (Hgroup y') as (gy & ngy & _ & Hly & Hscy); [eauto|].
      destruct (Hsum _ _ Hscx) as (vx & infox & nbsx & bx & cx & Hlx' & Hvx & Hnx & Hbx & Hcx & _ & _ & Hxc).
      destruct (Hsum _ _ Hscy) as (vy & infoy & nbsy & bby & cy & Hly' & Hvy & Hny & Hby & Hcy & _ & _ & Hyc).
      assert (vx = x') as -> by congruence. assert (vy = y') as -> by congruence.
      assert (cx = cy) as -> by congruence.
      assert (Hk : (Some bx, S0) = (Some bby, S0)) by by eapply Hcinj.
      injection Hk as ->.
      assert (nbsx = nbsy) as -> by congruence.
      eapply Hinj; [done|done|].
      by eapply (proj2 (Hbands _ _ Hnx)).
    + apply Forall_fmap, Forall_forall.
      intros v [[v' iv] [-> Hv%elem_of_map_to_list]]%list_elem_of_fmap. simpl in *.
      destruct (Hgroup v') as (g & ngt & _ & Hl & Hsc); [eauto|].
      destruct (Hsum _ _ Hsc) as (v1 & info & nbs & b & c & Hl' & Hv1 & _ & _ & Hc & _ & _ & Hxc).
      assert (v1 = v') as -> by congruence. rewrite Hxc.
      destruct (Hent _ _ Hc) as [Hb Hcl]. split; [lia|done].
    + intros c. split.
      * intros [v [-> Hv]]%list_elem_of_fmap.
        apply list_elem_of_fmap in Hv as [[v' iv] [-> Hv%elem_of_map_to_list]].
        simpl in *.
        destruct (Hgroup v') as (g & ngt & Hin & Hl & Hsc); [eauto|].
        destruct (Hsum _ _ Hsc) as (v1 & info & nbs & b & c & Hl' & _ & _ & _ & _ & Hgs & _ & Hxc).
        assert (v1 = v') as -> by congruence.
        exists ngt. split; [done|]. by rewrite Hxc.
      * intros (ngt & Hin & <-).
        destruct (Hdatum _ Hin) as [g Hsc].
        destruct (Hsum _ _ Hsc) as (v & info & nbs & b & c & _ & Hv & _ & _ & _ & Hgs & _ & Hxc).
        rewrite Hgs, <- Hxc. apply list_elem_of_fmap. exists v. split; [done|].
        apply list_elem_of_fmap. exists (v, info). split; [done|].
        by apply elem_of_map_to_list.
    + intros ngt1 ngt2 Hin1 Hin2.
      destruct (Hdatum _ Hin1) as [g1 Hsc1]. destruct (Hdatum _ Hin2) as [g2 Hsc2].
      destruct (Hsum _ _ Hsc1) as (v1 & i1 & nbs1 & b1 & c1 & _ & _ & _ & _ & Hc1 & Hgs1 & Hnb1 & _).
      destruct (Hsum _ _ Hsc2) as (v2 & i2 & nbs2 & b2 & c2 & _ & _ & _ & _ & Hc2 & Hgs2 & Hnb2 & _).
      rewrite Hgs1, Hgs2, Hnb1, Hnb2. split.
      * intros [= ->]. congruence.
      * intros ->. assert (Hk : (Some b1, S0) = (Some b2, S0)) by by eapply Hcinj.
        by injection Hk as ->.
Qed.

Definition threeT : list (string * column) :=
  [("k"%string, Seq [VInt 3; VInt 1; VInt 2; VInt 1]);
   ("y"%string, Seq [VInt 10; VInt 20; VInt 30; VInt 40])].

Definition threePlot : Plot := {| data := ofTable threeT; scaleAt := ∅ |}.

Lemma threeT_wf : table_wf threeT.
Proof.
  apply table_wf_intro; [|by repeat constructor].
  by apply (bool_decide_unpack _).
Qed.

Lemma apply_splits_scales_witness :
  exists p' m' grouped h vals,
    apply (facetBy "k" true false) threePlot "x" mem0 = Ok (p', m')
    /\ GroupBy (data threePlot) [Col (facetBy "k" true false)] (gnodes mem0)
       = Ok (grouped, h)
    /\ facetVals h (default (Sprint (subplotsM mem0))
                      (Labeler (facetBy "k" true false))) (Tables grouped) = Ok vals
    /\ size vals = 3
    /\ (SplitXScales (facetBy "k" true false) = false ->
          Forall (fun ngt => xScaleOf p' m' ngt.1 = defaultScale) (data p'))
    /\ (SplitXScales (facetBy "k" true false) = true ->
        exists clones,
          length clones = 3 /\ NoDup clones
          /\ Forall (fun c => length (scalersM mem0) <= c
                              /\ scalersM m' !! c
                                 = Some {| cloneOf := Some defaultScale |}) clones
          /\ (forall c, c ∈ clones <->
                        exists ngt, ngt ∈ data p' /\ xScaleOf p' m' ngt.1 = c)
          /\ (forall ngt1 ngt2, ngt1 ∈ data p' -> ngt2 ∈ data p' ->
                (newBandOf "x" m' ngt1.1 = newBandOf "x" m' ngt2.1
                 <-> xScaleOf p' m' ngt1.1 = xScaleOf p' m' ngt2.1))).
Proof.
  do 5 eexists.
  split; [vm_compute; reflexivity|].
  split; [vm_compute; reflexivity|].
  split; [vm_compute; reflexivity|].
  split; [by vm_compute|].
  eapply (apply_splits_scales (facetBy "k" true false) threePlot "x" mem0).
  - apply heap_wf_nil.
  - apply ofTable_wf, threeT_wf.
  - intros aes g c Hc. simpl in Hc. by rewrite lookup_empty in Hc.
  - reflexivity.
  - vm_compute; reflexivity.
  - vm_compute; reflexivity.
  - vm_compute; reflexivity.
  - by vm_compute.
  - intros g Hg. vm_compute in Hg.
    repeat (apply elem_of_cons in Hg as [->|Hg]); try by vm_compute.
    by apply elem_of_nil in Hg.
Defined.

(** * The GroupID tree, continued (table/group.go) *)

(** ** GroupID.String *)

(** [strings.Join(parts, sep)]. *)
Definition Join (parts : list string) (sep : string) : string :=
  String.concat sep parts.

(** [parts[i], parts[j] = parts[j], parts[i]]: both elements are read, then
    both are written; an index outside the slice panics. *)
Definition swapParts (parts : list string) (i j : Z) : result (list string) :=
  if ((0 <=? i) && (0 <=? j))%Z then
    match parts !! Z.to_nat i, parts !! Z.to_nat j with
    | Some x, Some y => Ok (<[Z.to_nat j := x]> (<[Z.to_nat i := y]> parts))
    | _, _ => Panic IndexOutOfRange
    end
  else Panic IndexOutOfRange.

(** [for i, j := 0, len(parts)-1; i < j; i, j = i+1, j-1 { swap }]; the
    indices stay within [-1, len(parts)], so the Go [int] never wraps.
    [fuel] bounds the number of iterations. *)
Fixpoint reverseLoop (fuel : nat) (i j : Z) (parts : list string)
    : result (list string) :=
  match fuel with
  | 0 => Ok parts
  | S k =>
      if (i <? j)%Z then
        let* parts' := swapParts parts i j in
        reverseLoop k (i + 1) (j - 1) parts'
      else Ok parts
  end.

Section GroupIDString.

(** [fmt.Sprintf("%v", label)]. *)
Variable fmtV : value -> string.

(** [for p := g; p != RootGroupID; p = p.parent { parts = append(parts,
    fmt.Sprintf("/%v", p.label)) }]; [fuel] bounds the walk up. *)
Fixpoint partsFrom (fuel : nat) (h : heap) (p : GroupID) (parts : list string)
    : list string :=
  match fuel, p with
  | S k, Some a =>
      match h !! a with
      | Some n => partsFrom k h (parent n) (parts ++ ["/" +:+ fmtV (label n)])
      | None => parts
      end
  | _, _ => parts
  end.

(** [g.String()]. *)
Definition GroupID_String (h : heap) (g : GroupID) : result string :=
  match g with
  | None => Ok "/"%string
  | Some _ =>
      let parts := partsFrom (length h) h g [] in
      let* parts := reverseLoop (length parts) 0 (Z.of_nat (length parts) - 1) parts in
      Ok (Join parts "")
  end.

End GroupIDString.

(** The group reached from [g] by [n] steps to the parent. *)
Definition ancestor (h : heap) (n : nat) (g : GroupID) : GroupID :=
  Nat.iter n (Parent h) g.

Section StringLemmas.

Lemma append_nil_r (s : string) : (s +:+ "")%string = s.
Proof.
  induction s as [|a s IH]; [done|].
  change (String a (s +:+ "") = String a s). by rewrite IH.
Qed.

Lemma append_assoc (s1 s2 s3 : string) :
  (s1 +:+ (s2 +:+ s3))%string = ((s1 +:+ s2) +:+ s3)%string.
Proof.
  induction s1 as [|a s1 IH]; [done|].
  change (String a (s1 +:+ (s2 +:+ s3)) = String a ((s1 +:+ s2) +:+ s3)).
  by rewrite IH.
Qed.

Lemma Join_cons (x : string) (l : list string) :
  Join (x :: l) "" = (x +:+ Join l "")%string.
Proof.
  unfold Join. destruct l as [|y l]; simpl; [by rewrite append_nil_r|done].
Qed.

Lemma Join_app (l1 l2 : list string) :
  Join (l1 ++ l2) "" = (Join l1 "" +:+ Join l2 "")%string.
Proof.
  induction l1 as [|x l1 IH]; [done|].
  rewrite <- app_comm_cons, !Join_cons, IH. apply append_assoc.
Qed.

(** The swap loop reverses the part of the slice between its indices. *)
Lemma reverseLoop_middle (fuel : nat) (pre mid post : list string) :
  length mid <= fuel ->
  reverseLoop fuel (Z.of_nat (length pre))
    (Z.of_nat (length pre) + Z.of_nat (length mid) - 1) (pre ++ mid ++ post)
  = Ok (pre ++ reverse mid ++ post).
Proof.
  revert pre mid post. induction fuel as [|k IH]; intros pre mid post Hlen.
  - destruct mid; [done|simpl in Hlen; lia].
  - cbn [reverseLoop]. destruct mid as [|x mid].
    { rewrite (proj2 (Z.ltb_ge _ _)) by (simpl; lia). done. }
    destruct (decide (mid = [])) as [->|Hne].
    { rewrite (proj2 (Z.ltb_ge _ _)) by (simpl; lia). done. }
    destruct (exists_last Hne) as [mid' [y ->]].
    assert (Hm : length (x :: mid' ++ [y]) = S (S (length mid'))).
    { simpl. rewrite length_app. simpl. lia. }
    rewrite Hm in *.
    rewrite (proj2 (Z.ltb_lt _ _)) by lia.
    unfold swapParts.
    rewrite (proj2 (Z.leb_le 0 _)) by lia.
    rewrite (proj2 (Z.leb_le 0 _)) by lia.
    cbn [andb].
    rewrite Nat2Z.id.
    replace (Z.to_nat (Z.of_nat (length pre) + Z.of_nat (S (S (length mid'))) - 1))
      with (length pre + S (length mid')) by lia.
    cbn [app].
    rewrite list_lookup_middle by done.
    assert (Hy : (pre ++ x :: (mid' ++ [y]) ++ post) !! (length pre + S (length mid'))
                 = Some y).
    { rewrite lookup_app_r by lia.
      replace (length pre + S (length mid') - length pre) with (S (length mid')) by lia.
      simpl. rewrite <- app_assoc. cbn [app]. by rewrite list_lookup_middle. }
    rewrite Hy. cbv beta iota delta [bind].
    assert (Hsw : <[length pre + S (length mid') := x]>
                    (<[length pre := y]> (pre ++ x :: (mid' ++ [y]) ++ post))
                  = (pre ++ [y]) ++ mid' ++ (x :: post)).
    { rewrite (insert_app_r_alt pre _ (length pre)) by lia.
      rewrite Nat.sub_diag. simpl.
      rewrite insert_app_r_alt by lia.
      replace (length pre + S (length mid') - length pre) with (S (length mid')) by lia.
      simpl. rewrite <- !app_assoc. f_equal. simpl. f_equal.
      rewrite insert_app_r_alt by lia. by rewrite Nat.sub_diag. }
    rewrite Hsw.
    replace (Z.of_nat (length pre) + 1)%Z with (Z.of_nat (length (pre ++ [y])))
      by (rewrite length_app; simpl; lia).
    replace (Z.of_nat (length pre) + Z.of_nat (S (S (length mid'))) - 1 - 1)%Z
      with (Z.of_nat (length (pre ++ [y])) + Z.of_nat (length mid') - 1)%Z.
    2:{ rewrite length_app; simpl; lia. }
    rewrite IH by lia.
    rewrite reverse_cons, reverse_app. simpl. by rewrite <- !app_assoc.
Qed.

Lemma reverseLoop_reverse (parts : list string) :
  reverseLoop (length parts) 0 (Z.of_nat (length parts) - 1) parts
  = Ok (reverse parts).
Proof.
  pose proof (reverseLoop_middle (length parts) [] parts [] (le_n _)) as H.
  simpl in H. by rewrite !app_nil_r in H.
Qed.

End StringLemmas.

Section GroupTree.

Variable fmtV : value -> string.

Lemma partsFrom_pathFrom (fuel : nat) (h : list groupNode) (g : option nat)
    (parts : list string) :
  partsFrom fmtV fuel h g parts
  = parts ++ reverse ((fun l => "/" +:+ fmtV l)%string <$> pathFrom fuel h g).
Proof.
  revert g parts. induction fuel as [|k IH]; intros g parts; simpl.
  - by rewrite app_nil_r.
  - destruct g as [a|]; [|by rewrite app_nil_r].
    destruct (h !! a) as [n|]; [|by rewrite app_nil_r].
    rewrite IH, fmap_app, reverse_app. simpl. by rewrite <- app_assoc.
Qed.

Lemma pathFrom_stable (h1 h2 : list groupNode) (a fuel1 fuel2 : nat) :
  heap_wf h1 -> h1 `prefix_of` h2 -> a < length h1 -> a < fuel1 -> a < fuel2 ->
  pathFrom fuel1 h1 (Some a) = pathFrom fuel2 h2 (Some a).
Proof.
  intros Hwf Hpre. revert fuel1 fuel2.
  induction a as [a IH] using lt_wf_ind. intros fuel1 fuel2 Ha H1 H2.
  destruct fuel1 as [|k1]; [lia|]. destruct fuel2 as [|k2]; [lia|]. simpl.
  destruct (lookup_lt_is_Some_2 h1 a Ha) as [n Hn].
  rewrite Hn, (prefix_lookup_Some _ _ _ _ Hn Hpre). f_equal.
  pose proof (Hwf a n Hn) as Hp. destruct (parent n) as [b|].
  - apply IH; lia.
  - by destruct k1, k2.
Qed.

Lemma path_prefix (h1 h2 : list groupNode) (g : option nat) :
  heap_wf h1 -> h1 `prefix_of` h2 -> allocated h1 g -> path h2 g = path h1 g.
Proof.
  intros Hwf Hpre Hal. unfold path. destruct g as [a|].
  - simpl in Hal. symmetry. apply pathFrom_stable; try done.
    apply prefix_length in Hpre. lia.
  - by destruct (length h1), (length h2).
Qed.

(** The path of a node is the path of its parent and its own label. *)
Lemma path_node (h : list groupNode) (a : nat) (n : groupNode) :
  heap_wf h -> h !! a = Some n -> path h (Some a) = path h (parent n) ++ [label n].
Proof.
  intros Hwf Hn. pose proof (lookup_lt_Some _ _ _ Hn) as Ha.
  unfold path.
  rewrite <- (pathFrom_stable h h a (S a) (length h)) by (done || lia).
  simpl. rewrite Hn. f_equal.
  pose proof (Hwf a n Hn) as Hp. destruct (parent n) as [b|].
  - apply pathFrom_stable; try done; lia.
  - by destruct a, (length h).
Qed.

Lemma heap_wf_snoc (h : list groupNode) (g : option nat) (l : value) :
  heap_wf h -> allocated h g -> heap_wf (h ++ [{| parent := g; label := l |}]).
Proof.
  intros Hwf Hal a n Hn. apply lookup_app_Some in Hn as [Hn|[Hge Hn]].
  - by apply Hwf.
  - apply list_lookup_singleton_Some in Hn as [Ha <-]. simpl.
    destruct g as [b|]; [|done]. simpl in Hal. lia.
Qed.

Lemma path_snoc (h : list groupNode) (g : option nat) (l : value) :
  heap_wf h -> allocated h g ->
  path (h ++ [{| parent := g; label := l |}]) (Some (length h)) = path h g ++ [l].
Proof.
  intros Hwf Hal.
  rewrite (path_node _ (length h) {| parent := g; label := l |}).
  - simpl. f_equal. apply path_prefix; [done| |done]. by apply prefix_app_r.
  - by apply heap_wf_snoc.
  - by rewrite list_lookup_middle.
Qed.

Lemma String_path (h : list groupNode) (a : nat) :
  GroupID_String fmtV h (Some a)
  = Ok (Join ((fun l => "/" +:+ fmtV l)%string <$> path h (Some a)) "").
Proof.
  unfold GroupID_String. cbv zeta. rewrite reverseLoop_reverse.
  cbv beta iota delta [bind]. rewrite partsFrom_pathFrom. simpl.
  by rewrite reverse_involutive.
Qed.

End GroupTree.

(** X1: [g.String()] never panics and lists the labels on the way from the
    root down to [g], each formatted with "%v" and preceded by "/": the
    parts are collected from [g] upwards and the swap loop puts them in
    root-first order.  The root itself prints as "/". *)
Theorem GroupID_String_root_first (fmtV : value -> string) (h : list groupNode)
    (g : option nat) :
  GroupID_String fmtV h g
  = Ok (match g with
        | None => "/"%string
        | Some _ => Join ((fun l => "/" +:+ fmtV l)%string <$> path h g) ""
        end).
Proof.
  destruct g as [a|]; [|done].
  unfold GroupID_String. cbv zeta. rewrite reverseLoop_reverse.
  cbv beta iota delta [bind]. rewrite partsFrom_pathFrom. simpl.
  by rewrite reverse_involutive.
Qed.

(** X2: the string of a new child of [g] with label [l] is the string of
    [g] followed by "/l"; directly under the root it is "/l" alone, the
    root's own "/" is not repeated. *)
Theorem GroupID_String_Extend (fmtV : value -> string) (h : list groupNode)
    (g : option nat) (l : value) (s : string) :
  heap_wf h -> allocated h g ->
  GroupID_String fmtV h g = Ok s ->
  GroupID_String fmtV (Extend g l h).2 (Extend g l h).1
  = Ok ((match g with None => "" | Some _ => s end) +:+ "/" +:+ fmtV l)%string.
Proof.
  intros Hwf Hal Hs. unfold Extend. cbn [fst snd].
  rewrite String_path, path_snoc by done.
  rewrite fmap_app, Join_app.
  change (Join ((fun l0 => "/" +:+ fmtV l0)%string <$> [l]) "")
    with ("/" +:+ fmtV l)%string.
  do 2 f_equal.
  destruct g as [a|].
  - rewrite String_path in Hs. by injection Hs as <-.
  - unfold path. by destruct (length h).
Qed.

Lemma GroupID_String_Extend_witness :
  GroupID_String (Sprint []) (Extend (Some 0) (VInt 7) [{| parent := None; label := VString "a" |}]).2
    (Extend (Some 0) (VInt 7) [{| parent := None; label := VString "a" |}]).1
  = Ok "/a/7"%string.
Proof.
  apply (GroupID_String_Extend (Sprint []) [{| parent := None; label := VString "a" |}]
           (Some 0) (VInt 7) "/a").
  - intros a n Hn. destruct a as [|a]; [|done]. by injection Hn as <-.
  - simpl. lia.
  - reflexivity.
Defined.

(** ** Extend and Parent *)

(** X3: [g.Extend(label)] returns a GroupID that no existing GroupID
    equals, also when [g] already has a child with that label (a second
    call with the same arguments returns yet another GroupID); its parent is
    [g] and its label is [label]; the parent and the label of every
    existing GroupID are as before. *)
Theorem Extend_fresh (h : list groupNode) (g : option nat) (l : value) :
  let g1 := (Extend g l h).1 in
  let h1 := (Extend g l h).2 in
  let g2 := (Extend g l h1).1 in
  let h2 := (Extend g l h1).2 in
  (forall g0, allocated h g0 -> g0 <> g1)
  /\ g2 <> g1
  /\ Parent h1 g1 = g /\ Label h1 g1 = Ok l
  /\ Parent h2 g2 = g /\ Label h2 g2 = Ok l
  /\ Parent h2 g1 = g /\ Label h2 g1 = Ok l
  /\ (forall g0, allocated h g0 ->
        Parent h1 g0 = Parent h g0 /\ Label h1 g0 = Label h g0).
Proof.
  cbv zeta. unfold Extend. cbn [fst snd]. split_and!.
  - intros [a|] Hal [= Ha]. simpl in Hal. lia.
  - rewrite length_app. simpl. intros [= Ha]. lia.
  - simpl. by rewrite list_lookup_middle.
  - simpl. by rewrite list_lookup_middle.
  - simpl. by rewrite list_lookup_middle.
  - simpl. by rewrite list_lookup_middle.
  - simpl. rewrite lookup_app_l by (rewrite length_app; simpl; lia).
    by rewrite list_lookup_middle.
  - simpl. rewrite lookup_app_l by (rewrite length_app; simpl; lia).
    by rewrite list_lookup_middle.
  - intros [a|] Hal; [|done]. simpl in *. by rewrite lookup_app_l.
Qed.

Section ParentTree.

Lemma ancestor_S (h : list groupNode) (n : nat) (g : option nat) :
  ancestor h (S n) g = ancestor h n (Parent h g).
Proof. unfold ancestor. by rewrite Nat.iter_succ_r. Qed.

Lemma ancestor_root (h : list groupNode) (n : nat) : ancestor h n None = None.
Proof. induction n as [|n IH]; [done|]. by rewrite ancestor_S. Qed.

Lemma depth_bound (h : list groupNode) (a : nat) :
  heap_wf h -> a < length h ->
  length (path h (Some a)) <= S a
  /\ ancestor h (length (path h (Some a))) (Some a) = None
  /\ forall k, k < length (path h (Some a)) -> ancestor h k (Some a) <> None.
Proof.
  intros Hwf. induction a as [a IH] using lt_wf_ind. intros Ha.
  destruct (lookup_lt_is_Some_2 h a Ha) as [n Hn].
  rewrite (path_node h a n Hwf Hn), length_app. simpl.
  pose proof (Hwf a n Hn) as Hp.
  assert (HP : Parent h (Some a) = parent n) by (simpl; by rewrite Hn).
  replace (length (path h (parent n)) + 1) with (S (length (path h (parent n)))) by lia.
  destruct (parent n) as [b|] eqn:Hb.
  - destruct (IH b Hp ltac:(lia)) as (Hle & Hroot & Hnot). split_and!.
    + lia.
    + by rewrite ancestor_S, HP.
    + intros [|k] Hk; [done|]. rewrite ancestor_S, HP. apply Hnot. lia.
  - assert (Hnil : path h None = []) by (unfold path; by destruct (length h)).
    rewrite Hnil. cbn [length]. split_and!.
    + lia.
    + by rewrite ancestor_S, HP.
    + intros k Hk. assert (k = 0) as -> by lia. done.
Qed.

End ParentTree.

(** X4: the GroupIDs form a tree rooted at RootGroupID: the parent of the
    root is the root, and from any GroupID a number of steps to the parent
    equal to the length of its path, at most the number of nodes allocated,
    reaches the root and no fewer steps do. *)
Theorem Parent_reaches_root (h : list groupNode) (g : option nat) :
  heap_wf h -> allocated h g ->
  Parent h RootGroupID = RootGroupID
  /\ length (path h g) <= length h
  /\ ancestor h (length (path h g)) g = RootGroupID
  /\ forall k, k < length (path h g) -> ancestor h k g <> RootGroupID.
Proof.
  intros Hwf Hal. split; [done|]. destruct g as [a|].
  - simpl in Hal. destruct (depth_bound h a Hwf Hal) as (Hle & Hroot & Hnot).
    split_and!; [lia|done|done].
  - assert (Hnil : path h None = []) by (unfold path; by destruct (length h)).
    rewrite Hnil. simpl. split_and!; [lia|done|]. intros k Hk. lia.
Qed.

Lemma Parent_reaches_root_witness :
  let h := [{| parent := None; label := VString "a" |};
            {| parent := Some 0; label := VInt 1 |}] in
  Parent h RootGroupID = RootGroupID
  /\ length (path h (Some 1)) <= length h
  /\ ancestor h (length (path h (Some 1))) (Some 1) = RootGroupID
  /\ forall k, k < length (path h (Some 1)) -> ancestor h k (Some 1) <> RootGroupID.
Proof.
  cbv zeta. apply Parent_reaches_root.
  - intros [|[|a]] n Hn; simpl in Hn; try done; injection Hn as <-; simpl; [done|lia].
  - simpl. lia.
Defined.

(** ** subplotOf *)

(** X5: the subplot of a new child of [g] is the subplot its label points
    to when the label is a subplot, and the subplot of [g] otherwise; the
    root group belongs to the root subplot, and the subplots of the
    existing groups are as before. *)
Theorem subplotOf_Extend (h : list groupNode) (g : option nat) (l : value) :
  heap_wf h -> allocated h g ->
  subplotOf h RootGroupID = rootSubplot
  /\ subplotOf (Extend g l h).2 (Extend g l h).1
     = match l with VSubplot s => s | _ => subplotOf h g end
  /\ forall g0, allocated h g0 -> subplotOf (Extend g l h).2 g0 = subplotOf h g0.
Proof.
  intros Hwf Hal. split; [done|]. unfold Extend. cbn [fst snd].
  assert (Hpre : h `prefix_of` h ++ [{| parent := g; label := l |}])
    by by apply prefix_app_r.
  split.
  - unfold subplotOf at 1. cbn [subplotOfFrom]. rewrite list_lookup_middle by done.
    cbn [label parent].
    assert (Hg : subplotOfFrom (length (h ++ [{| parent := g; label := l |}])) 
                   (h ++ [{| parent := g; label := l |}]) g = subplotOf h g).
    { destruct g as [a|].
      - simpl in Hal. symmetry. unfold subplotOf.
        apply subplotOfFrom_stable; try done; try lia.
        rewrite length_app. simpl. lia.
      - unfold subplotOf. simpl. by destruct (length _). }
    by destruct l.
  - intros g0 Hg0. by apply subplotOf_stable.
Qed.

Lemma subplotOf_Extend_witness :
  let h := [{| parent := None; label := VSubplot 3 |}] in
  subplotOf h RootGroupID = rootSubplot
  /\ subplotOf (Extend (Some 0) (VString "a") h).2 (Extend (Some 0) (VString "a") h).1
     = subplotOf h (Some 0)
  /\ forall g0, allocated h g0 ->
       subplotOf (Extend (Some 0) (VString "a") h).2 g0 = subplotOf h g0.
Proof.
  cbv zeta.
  apply (subplotOf_Extend [{| parent := None; label := VSubplot 3 |}] (Some 0) (VString "a")).
  - intros [|a] n Hn; simpl in Hn; try done. by injection Hn as <-.
  - simpl. lia.
Defined.

(** * GroupBy, continued *)

Section GroupByLevels.

Lemma elem_of_concat {A} (x : A) (ls : list (list A)) :
  x ∈ concat ls <-> exists l, l ∈ ls /\ x ∈ l.
Proof.
  rewrite list_elem_of_In, in_concat. split.
  - intros [l [Hl Hx]]. exists l. by rewrite !list_elem_of_In.
  - intros [l [Hl Hx]]. exists l. by rewrite <- !list_elem_of_In.
Qed.

Lemma lookupCol_selectRows (col0 : string) (v : value) (rows : list nat)
    (t : list (string * column)) (name : string) :
  lookupCol (selectRows col0 v rows t) name
  = (fun c => (selectColumn col0 v rows (name, c)).2) <$> lookupCol t name.
Proof.
  induction t as [|[n c] t IH]; [done|].
  unfold selectRows. rewrite fmap_cons. fold (selectRows col0 v rows t).
  assert (Hn : (selectColumn col0 v rows (n, c)).1 = n).
  { unfold selectColumn. simpl. destruct (n =? col0)%string; [done|]. by destruct c. }
  destruct (selectColumn col0 v rows (n, c)) as [n' c'] eqn:Hsel. simpl in Hn. subst n'.
  simpl. destruct (String.eqb_spec n name) as [->|Hne]; [|exact IH].
  simpl. by rewrite Hsel.
Qed.

(** A child table has the column grouped by as the constant it is labelled
    with, the column names of its parent in their order, and the constants
    of its parent. *)
Lemma splitTable_child (col0 : string) (t : list (string * column)) vts v ct :
  splitTable col0 t = Some vts -> (v, ct) ∈ vts ->
  Const ct col0 = Some v /\ Columns ct = Columns t
  /\ forall name cv, Const t name = Some cv -> Const ct name = Some cv.
Proof.
  unfold splitTable. destruct (lookupCol t col0) as [[cs|cv0]|] eqn:Hl; intros [= <-]; [|].
  - intros [v' [[= -> ->] _]]%list_elem_of_fmap. split_and!.
    + unfold Const. rewrite lookupCol_selectRows, Hl. simpl.
      unfold selectColumn. simpl. by rewrite String.eqb_refl.
    + apply Columns_selectRows.
    + intros name cv. unfold Const. rewrite lookupCol_selectRows.
      destruct (lookupCol t name) as [[s|cv1]|] eqn:Hn; try done.
      intros [= ->]. simpl. unfold selectColumn. simpl.
      destruct (String.eqb_spec name col0) as [->|Hne]; [congruence|done].
  - intros [= -> ->]%list_elem_of_singleton. split_and!; [|done|done].
    unfold Const. by rewrite Hl.
Qed.

(** Every group of one level's output is a fresh child of an input group. *)
Lemma regroup_child (col0 : string) (g : list (option nat * list (string * column)))
    (h : list groupNode) out h' cg ct :
  regroup col0 g h = Ok (out, h') -> (cg, ct) ∈ out ->
  exists gt v a, gt ∈ g /\ cg = Some a /\ length h <= a
    /\ h' !! a = Some (childNode gt.1 v)
    /\ Const ct col0 = Some v /\ Columns ct = Columns gt.2
    /\ forall name cv, Const gt.2 name = Some cv -> Const ct name = Some cv.
Proof.
  intros Hre Hin.
  destruct (regroup_blocks _ _ _ _ _ Hre) as [[blocks [-> Hbl]] [Hids _]].
  assert (Hfresh : cg ∈ Tables (concat blocks)).
  { apply list_elem_of_fmap. by exists (cg, ct). }
  rewrite Hids in Hfresh.
  apply list_elem_of_fmap in Hfresh as [a0 [-> [Hge _]%elem_of_seq]].
  apply elem_of_concat in Hin as [blk [Hblk Hin]].
  apply list_elem_of_lookup in Hblk as [i Hi].
  destruct (Forall2_lookup_r _ _ _ _ _ Hbl Hi) as [gt [Hgt [vts [Hsp Hf]]]].
  apply list_elem_of_lookup in Hin as [k Hk].
  destruct (Forall2_lookup_l _ _ _ _ _ Hf Hk) as [[v t'] [Hvt [Ht [a [Ha Hn]]]]].
  simpl in *. subst t'. injection Ha as <-.
  apply list_elem_of_lookup_2 in Hvt, Hgt.
  destruct (splitTable_child _ _ _ _ _ Hsp Hvt) as (Hc & Hcols & Hkeep).
  exists gt, v, a0. split_and!; done.
Qed.

Lemma regroup_prefix (col0 : string) (g : list (option nat * list (string * column)))
    (h : list groupNode) out h' :
  regroup col0 g h = Ok (out, h') -> h `prefix_of` h'.
Proof. intros Hre. by destruct (regroup_blocks _ _ _ _ _ Hre) as (_ & _ & _ & ?). Qed.

Lemma path_root (h : list groupNode) : path h None = [].
Proof. unfold path. by destruct (length h). Qed.

(** What [GroupBy] by the columns [cols] makes of a grouping. *)
Lemma GroupBy_levels (cols : list string) (g : list (option nat * list (string * column)))
    (h : list groupNode) out h' :
  heap_wf h -> grouping_wf h g -> GroupBy g cols h = Ok (out, h') ->
  heap_wf h' /\ h `prefix_of` h'
  /\ forall cg ct, (cg, ct) ∈ out ->
       exists gt vs, gt ∈ g
         /\ ancestor h' (length cols) cg = gt.1
         /\ path h' cg = path h gt.1 ++ vs
         /\ Forall2 (fun c v => Const ct c = Some v) cols vs
         /\ Columns ct = Columns gt.2
         /\ forall name cv, Const gt.2 name = Some cv -> Const ct name = Some cv.
Proof.
  revert g h. induction cols as [|c cols IH]; intros g h Hwf Hg.
  - intros [= <- <-]. split_and!; [done|done|]. intros cg ct Hin.
    exists (cg, ct), []. rewrite app_nil_r. split_and!; done.
  - rewrite GroupBy_cons by (destruct Hg as (? & ? & ?); done).
    destruct (regroup c g h) as [[mid hm]|] eqn:Hre; [|done].
    cbv beta iota delta [bind]. intros Hgb.
    assert (Hwfm : heap_wf hm).
    { eapply regroup_heap_wf; [done| |done]. by destruct Hg as (_ & ? & _). }
    pose proof (regroup_wf _ _ _ _ _ Hg Hre) as Hgm.
    pose proof (regroup_prefix _ _ _ _ _ Hre) as Hpre.
    destruct (IH mid hm Hwfm Hgm Hgb) as (Hwf' & Hpre' & Hall).
    split_and!; [done|by etrans|].
    intros cg ct Hin.
    destruct (Hall cg ct Hin) as (gm & vs & Hgmin & Hanc & Hpath & Hcs & Hcols & Hkeep).
    destruct gm as [gm tm].
    destruct (regroup_child _ _ _ _ _ _ _ Hre Hgmin)
      as (gt & v & a & Hgt & -> & Hge & Hn & Hc & Hcols' & Hkeep').
    simpl in *. exists gt, (v :: vs). split_and!.
    + done.
    + unfold ancestor in *. simpl. rewrite Hanc. simpl.
      by rewrite (prefix_lookup_Some _ _ _ _ Hn Hpre').
    + rewrite Hpath, (path_node hm a _ Hwfm Hn). simpl.
      rewrite <- app_assoc. f_equal.
      destruct Hg as (_ & Hal & _).
      apply path_prefix; [done|done|].
      apply (proj1 (Forall_forall _ _) Hal). apply list_elem_of_fmap. by exists gt.
    + constructor; [by apply Hkeep|done].
    + congruence.
    + intros name cv Hcv. by apply Hkeep, Hkeep'.
Qed.

End GroupByLevels.

(** X6: [GroupBy(g, cols...)] puts every output group exactly [len(cols)]
    levels below a group of [g]: the labels on the way down are values of
    the named columns, in the order named, and in the group's table each
    named column is a constant with that value.  The table has the column
    names of the input group's table, in their order, and the constants of
    that table are still constants. *)
Theorem GroupBy_path_values (cols : list string)
    (g : list (option nat * list (string * column))) (h : list groupNode) out h'
    cg ct :
  heap_wf h -> grouping_wf h g -> GroupBy g cols h = Ok (out, h') ->
  (cg, ct) ∈ out ->
  exists gt vs, gt ∈ g
    /\ ancestor h' (length cols) cg = gt.1
    /\ path h' cg = path h gt.1 ++ vs
    /\ Forall2 (fun c v => Const ct c = Some v) cols vs
    /\ Columns ct = Columns gt.2
    /\ forall name cv, Const gt.2 name = Some cv -> Const ct name = Some cv.
Proof.
  intros Hwf Hg Hgb Hin.
  destruct (GroupBy_levels _ _ _ _ _ Hwf Hg Hgb) as (_ & _ & Hall). by apply Hall.
Qed.

Lemma GroupBy_path_values_witness :
  exists out h',
    GroupBy (ofTable twoKeysT) ["a"%string; "b"%string] [] = Ok (out, h')
    /\ forall cg ct, (cg, ct) ∈ out ->
         exists gt vs, gt ∈ ofTable twoKeysT
           /\ ancestor h' 2 cg = gt.1
           /\ path h' cg = path [] gt.1 ++ vs
           /\ Forall2 (fun c v => Const ct c = Some v) ["a"%string; "b"%string] vs
           /\ Columns ct = Columns gt.2
           /\ forall name cv, Const gt.2 name = Some cv -> Const ct name = Some cv.
Proof.
  do 2 eexists. split; [vm_compute; reflexivity|].
  intros cg ct Hin.
  eapply (GroupBy_path_values ["a"%string; "b"%string] (ofTable twoKeysT) []);
    [apply heap_wf_nil|apply ofTable_wf, twoKeysT_wf|vm_compute; reflexivity|exact Hin].
Defined.

(** ** The children of one group *)

Section Children.

Lemma size_firsts (cs : list value) :
  length (firsts cs) = size (list_to_set cs : gset value).
Proof.
  rewrite <- (size_list_to_set (C := gset value) (firsts cs)) by apply NoDup_firsts.
  f_equal. apply set_eq. intros x. by rewrite !elem_of_list_to_set, elem_of_firsts.
Qed.

(** The labels of the children of a table: the constant, or the distinct
    values of the column in the order they first occur. *)
Definition childLabels (c : string) (t : list (string * column)) : list value :=
  match Const t c with
  | Some cv => [cv]
  | None => firsts (colOf t c)
  end.

Lemma splitTable_labels (c : string) (t : list (string * column)) vts :
  splitTable c t = Some vts -> vts.*1 = childLabels c t.
Proof.
  unfold splitTable, childLabels, Const, colOf, Column.
  destruct (lookupCol t c) as [[cs|cv]|]; intros [= <-]; [|done].
  simpl. rewrite <- list_fmap_compose. by rewrite list_fmap_id.
Qed.

Lemma block_labels (c : string) (h' : list groupNode) gt blk :
  block_of c h' gt blk ->
  Label h' <$> Tables blk = Ok <$> childLabels c gt.2.
Proof.
  intros [vts [Hsp Hf]]. rewrite <- (splitTable_labels _ _ _ Hsp). clear Hsp.
  unfold Tables. induction Hf as [|[cg ct] [v t'] blk vts [_ [a [Ha Hn]]] _ IH]; [done|].
  simpl in Ha, Hn. subst cg. rewrite !fmap_cons. cbn [fst]. rewrite IH.
  unfold Label. by rewrite Hn.
Qed.

End Children.

(** X7: in [GroupBy(g, c)] the groups whose parent is the input group
    [gid] are, in order, labelled with the distinct values of the column
    [c] of that group's table in the order they first occur (with the
    constant alone, when [c] is a constant there): no two of them carry
    the same label, and there are as many as the column has distinct
    values. *)
Theorem GroupBy_children_labels (g : list (option nat * list (string * column)))
    (c : string) (h : list groupNode) out h' gid t :
  grouping_wf h g -> GroupBy g [c] h = Ok (out, h') -> (gid, t) ∈ g ->
  let children := filter (fun cgt => Parent h' cgt.1 = gid) out in
  Label h' <$> Tables children = Ok <$> childLabels c t
  /\ NoDup (Label h' <$> Tables children)
  /\ length children
     = match Const t c with
       | Some _ => 1
       | None => size (list_to_set (colOf t c) : gset value)
       end.
Proof.
  intros Hg Hgb Hin. cbv zeta.
  rewrite GroupBy_single in Hgb by done.
  destruct (regroup_blocks _ _ _ _ _ Hgb) as [[blocks [-> Hbl]] _].
  destruct Hg as [Hnd _].
  destruct (filter_blocks_own _ _ _ _ _ _ Hnd Hbl Hin) as [blk [Hblk ->]].
  pose proof (block_labels _ _ _ _ Hblk) as Hlab. simpl in Hlab.
  assert (Hlen : length blk = length (childLabels c t)).
  { apply (f_equal length) in Hlab. unfold Tables in Hlab.
    by rewrite !length_fmap in Hlab. }
  split_and!.
  - done.
  - rewrite Hlab. apply NoDup_fmap_2; [by intros x y [= ->]|]. unfold childLabels.
    destruct (Const t c); [apply NoDup_singleton|apply NoDup_firsts].
  - rewrite Hlen. unfold childLabels. destruct (Const t c); [done|apply size_firsts].
Qed.

Lemma GroupBy_children_labels_witness :
  let h := [{| parent := None; label := VInt 0 |}] in
  exists out h',
    GroupBy [(Some 0, twoKeysT)] ["a"%string] h = Ok (out, h')
    /\ let children := filter (fun cgt => Parent h' cgt.1 = Some 0) out in
       Label h' <$> Tables children = Ok <$> childLabels "a" twoKeysT
       /\ NoDup (Label h' <$> Tables children)
       /\ length children
          = match Const twoKeysT "a" with
            | Some _ => 1
            | None => size (list_to_set (colOf twoKeysT "a") : gset value)
            end.
Proof.
  cbv zeta. do 2 eexists. split; [vm_compute; reflexivity|].
  apply (GroupBy_children_labels [(Some 0, twoKeysT)] "a"
           [{| parent := None; label := VInt 0 |}] _ _ (Some 0) twoKeysT).
  - split_and!.
    + apply NoDup_singleton.
    + constructor; [simpl; lia|constructor].
    + constructor; [apply twoKeysT_wf|constructor].
  - vm_compute; reflexivity.
  - apply list_elem_of_here.
Defined.

(** X8: [GroupBy(g, c)] drops the groups without rows: an input group has
    a child in the output exactly when [c] is a constant of its table or
    the column [c] holds at least one row. *)
Theorem GroupBy_group_without_rows (g : list (option nat * list (string * column)))
    (c : string) (h : list groupNode) out h' gid t :
  grouping_wf h g -> GroupBy g [c] h = Ok (out, h') -> (gid, t) ∈ g ->
  (exists cg, cg ∈ Tables out /\ Parent h' cg = gid)
  <-> (Const t c <> None \/ colOf t c <> []).
Proof.
  intros Hg Hgb Hin.
  rewrite GroupBy_single in Hgb by done.
  destruct (regroup_blocks _ _ _ _ _ Hgb) as [[blocks [-> Hbl]] _].
  destruct Hg as [Hnd _].
  destruct (filter_blocks_own _ _ _ _ _ _ Hnd Hbl Hin) as [blk [Hblk Hfl]].
  pose proof (block_labels _ _ _ _ Hblk) as Hlab. simpl in Hlab.
  assert (Hnil : blk = [] <-> childLabels c t = []).
  { apply (f_equal length) in Hlab. unfold Tables in Hlab.
    rewrite !length_fmap in Hlab.
    split; intros Heq; apply length_zero_iff_nil;
      apply length_zero_iff_nil in Heq; lia. }
  assert (Hlabels : childLabels c t = [] <-> Const t c = None /\ colOf t c = []).
  { unfold childLabels. destruct (Const t c) as [cv|]; [by split; [|intros [? _]]|].
    split.
    - intros Hf. split; [done|]. destruct (colOf t c) as [|x cs]; [done|].
      assert (Hx : x ∈ firsts (x :: cs)) by (apply elem_of_firsts, list_elem_of_here).
      rewrite Hf in Hx. by apply elem_of_nil in Hx.
    - by intros [_ ->]. }
  split.
  - intros [cg [[[cg' ct] [-> Hc]]%list_elem_of_fmap Hp]]. simpl in Hp.
    assert (Hb : (cg', ct) ∈ blk).
    { rewrite <- Hfl. by apply list_elem_of_filter. }
    destruct (Const t c) as [cv|] eqn:Hcv; [by left|]. right. intros Hcol.
    assert (blk = []) as -> by (apply Hnil, Hlabels; done).
    by apply elem_of_nil in Hb.
  - intros Hor. destruct blk as [|[cg ct] blk'].
    + exfalso. destruct (proj1 Hlabels (proj1 Hnil eq_refl)) as [Hc Hcol].
      by destruct Hor.
    + assert (Hb : (cg, ct) ∈ filter (fun cgt => Parent h' cgt.1 = gid) (concat blocks)).
      { rewrite Hfl. apply list_elem_of_here. }
      apply list_elem_of_filter in Hb as [Hp Hb]. exists cg. split; [|done].
      apply list_elem_of_fmap. by exists (cg, ct).
Qed.

Lemma GroupBy_group_without_rows_witness :
  let h := [{| parent := None; label := VInt 0 |}] in
  exists out h',
    GroupBy [(Some 0, emptyRowsT)] ["c"%string] h = Ok (out, h')
    /\ ((exists cg, cg ∈ Tables out /\ Parent h' cg = Some 0)
        <-> (Const emptyRowsT "c" <> None \/ colOf emptyRowsT "c" <> [])).
Proof.
  cbv zeta. do 2 eexists. split; [vm_compute; reflexivity|].
  apply (GroupBy_group_without_rows [(Some 0, emptyRowsT)] "c"
           [{| parent := None; label := VInt 0 |}] _ _ (Some 0) emptyRowsT).
  - split_and!.
    + apply NoDup_singleton.
    + constructor; [simpl; lia|constructor].
    + constructor; [|constructor].
      apply table_wf_intro; [|by repeat constructor].
      by apply (bool_decide_unpack _).
  - vm_compute; reflexivity.
  - apply list_elem_of_here.
Defined.

(** ** Grouping by a column every table holds constant *)

Section AllConstant.

Lemma regroup_all_const (c : string) (g : list (option nat * list (string * column)))
    (h : list groupNode) :
  Forall (fun gt => is_Some (Const gt.2 c)) g ->
  regroup c g h
  = Ok (imap (fun k gt => (Some (length h + k), gt.2)) g,
        h ++ ((fun gt => childNode gt.1 (default VNil (Const gt.2 c))) <$> g)).
Proof.
  intros Hf. revert h. induction Hf as [|[gid0 t] g [cv Hcv] _ IH]; intros h.
  - simpl. by rewrite app_nil_r.
  - simpl in Hcv. cbn [regroup].
    assert (Hsp : splitTable c t = Some [(cv, t)]).
    { unfold Const in Hcv. unfold splitTable.
      destruct (lookupCol t c) as [[cs|cv']|]; try done. by injection Hcv as ->. }
    rewrite Hsp. cbn [allocChildren imap fmap list_fmap fst snd].
    rewrite IH. cbv beta iota delta [bind]. rewrite Hcv. cbn [app default].
    rewrite <- app_assoc. cbn [app]. do 3 f_equal.
    apply imap_ext. intros k gt _. simpl. rewrite length_app. simpl.
    do 2 f_equal. lia.
Qed.

End AllConstant.

(** X9: grouping a second time by the same column changes no table: every
    group of [GroupBy(g, c)] gets exactly one child, with the table and the
    label of the group; [GroupBy(g, c, c)] is that grouping. *)
Theorem GroupBy_same_column_twice (g : list (option nat * list (string * column)))
    (c : string) (h : list groupNode) out1 h1 :
  grouping_wf h g -> GroupBy g [c] h = Ok (out1, h1) ->
  exists out2 h2,
    GroupBy out1 [c] h1 = Ok (out2, h2)
    /\ GroupBy g [c; c] h = Ok (out2, h2)
    /\ out2.*2 = out1.*2
    /\ Forall2 (fun g1 g2 => Parent h2 g2 = g1 /\ Label h2 g2 = Label h1 g1
                             /\ Label h2 g1 = Label h1 g1)
         (Tables out1) (Tables out2).
Proof.
  intros Hg Hgb.
  pose proof (GroupBy_wf _ _ _ _ _ Hg Hgb) as Hg1.
  pose proof Hgb as Hre. rewrite GroupBy_single in Hre by done.
  assert (Hconst : Forall (fun gt => exists v a p,
                     gt.1 = Some a /\ h1 !! a = Some (childNode p v)
                     /\ Const gt.2 c = Some v) out1).
  { apply Forall_forall. intros [cg ct] Hin.
    destruct (regroup_child _ _ _ _ _ _ _ Hre Hin)
      as (gt & v & a & _ & -> & _ & Hn & Hc & _).
    by exists v, a, gt.1. }
  assert (Hsome : Forall (fun gt => is_Some (Const gt.2 c)) out1).
  { eapply Forall_impl; [exact Hconst|]. intros gt (v & a & p & _ & _ & Hc). eauto. }
  pose proof (regroup_all_const c out1 h1 Hsome) as Hre2.
  eexists _, _. split_and!.
  - rewrite GroupBy_single by done. exact Hre2.
  - change [c; c] with ([c] ++ [c]). rewrite GroupBy_app, Hgb.
    cbv beta iota delta [bind]. rewrite GroupBy_single by done. exact Hre2.
  - rewrite fmap_imap. rewrite <- (imap_const snd). by apply imap_ext.
  - unfold Tables. rewrite fmap_imap.
    apply Forall2_same_length_lookup. split; [by rewrite length_imap, length_fmap|].
    intros k g1 g2 Hk1 Hk2.
    apply list_lookup_fmap_Some in Hk1 as [[cg ct] [-> Hk1]].
    rewrite list_lookup_imap, Hk1 in Hk2. simpl in Hk2. injection Hk2 as <-.
    destruct (proj1 (Forall_forall _ _) Hconst _ (list_elem_of_lookup_2 _ _ _ Hk1))
      as (v & a & p & Ha & Hn & Hc). simpl in Ha, Hc. subst cg.
    assert (Hnew : (h1 ++ ((fun gt => childNode gt.1 (default VNil (Const gt.2 c))) <$> out1))
                     !! (length h1 + k) = Some (childNode (Some a) v)).
    { rewrite lookup_app_r by lia.
      replace (length h1 + k - length h1) with k by lia.
      rewrite list_lookup_fmap, Hk1. simpl. by rewrite Hc. }
    unfold Parent, Label. cbn [fst snd].
    rewrite Hnew, (lookup_app_l_Some _ _ _ _ Hn), Hn. done.
Qed.

Definition twoKeysByA : list (option nat * list (string * column)) :=
  Eval vm_compute in
    match GroupBy (ofTable twoKeysT) ["a"%string] [] with
    | Ok (out, _) => out
    | Panic _ => []
    end.

Definition twoKeysByAHeap : list groupNode :=
  Eval vm_compute in
    match GroupBy (ofTable twoKeysT) ["a"%string] [] with
    | Ok (_, h) => h
    | Panic _ => []
    end.

Lemma GroupBy_same_column_twice_witness :
  exists out2 h2,
    GroupBy twoKeysByA ["a"%string] twoKeysByAHeap = Ok (out2, h2)
    /\ GroupBy (ofTable twoKeysT) ["a"%string; "a"%string] [] = Ok (out2, h2)
    /\ out2.*2 = twoKeysByA.*2
    /\ Forall2 (fun g1 g2 => Parent h2 g2 = g1 /\ Label h2 g2 = Label twoKeysByAHeap g1
                             /\ Label h2 g1 = Label twoKeysByAHeap g1)
         (Tables twoKeysByA) (Tables out2).
Proof.
  apply (GroupBy_same_column_twice (ofTable twoKeysT) "a" [] twoKeysByA twoKeysByAHeap).
  - apply ofTable_wf, twoKeysT_wf.
  - vm_compute; reflexivity.
Defined.

(** * Ungroup, Flatten and concatRows, continued *)

(** The output group [ot] holds the run [seg] of adjacent input groups:
    the run is not empty, its groups have the parent [ot.1], and the table
    is [concatRows] of theirs. *)
Definition runOf (h : list groupNode) (seg : list (option nat * list (string * column)))
    (ot : option nat * list (string * column)) : Prop :=
  seg <> [] /\ Forall (fun gt => Parent h gt.1 = ot.1) seg
  /\ ot.2 = concatRows (seg.*2).

Section UngroupRuns.

Lemma runsFrom_adjacent (prev : option nat) (l : list (option nat)) (i : nat)
    (p q : option nat) :
  (prev :: runsFrom prev l) !! i = Some p ->
  (prev :: runsFrom prev l) !! S i = Some q -> p <> q.
Proof.
  revert prev i. induction l as [|x l IH]; intros prev i; simpl.
  - destruct i; simpl; [done|]. by destruct i.
  - case_decide as Hx; [apply IH|].
    destruct i as [|i]; simpl.
    + intros [= <-] [= <-]. congruence.
    + apply IH.
Qed.

Lemma Ungroup_ids (h : list groupNode) (g : list (option nat * list (string * column))) :
  g <> [] -> Tables g <> [None] ->
  Tables (Ungroup h g) = runs (Parent h <$> Tables g).
Proof.
  intros Hne Hroot. unfold Ungroup.
  destruct (Tables g) as [|gid0 gids] eqn:Hg.
  { destruct g; [done|]. by simpl in Hg. }
  assert (Hgen : Tables (let '(runGid, runTabs, out) :=
                   ungroupLoop h g (gid0 :: gids) (Parent h gid0) [] [] in
                 GAdd out runGid (concatRows runTabs))
                 = runs (Parent h <$> gid0 :: gids)).
  { rewrite ungroupLoop_ids. simpl. by rewrite decide_True. }
  destruct gid0 as [a|]; [exact Hgen|].
  destruct gids as [|gid1 gids]; [done|exact Hgen].
Qed.

Lemma ungroupLoop_runs (h : list groupNode)
    (g gts cur : list (option nat * list (string * column)))
    (runGid : option nat) (out : list (option nat * list (string * column))) :
  Forall (fun gt => TableOf g gt.1 = gt.2) gts ->
  Forall (fun gt => Parent h gt.1 = runGid) cur ->
  (cur <> [] \/ exists gt gts', gts = gt :: gts' /\ Parent h gt.1 = runGid) ->
  exists segs res,
    (let '(r, ts, o) := ungroupLoop h g (gts.*1) runGid (cur.*2) out in
     GAdd o r (concatRows ts)) = out ++ res
    /\ concat segs = cur ++ gts
    /\ Forall2 (runOf h) segs res.
Proof.
  intros Hf. revert cur runGid out.
  induction Hf as [|gt gts Ht _ IH]; intros cur runGid out Hcur Hne.
  - exists [cur], [(runGid, concatRows (cur.*2))]. split_and!; [done|done|].
    constructor; [|constructor]. split_and!; [|done|done].
    destruct Hne as [?|(? & ? & ? & _)]; done.
  - rewrite fmap_cons. cbn [ungroupLoop]. case_decide as Hp.
    + rewrite Ht.
      replace (cur.*2 ++ [gt.2]) with ((cur ++ [gt]).*2) by by rewrite fmap_app.
      destruct (IH (cur ++ [gt]) runGid out) as (segs & res & Hres & Hcat & Hruns).
      * apply Forall_app. split; [done|]. by constructor.
      * left. by destruct cur.
      * exists segs, res. split_and!; [done| |done].
        by rewrite Hcat, <- app_assoc.
    + assert (Hcne : cur <> []).
      { destruct Hne as [?|(gt' & gts' & [= <- <-] & ?)]; done. }
      rewrite Ht.
      destruct (IH [gt] (Parent h gt.1) (GAdd out runGid (concatRows (cur.*2))))
        as (segs & res & Hres & Hcat & Hruns).
      * by constructor.
      * left. done.
      * exists (cur :: segs), ((runGid, concatRows (cur.*2)) :: res). split_and!.
        -- change ([gt].*2) with [gt.2] in Hres. rewrite Hres.
           unfold GAdd. by rewrite <- app_assoc.
        -- simpl. by rewrite Hcat.
        -- constructor; [|done]. by split_and!.
Qed.

Lemma Ungroup_segments (h : list groupNode)
    (g : list (option nat * list (string * column))) :
  NoDup (Tables g) -> g <> [] -> Tables g <> [None] ->
  exists segs, concat segs = g /\ Forall2 (runOf h) segs (Ungroup h g).
Proof.
  intros Hnd Hne Hroot.
  assert (Hf : Forall (fun gt => TableOf g gt.1 = gt.2) g).
  { apply Forall_forall. intros [gid0 t] Hin. by apply TableOf_NoDup. }
  destruct g as [|[gid0 t0] g']; [done|].
  destruct (ungroupLoop_runs h ((gid0, t0) :: g') ((gid0, t0) :: g') []
              (Parent h gid0) [] Hf)
    as (segs & res & Hres & Hcat & Hruns).
  - constructor.
  - right. by exists (gid0, t0), g'.
  - exists segs. split; [done|].
    assert (Hu : Ungroup h ((gid0, t0) :: g') = res).
    { change ([] ++ res) with res in Hres. rewrite <- Hres.
      unfold Ungroup, Tables in *. rewrite fmap_cons in *. cbn [fst] in *.
      destruct gid0 as [a|]; [done|].
      destruct (g'.*1) as [|gid1 gids]; [done|done]. }
    by rewrite Hu.
Qed.

End UngroupRuns.

(** X10: [Ungroup] cuts the groups of [g], in order, into runs of adjacent
    groups with one parent and emits one group per run: its GroupID is that
    parent, its table is [concatRows] of the run's tables, no run is empty,
    and two output groups next to each other never have the same GroupID.
    An empty grouping and a grouping of the root group alone are returned
    as they are. *)
Theorem Ungroup_runs (h : list groupNode)
    (g : list (option nat * list (string * column))) :
  NoDup (Tables g) -> NoDup (Tables (Ungroup h g)) ->
  (g = [] \/ Tables g = [RootGroupID] -> Ungroup h g = g)
  /\ (g <> [] -> Tables g <> [RootGroupID] ->
      (exists segs, concat segs = g /\ Forall2 (runOf h) segs (Ungroup h g))
      /\ forall i p q, Tables (Ungroup h g) !! i = Some p ->
                       Tables (Ungroup h g) !! S i = Some q -> p <> q).
Proof.
  intros Hnd _. split.
  - intros [->|Hroot]; [done|]. unfold Ungroup. by rewrite Hroot.
  - intros Hne Hroot. split.
    + by apply Ungroup_segments.
    + intros i p q. rewrite Ungroup_ids by done.
      destruct (Tables g) as [|gid0 gids]; [done|]. simpl.
      apply runsFrom_adjacent.
Qed.

Definition ungroupH : list groupNode :=
  [{| parent := None; label := VString "a" |};
   {| parent := None; label := VString "b" |};
   {| parent := Some 0; label := VInt 1 |};
   {| parent := Some 0; label := VInt 2 |};
   {| parent := Some 1; label := VInt 1 |}].

Definition ungroupG : list (option nat * list (string * column)) :=
  [(Some 2, [("k"%string, ConstCol (VInt 1)); ("v"%string, Seq [VInt 10])]);
   (Some 3, [("k"%string, ConstCol (VInt 2)); ("v"%string, Seq [VInt 20; VInt 30])]);
   (Some 4, [("k"%string, ConstCol (VInt 1)); ("v"%string, Seq [VInt 40])])].

Lemma Ungroup_runs_witness :
  (ungroupG = [] \/ Tables ungroupG = [RootGroupID] -> Ungroup ungroupH ungroupG = ungroupG)
  /\ (ungroupG <> [] -> Tables ungroupG <> [RootGroupID] ->
      (exists segs, concat segs = ungroupG
                    /\ Forall2 (runOf ungroupH) segs (Ungroup ungroupH ungroupG))
      /\ forall i p q, Tables (Ungroup ungroupH ungroupG) !! i = Some p ->
                       Tables (Ungroup ungroupH ungroupG) !! S i = Some q -> p <> q).
Proof.
  apply (Ungroup_runs ungroupH ungroupG).
  - by apply (bool_decide_unpack _).
  - by apply (bool_decide_unpack _).
Defined.

Section ConcatRows.

Lemma lookupCol_concatAll (names : list string) (tabs : list (list (string * column)))
    (name : string) :
  name ∈ names ->
  lookupCol (concatAll names tabs) name
  = Some (Seq (concat ((fun tab => colOf tab name) <$> tabs))).
Proof.
  induction names as [|n names IH]; [by intros ?%elem_of_nil|].
  intros Hin. unfold concatAll. rewrite fmap_cons. fold (concatAll names tabs).
  simpl. destruct (String.eqb_spec n name) as [->|Hne]; [done|].
  apply IH. apply elem_of_cons in Hin as [?|?]; [congruence|done].
Qed.

Lemma lookupCol_concatAll_None (names : list string)
    (tabs : list (list (string * column))) (name : string) :
  name ∉ names -> lookupCol (concatAll names tabs) name = None.
Proof.
  intros Hn. apply lookupCol_None. by rewrite Columns_concatAll.
Qed.

Lemma concatRows_many (t0 t1 : list (string * column))
    (tabs : list (list (string * column))) :
  concatRows (t0 :: t1 :: tabs) = concatAll (Columns t0) (t0 :: t1 :: tabs).
Proof. unfold concatRows, Done. by rewrite concatColumns_spec. Qed.

Lemma colOf_concatRows (cols : list string) (tabs : list (list (string * column)))
    (name : string) :
  tabs <> [] -> Forall (fun t => Columns t = cols) tabs -> name ∈ cols ->
  colOf (concatRows tabs) name = concat ((fun tab => colOf tab name) <$> tabs).
Proof.
  intros Hne Hf Hin. destruct tabs as [|t0 [|t1 tabs]]; [done| |].
  - simpl. by rewrite app_nil_r.
  - rewrite concatRows_many.
    assert (Hc : Columns t0 = cols) by by apply Forall_cons in Hf as [? _].
    unfold colOf at 1, Column. by rewrite lookupCol_concatAll by by rewrite Hc.
Qed.

Lemma Columns_concatRows (cols : list string) (tabs : list (list (string * column))) :
  tabs <> [] -> Forall (fun t => Columns t = cols) tabs ->
  Columns (concatRows tabs) = cols.
Proof.
  intros Hne Hf. destruct tabs as [|t0 [|t1 tabs]]; [done| |].
  - by apply Forall_cons in Hf as [? _].
  - rewrite concatRows_many, Columns_concatAll. by apply Forall_cons in Hf as [? _].
Qed.

Lemma concat_fmap_concat {A B} (f : A -> list B) (ls : list (list A)) :
  concat ((fun l => concat (f <$> l)) <$> ls) = concat (f <$> concat ls).
Proof.
  induction ls as [|l ls IH]; [done|].
  rewrite fmap_cons. simpl. by rewrite fmap_app, concat_app, IH.
Qed.

(** Concatenating run by run is concatenating all at once. *)
Lemma concatRows_concat (cols : list string)
    (tss : list (list (list (string * column)))) :
  Forall (fun ts => ts <> []) tss ->
  Forall (Forall (fun t => Columns t = cols)) tss ->
  concatRows (concatRows <$> tss) = concatRows (concat tss).
Proof.
  intros Hne Hcols. destruct tss as [|ts0 [|ts1 tss]]; [done| |].
  - simpl. by rewrite app_nil_r.
  - pose proof Hne as HneAll.
    apply Forall_cons in Hne as [Hne0 Hne]. apply Forall_cons in Hne as [Hne1 Hne].
    pose proof Hcols as Hall.
    apply Forall_cons in Hcols as [Hc0 Hcols]. apply Forall_cons in Hcols as [Hc1 Hcols].
    rewrite !fmap_cons, concatRows_many.
    rewrite (Columns_concatRows cols ts0) by done.
    assert (Hr : concatRows (concat (ts0 :: ts1 :: tss))
                 = concatAll cols (concat (ts0 :: ts1 :: tss))).
    { destruct ts0 as [|a ts0]; [done|]. destruct ts1 as [|b ts1]; [done|].
      assert (Ha : Columns a = cols) by by apply Forall_cons in Hc0 as [? _].
      simpl. destruct ts0 as [|a' ts0]; simpl;
        unfold Done; by rewrite concatColumns_spec, Ha. }
    rewrite Hr. unfold concatAll. apply list_fmap_ext.
    intros _ name Hname%list_elem_of_lookup_2. do 2 f_equal.
    rewrite <- !fmap_cons.
    rewrite <- (concat_fmap_concat (fun tab => colOf tab name)).
    rewrite <- list_fmap_compose. f_equal.
    apply Forall_fmap_ext_1.
    apply Forall_forall. intros ts Hts. simpl.
    apply (colOf_concatRows cols); [|by apply (proj1 (Forall_forall _ _) Hall)|done].
    by apply (proj1 (Forall_forall _ _) HneAll).
Qed.

Lemma runOf_tables (h : list groupNode)
    (segs : list (list (option nat * list (string * column))))
    (res : list (option nat * list (string * column))) :
  Forall2 (runOf h) segs res ->
  res.*2 = concatRows <$> ((fun seg => seg.*2) <$> segs).
Proof.
  induction 1 as [|seg ot segs res (_ & _ & Ht) _ IH]; [done|].
  rewrite !fmap_cons. by rewrite Ht, IH.
Qed.

Lemma fmap_snd_concat {A B} (ls : list (list (A * B))) :
  (concat ls).*2 = concat ((fun l => l.*2) <$> ls).
Proof.
  induction ls as [|l ls IH]; [done|]. rewrite fmap_cons. simpl.
  by rewrite fmap_app, IH.
Qed.

End ConcatRows.

(** X11: [Flatten] after [Ungroup] is [Flatten]: when the tables of a
    grouping have the same column names, ungrouping one level and then
    flattening gives the very table that flattening at once gives. *)
Theorem Flatten_Ungroup (h : list groupNode)
    (g : list (option nat * list (string * column))) (cols : list string) :
  NoDup (Tables g) -> NoDup (Tables (Ungroup h g)) ->
  Forall (fun t => Columns t = cols) (g.*2) ->
  Flatten (Ungroup h g) = Flatten g.
Proof.
  intros Hnd Hnd' Hcols.
  destruct (decide (g = [])) as [->|Hne]; [done|].
  destruct (decide (Tables g = [None])) as [Hroot|Hroot].
  { unfold Ungroup. by rewrite Hroot. }
  destruct (Ungroup_segments h g Hnd Hne Hroot) as (segs & Hcat & Hruns).
  rewrite !Flatten_concatRows by done.
  rewrite (runOf_tables h segs _ Hruns).
  rewrite <- Hcat, fmap_snd_concat.
  apply (concatRows_concat cols).
  - apply Forall_fmap, Forall_forall. intros seg Hseg. simpl.
    apply list_elem_of_lookup in Hseg as [i Hi].
    destruct (Forall2_lookup_l _ _ _ _ _ Hruns Hi) as (ot & _ & Hne' & _).
    by destruct seg.
  - apply Forall_fmap, Forall_forall. intros seg Hseg. simpl.
    apply Forall_fmap, Forall_forall. intros gt Hgt. simpl.
    apply (proj1 (Forall_forall _ _) Hcols). apply list_elem_of_fmap.
    exists gt. split; [done|]. rewrite <- Hcat. apply elem_of_concat. eauto.
Qed.

Lemma Flatten_Ungroup_witness :
  Flatten (Ungroup ungroupH ungroupG) = Flatten ungroupG.
Proof.
  apply (Flatten_Ungroup ungroupH ungroupG ["k"%string; "v"%string]).
  - by apply (bool_decide_unpack _).
  - by apply (bool_decide_unpack _).
  - by repeat constructor.
Defined.

(** X12: [concatRows] of two or more tables with the same column names has
    those names in their order; every column of the result is an ordinary
    one, also where all the tables held it constant, and holds the column
    of the first table, then of the second, and so on, a constant repeated
    for every row of its table; the row count is the sum of the tables'
    and the rows are the tables' rows one table after the other. *)
Theorem concatRows_columns (cols : list string) (t0 t1 : list (string * column))
    (tabs : list (list (string * column))) :
  Forall (fun t => table_wf t /\ Columns t = cols) (t0 :: t1 :: tabs) ->
  let out := concatRows (t0 :: t1 :: tabs) in
  Columns out = cols
  /\ (forall name, name ∈ cols ->
        Const out name = None
        /\ Column out name
           = Some (concat ((fun t => colOf t name) <$> t0 :: t1 :: tabs)))
  /\ (forall name, name ∉ cols -> Column out name = None)
  /\ Len out = sum_list (Len <$> t0 :: t1 :: tabs)
  /\ rows out = concat (rows <$> t0 :: t1 :: tabs).
Proof.
  intros Hf. cbv zeta.
  assert (Hc0 : Columns t0 = cols) by by apply Forall_cons in Hf as [[_ ?] _].
  rewrite concatRows_many, Hc0. split_and!.
  - apply Columns_concatAll.
  - intros name Hin. unfold Const, Column. by rewrite lookupCol_concatAll.
  - intros name Hnin. unfold Column. by rewrite lookupCol_concatAll_None.
  - by apply Len_concatAll.
  - by apply rows_concatAll.
Qed.

Lemma concatRows_columns_witness :
  let out := concatRows [constKeyT; constKeyT] in
  Columns out = ["k"%string; "v"%string]
  /\ (forall name, name ∈ ["k"%string; "v"%string] ->
        Const out name = None
        /\ Column out name
           = Some (concat ((fun t => colOf t name) <$> [constKeyT; constKeyT])))
  /\ (forall name, name ∉ ["k"%string; "v"%string] -> Column out name = None)
  /\ Len out = sum_list (Len <$> [constKeyT; constKeyT])
  /\ rows out = concat (rows <$> [constKeyT; constKeyT]).
Proof.
  apply (concatRows_columns ["k"%string; "v"%string] constKeyT constKeyT []).
  constructor; [split; [apply constKeyT_wf|done]|].
  constructor; [split; [apply constKeyT_wf|done]|constructor].
Defined.

Section UngroupBlocks.

Lemma ungroupLoop_app_same (h : list groupNode)
    (g : list (option nat * list (string * column))) (gids1 gids2 : list (option nat))
    (p : option nat) runTabs out :
  Forall (fun cg => Parent h cg = p) gids1 ->
  ungroupLoop h g (gids1 ++ gids2) p runTabs out
  = ungroupLoop h g gids2 p (runTabs ++ (TableOf g <$> gids1)) out.
Proof.
  intros Hf. revert runTabs. induction Hf as [|gid0 gids1 Hp _ IH]; intros runTabs; simpl.
  - by rewrite app_nil_r.
  - rewrite decide_True by done. rewrite IH. by rewrite <- app_assoc.
Qed.

Lemma TableOf_block (h : list groupNode) (g blk : list (option nat * list (string * column)))
    (gid0 : option nat) :
  Forall (fun gt => Parent h gt.1 = gid0 /\ TableOf g gt.1 = gt.2) blk ->
  Forall (fun cg => Parent h cg = gid0) (blk.*1) /\ TableOf g <$> blk.*1 = blk.*2.
Proof.
  induction 1 as [|gt blk [Hp Ht] _ [IH1 IH2]]; [by split|].
  rewrite !fmap_cons. split; [by constructor|]. by rewrite Ht, IH2.
Qed.

Lemma ungroupLoop_blocks (h : list groupNode)
    (g : list (option nat * list (string * column))) (gids : list (option nat))
    (blocks : list (list (option nat * list (string * column))))
    (cur : list (list (string * column))) (runGid : option nat)
    (out : list (option nat * list (string * column))) :
  Forall2 (fun gid0 blk => blk <> [] /\
             Forall (fun gt => Parent h gt.1 = gid0 /\ TableOf g gt.1 = gt.2) blk)
    gids blocks ->
  NoDup (runGid :: gids) ->
  (let '(r, ts, o) := ungroupLoop h g ((concat blocks).*1) runGid cur out in
   GAdd o r (concatRows ts))
  = out ++ (runGid, concatRows cur)
        :: zip_with (fun gid0 blk => (gid0, concatRows (blk.*2))) gids blocks.
Proof.
  intros Hf. revert cur runGid out.
  induction Hf as [|gid0 blk gids blocks [Hne Hblk] _ IH]; intros cur runGid out Hnd.
  - done.
  - destruct blk as [|gt blk']; [done|].
    destruct (TableOf_block _ _ _ _ Hblk) as [Hpar Htabs].
    apply Forall_cons in Hblk as [[Hp Ht] Hblk'].
    destruct (TableOf_block _ _ _ _ Hblk') as [Hpar' Htabs'].
    cbn [concat]. rewrite fmap_app, fmap_cons. cbn [app ungroupLoop].
    rewrite decide_False.
    2:{ rewrite Hp. intros ->. apply NoDup_cons in Hnd as [Hnin _].
        apply Hnin, list_elem_of_here. }
    rewrite ungroupLoop_app_same by (by rewrite Hp).
    rewrite Hp, Ht, Htabs'.
    change ([gt.2] ++ blk'.*2) with ((gt :: blk').*2).
    rewrite IH by by apply NoDup_cons in Hnd as [_ ?].
    unfold GAdd. by rewrite <- app_assoc.
Qed.

Lemma Ungroup_blocks (h : list groupNode) (gids : list (option nat))
    (blocks : list (list (option nat * list (string * column)))) :
  NoDup (Tables (concat blocks)) -> NoDup gids ->
  Forall (fun cg => cg <> None) (Tables (concat blocks)) ->
  Forall2 (fun gid0 blk => blk <> [] /\ Forall (fun gt => Parent h gt.1 = gid0) blk)
    gids blocks ->
  Ungroup h (concat blocks)
  = zip_with (fun gid0 blk => (gid0, concatRows (blk.*2))) gids blocks.
Proof.
  intros Hnd Hgids Hsome Hf.
  assert (Hf' : Forall2 (fun gid0 blk => blk <> [] /\
                  Forall (fun gt => Parent h gt.1 = gid0
                                    /\ TableOf (concat blocks) gt.1 = gt.2) blk)
                  gids blocks).
  { apply Forall2_same_length_lookup. split; [by eapply Forall2_length|].
    intros i gid0 blk Hi Hb.
    destruct (Forall2_lookup_lr _ _ _ _ _ _ Hf Hi Hb) as [Hne Hp]. split; [done|].
    apply Forall_forall. intros [cg ct] Hin. split.
    - by apply (proj1 (Forall_forall _ _) Hp (cg, ct)).
    - simpl. apply TableOf_NoDup; [done|]. apply elem_of_concat.
      exists blk. split; [by eapply list_elem_of_lookup_2|done]. }
  clear Hf. destruct blocks as [|blk blocks'].
  { by apply Forall2_nil_inv_r in Hf' as ->. }
  apply Forall2_cons_inv_r in Hf' as (gid0 & gids' & [Hne Hblk] & Hrest & ->).
  destruct blk as [|[cg ct] blk']; [done|].
  destruct (TableOf_block _ _ _ _ Hblk) as [Hpar Htabs].
  apply Forall_cons in Hpar as Hp0. destruct Hp0 as [Hp0 _]. simpl in Hp0.
  unfold Ungroup.
  assert (Hids : Tables (concat (((cg, ct) :: blk') :: blocks'))
                 = ((cg, ct) :: blk').*1 ++ (concat blocks').*1).
  { unfold Tables. cbn [concat]. by rewrite fmap_app. }
  rewrite Hids in *. rewrite fmap_cons in *. cbn [fst app] in *.
  apply Forall_cons in Hsome as [Hcg _].
  destruct cg as [a|]; [|done].
  rewrite Hp0.
  change (Some a :: blk'.*1 ++ (concat blocks').*1)
    with ((Some a :: blk'.*1) ++ (concat blocks').*1).
  rewrite (ungroupLoop_app_same h _ (Some a :: blk'.*1) _ gid0 [] []) by done.
  cbn [app]. rewrite Htabs.
  by rewrite (ungroupLoop_blocks h _ gids' blocks' _ gid0 [] Hrest Hgids).
Qed.

End UngroupBlocks.

Section UngroupGroupBy.

Lemma block_nonempty (c : string) (h' : list groupNode) gt blk :
  block_of c h' gt blk ->
  (Const gt.2 c <> None \/ colOf gt.2 c <> []) -> blk <> [].
Proof.
  intros Hblk Hor ->. pose proof (block_labels _ _ _ _ Hblk) as Hlab.
  simpl in Hlab. symmetry in Hlab. apply fmap_nil_inv in Hlab.
  unfold childLabels in Hlab. destruct (Const gt.2 c) as [cv|]; [done|].
  destruct Hor as [?|Hcol]; [done|]. apply Hcol.
  destruct (colOf gt.2 c) as [|x cs]; [done|].
  assert (Hx : x ∈ firsts (x :: cs)) by (apply elem_of_firsts, list_elem_of_here).
  rewrite Hlab in Hx. by apply elem_of_nil in Hx.
Qed.

Lemma block_tables (c : string) (h' : list groupNode) gt blk :
  block_of c h' gt blk ->
  Forall (fun t => Columns t = Columns gt.2) (blk.*2)
  /\ (is_Some (Const gt.2 c) -> blk.*2 = [gt.2]).
Proof.
  intros [vts [Hsp Hf]]. split.
  - apply Forall_fmap, Forall_forall. intros [cg ct] Hin. simpl.
    apply list_elem_of_lookup in Hin as [k Hk].
    destruct (Forall2_lookup_l _ _ _ _ _ Hf Hk) as [[v t'] [Hvt [Ht _]]].
    simpl in Ht. subst t'. apply list_elem_of_lookup_2 in Hvt.
    by destruct (splitTable_child _ _ _ _ _ Hsp Hvt) as (_ & ? & _).
  - intros [cv Hcv]. unfold Const in Hcv. unfold splitTable in Hsp.
    destruct (lookupCol gt.2 c) as [[cs|cv']|]; try done.
    injection Hsp as <-.
    apply Forall2_cons_inv_r in Hf as ([cg ct] & blk' & [Ht _] & Hnil & ->).
    apply Forall2_nil_inv_r in Hnil as ->. simpl in Ht. by subst ct.
Qed.

End UngroupGroupBy.

(** X13: [Ungroup] undoes the grouping structure of the most recent
    [GroupBy]: when every group of [g] has a row or holds [c] constant,
    [Ungroup(GroupBy(g, c))] has the GroupIDs of [g], in order, each with
    the column names of its table in [g]; a table that held [c] constant
    comes back unchanged. *)
Theorem Ungroup_GroupBy_groups (g : list (option nat * list (string * column)))
    (c : string) (h : list groupNode) out h' :
  grouping_wf h g -> GroupBy g [c] h = Ok (out, h') ->
  (forall gt, gt ∈ g -> Const gt.2 c <> None \/ colOf gt.2 c <> []) ->
  Tables (Ungroup h' out) = Tables g
  /\ Forall2 (fun gt ot => ot.1 = gt.1 /\ Columns ot.2 = Columns gt.2
                           /\ (is_Some (Const gt.2 c) -> ot.2 = gt.2))
       g (Ungroup h' out).
Proof.
  intros Hg Hgb Hrows.
  pose proof (GroupBy_wf _ _ _ _ _ Hg Hgb) as (Hnd' & _ & _).
  rewrite GroupBy_single in Hgb by done.
  destruct (regroup_blocks _ _ _ _ _ Hgb) as [[blocks [-> Hbl]] [Hids _]].
  destruct Hg as (Hnd & _ & _).
  assert (Hu : Ungroup h' (concat blocks)
               = zip_with (fun gid0 blk => (gid0, concatRows (blk.*2))) (Tables g) blocks).
  { apply Ungroup_blocks; [done|done| |].
    - rewrite Hids. apply Forall_fmap, Forall_forall. by intros a _.
    - unfold Tables. apply Forall2_fmap_l.
      apply Forall2_same_length_lookup. split; [by eapply Forall2_length|].
      intros i gt blk Hi Hb.
      pose proof (Forall2_lookup_lr _ _ _ _ _ _ Hbl Hi Hb) as Hblk. split.
      + eapply block_nonempty; [done|]. apply Hrows. by eapply list_elem_of_lookup_2.
      + apply Forall_forall. intros [cg ct] Hin. simpl.
        by eapply regroup_Parent. }
  rewrite Hu. clear Hu Hids Hnd' Hgb Hnd.
  assert (Hall : Forall2 (fun gt ot => ot.1 = gt.1 /\ Columns ot.2 = Columns gt.2
                             /\ (is_Some (Const gt.2 c) -> ot.2 = gt.2))
                   g (zip_with (fun gid0 blk => (gid0, concatRows (blk.*2)))
                        (Tables g) blocks)).
  { induction Hbl as [|gt blk g blocks Hblk _ IH]; [constructor|].
    unfold Tables. rewrite fmap_cons. cbn [zip_with]. constructor.
    - destruct (block_tables _ _ _ _ Hblk) as [Hcols Hconst]. simpl. split_and!.
      + done.
      + apply Columns_concatRows; [|done].
        intros Hnil. apply fmap_nil_inv in Hnil.
        eapply block_nonempty; [done| |done]. apply Hrows, list_elem_of_here.
      + intros Hc. by rewrite (Hconst Hc).
    - apply IH. intros gt' Hin. by apply Hrows, list_elem_of_further. }
  split; [|done]. clear Hbl Hrows.
  set (res := zip_with _ _ _) in *. clearbody res. unfold Tables.
  induction Hall as [|gt ot g res (Heq & _) _ IH]; [done|].
  rewrite !fmap_cons. f_equal; done.
Qed.

Lemma Ungroup_GroupBy_groups_witness :
  exists out h',
    GroupBy (ofTable twoKeysT) ["a"%string] [] = Ok (out, h')
    /\ Tables (Ungroup h' out) = Tables (ofTable twoKeysT)
    /\ Forall2 (fun gt ot => ot.1 = gt.1 /\ Columns ot.2 = Columns gt.2
                             /\ (is_Some (Const gt.2 "a") -> ot.2 = gt.2))
         (ofTable twoKeysT) (Ungroup h' out).
Proof.
  do 2 eexists. split; [vm_compute; reflexivity|].
  apply (Ungroup_GroupBy_groups (ofTable twoKeysT) "a" []).
  - apply ofTable_wf, twoKeysT_wf.
  - vm_compute; reflexivity.
  - intros gt ->%list_elem_of_singleton. right. by vm_compute.
Defined.

(** * Facets, continued *)

(** ** What an application leaves alone *)

Section FacetFrame.

Variable f : FacetCommon.
Variable dir : string.
Variable vals : gmap value valInfo.
Variable grouped : list (option nat * list (string * column)).

Lemma subplotsFor_prefix (sub : nat) (s : subplot) (nbands : list (option nat))
    (sc0 : gmap nat (list (option nat))) (sps0 : list subplot) nsubplots sc sps :
  subplotsFor dir vals sub s nbands sc0 sps0 = Ok (nsubplots, sc, sps) ->
  sps0 `prefix_of` sps.
Proof.
  unfold subplotsFor. destruct (sc0 !! sub) as [nsub0|]; [by intros [= _ _ <-]|].
  destruct (fillSubplots _ _ _ _ _ _ _ _) as [[nsub' sps']|] eqn:Hfill; [|done].
  simpl. intros [= _ _ <-].
  by destruct (fillSubplots_spec _ _ _ _ _ _ _ _ _ _ Hfill) as [? _].
Qed.

Lemma splitScale_scalers aes nband g ngid st :
  fscalers st `prefix_of` fscalers (splitScale aes nband g ngid st).
Proof.
  unfold splitScale. destruct (scalesC st !! _); simpl; [done|].
  by apply prefix_app_r.
Qed.

Lemma splitScales_scalers nband g ngid st :
  fscalers st `prefix_of` fscalers (splitScales f nband g ngid st)
  /\ (SplitXScales f = false -> SplitYScales f = false ->
      splitScales f nband g ngid st = st).
Proof.
  unfold splitScales. split.
  - destruct (SplitXScales f), (SplitYScales f); try done.
    + etrans; apply splitScale_scalers.
    + apply splitScale_scalers.
    + apply splitScale_scalers.
  - by intros -> ->.
Qed.

Lemma facetStep_grows (g : option nat) (st st' : facetState) :
  facetStep f dir vals grouped g st = Ok st' ->
  fnodes st `prefix_of` fnodes st' /\ fsubplots st `prefix_of` fsubplots st'
  /\ fbands st `prefix_of` fbands st' /\ fscalers st `prefix_of` fscalers st'
  /\ length (ndata st') = S (length (ndata st))
  /\ (SplitXScales f = false -> SplitYScales f = false ->
      fscalers st' = fscalers st /\ pscales st' = pscales st).
Proof.
  intros Hstep.
  destruct (facetStep_Ok _ _ _ _ _ _ _ Hstep)
    as (s & nbands & bc & bds & nsubplots & sc & sps & v & info & a & ns
        & _ & Hbf & Hsf & _ & _ & _ & _ & ->).
  destruct (bandsFor_spec _ _ _ _ _ _ _ Hbf) as (Hbds & _).
  pose proof (subplotsFor_prefix _ _ _ _ _ _ _ _ Hsf) as Hsps.
  set (st1 := (mapGroup grouped g a sc bc sps bds st).2).
  destruct (splitScales_frame f (facetedBand dir ns) g (Some (length (fnodes st))) st1)
    as (Hn & Hs & Hb & _ & _ & Hd).
  destruct (splitScales_scalers (facetedBand dir ns) g (Some (length (fnodes st))) st1)
    as [Hsc Hsame].
  rewrite Hn, Hs, Hb, Hd. unfold st1, mapGroup, Extend, GAdd in *. simpl in *.
  split_and!; [by apply prefix_app_r|done|done|done| |].
  - rewrite length_app. simpl. lia.
  - intros Hx Hy. by rewrite (Hsame Hx Hy).
Qed.

Lemma facetLoop_grows (gids : list (option nat)) (st st' : facetState) :
  facetLoop f dir vals grouped gids st = Ok st' ->
  fnodes st `prefix_of` fnodes st' /\ fsubplots st `prefix_of` fsubplots st'
  /\ fbands st `prefix_of` fbands st' /\ fscalers st `prefix_of` fscalers st'
  /\ length (ndata st') = length (ndata st) + length gids
  /\ (SplitXScales f = false -> SplitYScales f = false ->
      fscalers st' = fscalers st /\ pscales st' = pscales st).
Proof.
  revert st. induction gids as [|g gids IH]; intros st; simpl.
  - intros [= <-]. split_and!; (done || lia).
  - destruct (facetStep f dir vals grouped g st) as [st1|] eqn:Hstep; [|done].
    cbv beta iota delta [bind]. intros Hloop.
    destruct (facetStep_grows _ _ _ Hstep) as (H1 & H2 & H3 & H4 & H5 & H6).
    destruct (IH _ Hloop) as (I1 & I2 & I3 & I4 & I5 & I6).
    split_and!; [by etrans|by etrans|by etrans|by etrans|lia|].
    intros Hx Hy. destruct (H6 Hx Hy) as [<- <-]. by apply I6.
Qed.

End FacetFrame.

(** X14: an application of a facet changes no existing group node,
    subplot, band or scale object, it only allocates new ones; the new data
    has one group for every group of [GroupBy(data, Col)]; and when
    neither [SplitXScales] nor [SplitYScales] is set, no scale is cloned
    and no scale is set on any group. *)
Theorem apply_allocates_only (f : FacetCommon) (p : Plot) (dir : string) (m : mem)
    (p' : Plot) (m' : mem) :
  heap_wf (gnodes m) -> grouping_wf (gnodes m) (data p) ->
  apply f p dir m = Ok (p', m') ->
  gnodes m `prefix_of` gnodes m' /\ subplotsM m `prefix_of` subplotsM m'
  /\ bandsM m `prefix_of` bandsM m' /\ scalersM m `prefix_of` scalersM m'
  /\ (exists grouped h,
        GroupBy (data p) [Col f] (gnodes m) = Ok (grouped, h)
        /\ length (data p') = length grouped)
  /\ (SplitXScales f = false -> SplitYScales f = false ->
      scalersM m' = scalersM m /\ scaleAt p' = scaleAt p).
Proof.
  intros Hwf Hg Happ. unfold apply in Happ.
  destruct (GroupBy (data p) [Col f] (gnodes m)) as [[grouped h]|] eqn:Hgb; [|done].
  cbv beta iota delta [bind] in Happ.
  destruct (facetVals _ _ _) as [vals|]; [|done]. cbv beta iota delta [bind] in Happ.
  destruct (facetLoop _ _ _ _ _ _) as [st|] eqn:Hloop; [|done].
  injection Happ as <- <-. simpl.
  destruct (GroupBy_heap_wf _ _ _ _ _ Hwf Hg Hgb) as (_ & _ & Hpre).
  destruct (facetLoop_grows _ _ _ _ _ _ _ Hloop) as (H1 & H2 & H3 & H4 & H5 & H6).
  simpl in *. split_and!; [by etrans|done|done|done| |done].
  exists grouped, h. split; [done|]. rewrite H5. unfold Tables. by rewrite length_fmap.
Qed.

Lemma apply_allocates_only_witness :
  gnodes mem0 `prefix_of` gnodes facetMemX
  /\ subplotsM mem0 `prefix_of` subplotsM facetMemX
  /\ bandsM mem0 `prefix_of` bandsM facetMemX
  /\ scalersM mem0 `prefix_of` scalersM facetMemX
  /\ (exists grouped h,
        GroupBy (data facetPlot) [Col (facetBy "f1" false false)] (gnodes mem0)
        = Ok (grouped, h)
        /\ length (data facetPlotX) = length grouped)
  /\ (SplitXScales (facetBy "f1" false false) = false ->
      SplitYScales (facetBy "f1" false false) = false ->
      scalersM facetMemX = scalersM mem0 /\ scaleAt facetPlotX = scaleAt facetPlot).
Proof.
  apply (apply_allocates_only (facetBy "f1" false false) facetPlot "x" mem0).
  - apply heap_wf_nil.
  - apply ofTable_wf, facetT_wf.
  - by vm_compute.
Defined.

(** ** The panics of an application *)

Section FacetPanics.

Lemma Label_panic (h : list groupNode) (g : option nat) (p : panic) :
  Label h g = Panic p -> p = NilDereference.
Proof.
  destruct g as [a|]; simpl; [|by intros [= <-]].
  destruct (h !! a); [done|by intros [= <-]].
Qed.

Lemma collectVals_panic (h : list groupNode) (labeler : value -> string)
    (gids : list (option nat)) (vals : gmap value valInfo) (p : panic) :
  collectVals h labeler gids vals = Panic p -> p = NilDereference.
Proof.
  revert vals. induction gids as [|g gids IH]; intros vals; simpl; [done|].
  destruct (Label h g) as [v|p'] eqn:Hl; simpl.
  - destruct (vals !! v); apply IH.
  - intros [= <-]. by eapply Label_panic.
Qed.

Lemma facetVals_panic (h : list groupNode) (labeler : value -> string)
    (gids : list (option nat)) (p : panic) :
  facetVals h labeler gids = Panic p -> p = NilDereference \/ p = ReflectPanic.
Proof.
  unfold facetVals.
  destruct (collectVals h labeler gids ∅) as [vals0|p0] eqn:Hc; simpl.
  2:{ intros [= <-]. left. by eapply collectVals_panic. }
  unfold firstType. destruct gids as [|g gids]; simpl.
  { intros [= <-]. by left. }
  destruct (Label h g) as [v|p1] eqn:Hl; simpl.
  2:{ intros [= <-]. left. by eapply Label_panic. }
  destruct (TypeOf v) as [k|]; simpl; [|intros [= <-]; by left].
  unfold orderVals. destruct (CanOrderR k); [|done].
  destruct (forallb _ _); [done|]. intros [= <-]. by right.
Qed.

Lemma fillBands_panic (band : option nat) (infos : list valInfo)
    (nbs : list (option nat)) (bds : list subplotBand) (p : panic) :
  fillBands band infos nbs bds = Panic p -> p = IndexOutOfRange.
Proof.
  revert nbs bds. induction infos as [|info infos IH]; intros nbs bds; simpl; [done|].
  case_decide; [apply IH|by intros [= <-]].
Qed.

Lemma fillSubplots_panic (dir : string) (sub : nat) (s : subplot) (n : nat)
    (nbands : list (option nat)) (infos : list valInfo)
    (nsub : list (option nat)) (sps : list subplot) (p : panic) :
  fillSubplots dir sub s n nbands infos nsub sps = Panic p -> p = IndexOutOfRange.
Proof.
  revert nsub sps. induction infos as [|info infos IH]; intros nsub sps; simpl; [done|].
  destruct (nbands !! index info); [|by intros [= <-]].
  case_decide; [apply IH|by intros [= <-]].
Qed.

Lemma facetStep_panic (f : FacetCommon) (dir : string) (vals : gmap value valInfo)
    (grouped : list (option nat * list (string * column))) (g : option nat)
    (st : facetState) (p : panic) :
  facetStep f dir vals grouped g st = Panic p ->
  p = NilDereference \/ p = IndexOutOfRange.
Proof.
  unfold facetStep.
  destruct (fsubplots st !! subplotOf (fnodes st) g) as [s|]; [|intros [= <-]; by left].
  unfold bandsFor. destruct (bandsC st !! facetedBand dir s) as [nbs|].
  - cbv beta iota delta [bind]. unfold subplotsFor.
    destruct (subplotsC st !! _) as [nsub|]; cbv beta iota delta [bind].
    + destruct (Label (fnodes st) g) as [v|p'] eqn:Hl; cbv beta iota delta [bind].
      2:{ intros [= <-]. left. by eapply Label_panic. }
      destruct (vals !! v); [|intros [= <-]; by left].
      destruct (nsub !! _) as [[a|]|]; [|intros [= <-]; by left|intros [= <-]; by right].
      unfold mapGroup, Extend. destruct (fsubplots st !! a); [done|intros [= <-]; by left].
    + destruct (fillSubplots _ _ _ _ _ _ _ _) as [[nsub' sps']|p'] eqn:Hfs;
        cbv beta iota delta [bind].
      2:{ intros [= <-]. right. by eapply fillSubplots_panic. }
      destruct (Label (fnodes st) g) as [v|p'] eqn:Hl; cbv beta iota delta [bind].
      2:{ intros [= <-]. left. by eapply Label_panic. }
      destruct (vals !! v); [|intros [= <-]; by left].
      destruct (nsub' !! _) as [[a|]|]; [|intros [= <-]; by left|intros [= <-]; by right].
      unfold mapGroup, Extend. destruct (sps' !! a); [done|intros [= <-]; by left].
  - destruct (fillBands _ _ _ _) as [[nbs' bds']|p'] eqn:Hfb; cbv beta iota delta [bind].
    2:{ intros [= <-]. right. by eapply fillBands_panic. }
    unfold subplotsFor.
    destruct (subplotsC st !! _) as [nsub|]; cbv beta iota delta [bind].
    + destruct (Label (fnodes st) g) as [v|p'] eqn:Hl; cbv beta iota delta [bind].
      2:{ intros [= <-]. left. by eapply Label_panic. }
      destruct (vals !! v); [|intros [= <-]; by left].
      destruct (nsub !! _) as [[a|]|]; [|intros [= <-]; by left|intros [= <-]; by right].
      unfold mapGroup, Extend. destruct (fsubplots st !! a); [done|intros [= <-]; by left].
    + destruct (fillSubplots _ _ _ _ _ _ _ _) as [[nsub' sps']|p'] eqn:Hfs;
        cbv beta iota delta [bind].
      2:{ intros [= <-]. right. by eapply fillSubplots_panic. }
      destruct (Label (fnodes st) g) as [v|p'] eqn:Hl; cbv beta iota delta [bind].
      2:{ intros [= <-]. left. by eapply Label_panic. }
      destruct (vals !! v); [|intros [= <-]; by left].
      destruct (nsub' !! _) as [[a|]|]; [|intros [= <-]; by left|intros [= <-]; by right].
      unfold mapGroup, Extend. destruct (sps' !! a); [done|intros [= <-]; by left].
Qed.

Lemma facetLoop_panic (f : FacetCommon) (dir : string) (vals : gmap value valInfo)
    (grouped : list (option nat * list (string * column))) (gids : list (option nat))
    (st : facetState) (p : panic) :
  facetLoop f dir vals grouped gids st = Panic p ->
  p = NilDereference \/ p = IndexOutOfRange.
Proof.
  revert st. induction gids as [|g gids IH]; intros st; simpl; [done|].
  destruct (facetStep f dir vals grouped g st) as [st1|p'] eqn:Hstep; simpl.
  - apply IH.
  - intros [= <-]. by eapply facetStep_panic.
Qed.

End FacetPanics.

(** X15: an application of a facet fails with "unknown column" exactly
    when the table of some group of the plot has the column [Col] neither
    as an ordinary column nor as a constant; the column it then names is
    [Col], and nothing else in the application reports an unknown column. *)
Theorem apply_unknown_column (f : FacetCommon) (p : Plot) (dir : string) (m : mem) :
  grouping_wf (gnodes m) (data p) ->
  (apply f p dir m = Panic (UnknownColumn (Col f))
   <-> exists t, t ∈ (data p).*2 /\ Const t (Col f) = None /\ Column t (Col f) = None)
  /\ forall c, apply f p dir m = Panic (UnknownColumn c) -> c = Col f.
Proof.
  intros Hg.
  assert (Hcases : forall c, apply f p dir m = Panic (UnknownColumn c) ->
            GroupBy (data p) [Col f] (gnodes m) = Panic (UnknownColumn c)).
  { intros c. unfold apply.
    destruct (GroupBy (data p) [Col f] (gnodes m)) as [[grouped h]|p0].
    2:{ cbv beta iota zeta delta [bind]. by intros [= ->]. }
    cbv beta iota zeta delta [bind].
    destruct (facetVals _ _ _) as [vals|p1] eqn:Hfv; cbv beta iota delta [bind].
    2:{ intros [= ->]. by destruct (facetVals_panic _ _ _ _ Hfv). }
    destruct (facetLoop _ _ _ _ _ _) as [st|p2] eqn:Hloop; cbv beta iota delta [bind];
      [done|].
    intros [= ->]. by destruct (facetLoop_panic _ _ _ _ _ _ _ Hloop). }
  assert (Hgb : forall c, GroupBy (data p) [Col f] (gnodes m) = Panic (UnknownColumn c)
                <-> c = Col f /\ exists t, t ∈ (data p).*2
                                    /\ Const t (Col f) = None /\ Column t (Col f) = None).
  { intros c. rewrite GroupBy_single by done. rewrite regroup_Panic. split.
    - intros [[= ->] [t [Hin Hl]]]. split; [done|]. exists t. split; [done|].
      by apply lookupCol_None_api.
    - intros [-> [t [Hin Hl]]]. split; [done|]. exists t. split; [done|].
      by apply lookupCol_None_api. }
  split.
  - split.
    + intros Happ. by apply Hcases, Hgb in Happ as [_ ?].
    + intros Hex. unfold apply.
      by rewrite (proj2 (Hgb (Col f)) (conj eq_refl Hex)).
  - intros c Happ. by apply Hcases, Hgb in Happ as [? _].
Qed.

Lemma apply_unknown_column_witness :
  (apply (facetBy "zz" false false) facetPlot "x" mem0 = Panic (UnknownColumn "zz")
   <-> exists t, t ∈ (data facetPlot).*2 /\ Const t "zz" = None /\ Column t "zz" = None)
  /\ forall c, apply (facetBy "zz" false false) facetPlot "x" mem0
               = Panic (UnknownColumn c) -> c = "zz"%string.
Proof.
  apply (apply_unknown_column (facetBy "zz" false false) facetPlot "x" mem0).
  apply ofTable_wf, facetT_wf.
Defined.

(** ** The indices of the facet values *)

(** The values [order], in this order, are the keys of [vals]: the value
    at position [i] has index [i] and the label the labeler gives it. *)
Definition valsOf (labeler : value -> string) (order : list value)
    (vals : gmap value valInfo) : Prop :=
  NoDup order /\ size vals = length order
  /\ forall v info, vals !! v = Some info
       <-> (order !! index info = Some v /\ vlabel info = labeler v).

Section FacetOrder.

Variable h : list groupNode.
Variable labeler : value -> string.

Lemma valsOf_elem (order : list value) (vals : gmap value valInfo) (v : value) :
  valsOf labeler order vals -> (v ∈ order <-> is_Some (vals !! v)).
Proof.
  intros (Hnd & _ & Hiff). split.
  - intros [i Hi]%list_elem_of_lookup.
    exists {| index := i; vlabel := labeler v |}. by apply Hiff.
  - intros [info [Hi _]%Hiff]. by eapply list_elem_of_lookup_2.
Qed.

Lemma collectVals_firsts (gids : list (option nat)) (vals0 vals : gmap value valInfo)
    (seen : list value) :
  collectVals h labeler gids vals0 = Ok vals -> valsOf labeler seen vals0 ->
  exists labels,
    Forall2 (fun g v => Label h g = Ok v) gids labels
    /\ valsOf labeler (foldl firstsStep seen labels) vals.
Proof.
  revert vals0 seen. induction gids as [|g gids IH]; intros vals0 seen; simpl.
  - intros [= <-] Hinv. exists []. by split.
  - destruct (Label h g) as [v0|] eqn:Hl; [|done]. cbv beta iota delta [bind].
    intros Hc Hinv. pose proof (valsOf_elem _ _ v0 Hinv) as Hmem.
    destruct (vals0 !! v0) as [info0|] eqn:Hv0.
    + destruct (IH _ _ Hc Hinv) as (labels & Hf & Hfin).
      exists (v0 :: labels). split; [by constructor|].
      simpl. unfold firstsStep at 2. rewrite decide_True; [done|].
      apply Hmem. eauto.
    + assert (Hnin : v0 ∉ seen).
      { intros Hin%Hmem. by destruct Hin. }
      destruct Hinv as (Hnd & Hsize & Hiff).
      destruct (IH _ (seen ++ [v0]) Hc) as (labels & Hf & Hfin).
      { split_and!.
        - apply NoDup_app. split_and!; [done| |apply NoDup_singleton].
          intros x Hx ->%list_elem_of_singleton. done.
        - rewrite map_size_insert_None by done. rewrite length_app. simpl. lia.
        - intros v info. destruct (decide (v = v0)) as [->|Hne].
          + rewrite lookup_insert_eq. split.
            * intros [= <-]. simpl. rewrite Hsize. split; [|done].
              by rewrite list_lookup_middle.
            * intros [Hi Hlab]. destruct info as [i lab]. simpl in *. subst lab.
              do 2 f_equal. rewrite Hsize.
              destruct (decide (i < length seen)) as [Hlt|Hge].
              -- rewrite lookup_app_l in Hi by done.
                 exfalso. apply Hnin. by eapply list_elem_of_lookup_2.
              -- apply lookup_lt_Some in Hi. rewrite length_app in Hi. simpl in Hi. lia.
          + rewrite lookup_insert_ne by done. rewrite Hiff. split.
            * intros [Hi Hlab]. split; [|done]. by apply lookup_app_l_Some.
            * intros [Hi Hlab]. split; [|done].
              apply lookup_app_Some in Hi as [Hi|[_ Hi]]; [done|].
              apply list_lookup_singleton_Some in Hi as [_ ?]. congruence. }
      exists (v0 :: labels). split; [by constructor|].
      simpl. unfold firstsStep at 2. by rewrite decide_False.
Qed.

#[local] Instance value_le_total : Total value_le.
Proof.
  intros a b. unfold value_le, value_leb. destruct a, b; try (by left).
  - destruct (Z.leb_spec z z0); [by left|right]. apply Z.leb_le. lia.
  - apply String.leb_total.
Qed.

Lemma value_le_trans (k : kind) (a b c : value) :
  CanOrderR k = true ->
  TypeOf a = Some k -> TypeOf b = Some k -> TypeOf c = Some k ->
  value_le a b -> value_le b c -> value_le a c.
Proof.
  unfold value_le, value_leb.
  destruct k; try done; destruct a, b, c; try done; intros _ _ _ _ Hab Hbc.
  - apply Z.leb_le in Hab, Hbc. apply Z.leb_le. lia.
  - apply Is_true_true in Hab, Hbc. apply Is_true_true.
    by apply (transitivity (R := String.le) (y := s0)).
Qed.

Lemma Sorted_pairwise (k : kind) (l : list value) :
  CanOrderR k = true -> Forall (fun v => TypeOf v = Some k) l -> Sorted value_le l ->
  forall i j vi vj, i < j -> l !! i = Some vi -> l !! j = Some vj -> value_le vi vj.
Proof.
  intros Hk Hty Hs.
  assert (Hss : StronglySorted value_le l).
  { induction Hs as [|x l Hs IH Hhd]; [constructor|].
    apply Forall_cons in Hty as [Hx Hty]. specialize (IH Hty).
    constructor; [done|].
    destruct Hhd as [|y l Hxy]; [constructor|].
    apply Forall_cons in Hty as [Hy Hty].
    apply StronglySorted_inv in IH as [_ Hall].
    constructor; [done|].
    apply Forall_forall. intros z Hz.
    eapply (value_le_trans k x y z); try done.
    - by apply (proj1 (Forall_forall _ _) Hty).
    - by apply (proj1 (Forall_forall _ _) Hall). }
  clear Hs Hty. induction Hss as [|x l _ IH Hall]; intros i j vi vj Hij Hi Hj.
  - by rewrite lookup_nil in Hi.
  - destruct j as [|j]; [lia|]. simpl in Hj. destruct i as [|i]; simpl in Hi.
    + injection Hi as <-. apply (proj1 (Forall_forall _ _) Hall).
      by eapply list_elem_of_lookup_2.
    + apply (IH i j); [lia|done|done].
Qed.

Lemma orderVals_order (k : kind) (vals0 vals : gmap value valInfo)
    (order0 : list value) :
  orderVals k vals0 = Ok vals -> valsOf labeler order0 vals0 ->
  exists order,
    order ≡ₚ order0 /\ valsOf labeler order vals
    /\ if CanOrderR k
       then forall i j vi vj, i < j -> order !! i = Some vi -> order !! j = Some vj ->
              value_le vi vj
       else order = order0.
Proof.
  unfold orderVals. intros Ho Hinv.
  destruct (CanOrderR k) eqn:Hk.
  2:{ injection Ho as <-. by exists order0. }
  destruct (forallb _ _) eqn:Hall; [|done]. injection Ho as <-.
  set (keys := (map_to_list vals0).*1) in *.
  assert (Hkeys : forall v, v ∈ keys <-> is_Some (vals0 !! v)).
  { intros v. unfold keys. rewrite list_elem_of_fmap. split.
    - intros [[v' info] [-> Hm%elem_of_map_to_list]]. by exists info.
    - intros [info Hv]. exists (v, info). split; [done|].
      by apply elem_of_map_to_list. }
  assert (Hndk : NoDup keys) by apply NoDup_fst_map_to_list.
  assert (Hperm : Sort keys ≡ₚ order0).
  { unfold Sort. rewrite merge_sort_Permutation.
    apply NoDup_Permutation; [done|by destruct Hinv|].
    intros v. by rewrite Hkeys, (valsOf_elem _ _ v Hinv). }
  assert (Hnd : NoDup (Sort keys)) by by rewrite Hperm; destruct Hinv.
  exists (Sort keys). split_and!; [done| |].
  - destruct Hinv as (Hnd0 & Hsize & Hiff). split_and!; [done| |].
    + rewrite <- size_dom, setIndices_dom, size_dom, Hsize.
      symmetry. by apply Permutation_length.
    + intros v info. split.
      * intros Hv.
        assert (Hin : v ∈ Sort keys).
        { rewrite Hperm. apply (valsOf_elem order0 vals0).
          { by split_and!. }
          destruct (vals0 !! v) eqn:Hv0; [eauto|].
          assert (Hd : v ∈ dom (setIndices (Sort keys) 0 vals0))
            by (apply elem_of_dom; eauto).
          rewrite setIndices_dom in Hd. apply elem_of_dom in Hd.
          rewrite Hv0 in Hd. by destruct Hd. }
        apply list_elem_of_lookup in Hin as [j Hj].
        rewrite (setIndices_lookup _ 0 j vals0 v Hnd Hj) in Hv.
        destruct (vals0 !! v) as [info0|] eqn:Hv0; [|done].
        simpl in Hv. injection Hv as <-. simpl.
        split; [done|]. by apply Hiff in Hv0 as [_ ?].
      * intros [Hi Hlab].
        rewrite (setIndices_lookup _ 0 (index info) vals0 v Hnd Hi).
        assert (Hin : v ∈ keys).
        { apply (elem_of_Permutation_proper _ _ _ (merge_sort_Permutation value_le keys)).
          by eapply list_elem_of_lookup_2. }
        apply Hkeys in Hin as [info0 Hv0]. rewrite Hv0. simpl.
        apply Hiff in Hv0 as [_ Hl0]. destruct info as [i lab]. simpl in *.
        by rewrite Hl0, Hlab.
  - apply (Sorted_pairwise k); [done| |apply (Sorted_merge_sort _)].
    apply Forall_forall. intros v Hv.
    assert (Hin : v ∈ keys).
    { by apply (elem_of_Permutation_proper _ _ _ (merge_sort_Permutation value_le keys)). }
    rewrite forallb_forall in Hall. apply list_elem_of_In in Hin.
    specialize (Hall v Hin). by apply bool_decide_eq_true in Hall.
Qed.

End FacetOrder.

(** X16: the indices of the facet values.  [vals] has one entry for every
    distinct label of the groups; the entries' indices are [0] to
    [len(vals)-1], each once, and an entry's label is [Labeler] of its
    value.  When the kind of the first group's label is orderable the
    index order is the value order; otherwise it is the order in which
    the values first occur among the groups. *)
Theorem facetVals_indices (h : list groupNode) (labeler : value -> string)
    (gids : list (option nat)) (vals : gmap value valInfo) :
  facetVals h labeler gids = Ok vals ->
  exists labels order v0 k,
    Forall2 (fun g v => Label h g = Ok v) gids labels
    /\ head labels = Some v0 /\ TypeOf v0 = Some k
    /\ order ≡ₚ firsts labels /\ length order = size vals
    /\ (forall v info, vals !! v = Some info
          <-> (order !! index info = Some v /\ vlabel info = labeler v))
    /\ if CanOrderR k
       then forall i j vi vj, i < j -> order !! i = Some vi -> order !! j = Some vj ->
              value_le vi vj /\ vi <> vj
       else order = firsts labels.
Proof.
  unfold facetVals.
  destruct (collectVals h labeler gids ∅) as [vals0|] eqn:Hc; [|done].
  cbv beta iota delta [bind].
  destruct (firstType h gids) as [t|] eqn:Hft; [|done]. cbv beta iota delta [bind].
  destruct (Kind t) as [k|] eqn:Hkind; [|done]. cbv beta iota delta [bind].
  intros Ho.
  destruct (collectVals_firsts h labeler gids ∅ vals0 [] Hc) as (labels & Hf & Hinv).
  { split_and!; [constructor|done|]. intros v info. rewrite lookup_empty. split; [done|].
    intros [Hi _]. by rewrite lookup_nil in Hi. }
  fold (firsts labels) in Hinv.
  destruct (orderVals_order labeler k vals0 vals _ Ho Hinv) as (order & Hperm & Hinv' & Hord).
  destruct t as [k'|]; [|done]. injection Hkind as ->.
  unfold firstType in Hft. destruct Hf as [|g v0 gids labels Hl Hf]; [done|].
  rewrite Hl in Hft. cbv beta iota delta [bind] in Hft. injection Hft as Hty.
  exists (v0 :: labels), order, v0, k.
  destruct Hinv' as (Hnd & Hsize & Hiff).
  split_and!; [by constructor|done|done|done|done|done|].
  destruct (CanOrderR k); [|done].
  intros i j vi vj Hij Hi Hj. split; [by eapply Hord|].
  intros ->. assert (i = j) by by eapply NoDup_lookup. lia.
Qed.

Lemma facetVals_indices_witness :
  exists vals labels order v0 k,
    facetVals facetHeapF1 (Sprint []) [Some 0; Some 1] = Ok vals
    /\ Forall2 (fun g v => Label facetHeapF1 g = Ok v) [Some 0; Some 1] labels
    /\ head labels = Some v0 /\ TypeOf v0 = Some k
    /\ order ≡ₚ firsts labels /\ length order = size vals
    /\ (forall v info, vals !! v = Some info
          <-> (order !! index info = Some v /\ vlabel info = Sprint [] v))
    /\ if CanOrderR k
       then forall i j vi vj, i < j -> order !! i = Some vi -> order !! j = Some vj ->
              value_le vi vj /\ vi <> vj
       else order = firsts labels.
Proof.
  eexists.
  destruct (facetVals_indices facetHeapF1 (Sprint []) [Some 0; Some 1] _
              ltac:(vm_compute; reflexivity))
    as (labels & order & v0 & k & H).
  exists labels, order, v0, k. split; [vm_compute; reflexivity|exact H].
Defined.

(** ** Where the new subplots lie *)

(** The coordinate of a subplot along the faceted direction. *)
Definition facetedPos (dir : string) (s : subplot) : Z :=
  if String.eqb dir "x" then sx s else sy s.

(** X17: along the faceted direction the subplots of a facet do not
    collide: as long as the positions fit a Go [int], two new subplots have
    the same coordinate only if the subplots they split have the same
    coordinate and they stand for the same value index. *)
Theorem newSubplot_positions_distinct (dir : string) (n : nat)
    (sub1 sub2 : nat) (s1 s2 : subplot) (idx1 idx2 : nat) (nb1 nb2 : option nat) :
  idx1 < n -> idx2 < n ->
  (0 <= facetedPos dir s1)%Z -> (0 <= facetedPos dir s2)%Z ->
  (facetedPos dir s1 * Z.of_nat n + Z.of_nat n <= 2 ^ 63)%Z ->
  (facetedPos dir s2 * Z.of_nat n + Z.of_nat n <= 2 ^ 63)%Z ->
  facetedPos dir (newSubplot dir sub1 s1 n idx1 nb1)
  = facetedPos dir (newSubplot dir sub2 s2 n idx2 nb2) ->
  facetedPos dir s1 = facetedPos dir s2 /\ idx1 = idx2.
Proof.
  unfold facetedPos, newSubplot.
  change (2 ^ 63)%Z with 9223372036854775808%Z.
  intros H1 H2 Hp1 Hp2 Hb1 Hb2.
  assert (Hex : forall pos idx, idx < n -> (0 <= pos)%Z ->
            (pos * Z.of_nat n + Z.of_nat n <= 9223372036854775808)%Z ->
            int_add (int_mul pos (Z.of_nat n)) (Z.of_nat idx)
            = (pos * Z.of_nat n + Z.of_nat idx)%Z).
  { intros pos idx Hi Hp Hb. apply int_add_mul_exact;
      change (2 ^ 63)%Z with 9223372036854775808%Z; nia. }
  destruct (dir =? "x")%string; simpl; rewrite !Hex by done; intros Heq.
  - assert (sx s1 = sx s2) by nia. split; [done|]. nia.
  - assert (sy s1 = sy s2) by nia. split; [done|]. nia.
Qed.

Lemma newSubplot_positions_distinct_witness :
  facetedPos "x" rootSubplotValue = facetedPos "x" rootSubplotValue /\ 1 = 1.
Proof.
  apply (newSubplot_positions_distinct "x" 2 0 0 rootSubplotValue rootSubplotValue
           1 1 None None); try (simpl; lia); try done.
Defined.

(** ** Every subplot and every band is split once *)

(** The band, along the faceted direction, of the subplot the group [g]
    sits in. *)
Definition bandOfGroup (dir : string) (h : list groupNode) (sps : list subplot)
    (g : option nat) : option nat :=
  match sps !! subplotOf h g with
  | Some s => facetedBand dir s
  | None => None
  end.

Section SplitOnce.

Variable f : FacetCommon.
Variable dir : string.
Variable vals : gmap value valInfo.
Variable grouped : list (option nat * list (string * column)).
Variable h : list groupNode.
Variable sps0 : list subplot.
Variable bds0 : list subplotBand.
Hypothesis h_wf : heap_wf h.

Definition onceInv (done : list (option nat)) (st : facetState) : Prop :=
  h `prefix_of` fnodes st
  /\ length (fsubplots st) = length sps0 + size vals * size (dom (subplotsC st))
  /\ length (fbands st) = length bds0 + size vals * size (dom (bandsC st))
  /\ dom (subplotsC st) = list_to_set (subplotOf h <$> done)
  /\ dom (bandsC st) = list_to_set (bandOfGroup dir h (fsubplots st) <$> done)
  /\ Forall (fun g => is_Some (fsubplots st !! subplotOf h g)) done.

Lemma length_rangeVals : length (rangeVals vals) = size vals.
Proof. unfold rangeVals. by rewrite length_fmap, length_map_to_list. Qed.

Lemma fillSubplots_length (sub : nat) (s : subplot) (n : nat)
    (nbands : list (option nat)) (infos : list valInfo)
    (nsub : list (option nat)) (sps : list subplot) nsub' sps' :
  fillSubplots dir sub s n nbands infos nsub sps = Ok (nsub', sps') ->
  length sps' = length sps + length infos.
Proof.
  revert nsub sps. induction infos as [|info infos IH]; intros nsub sps; simpl.
  - intros [= _ <-]. lia.
  - destruct (nbands !! index info); [|done]. case_decide; [|done].
    intros Hrec%IH. rewrite length_app in Hrec. simpl in Hrec. lia.
Qed.

Lemma fillBands_length (band : option nat) (infos : list valInfo)
    (nbs : list (option nat)) (bds : list subplotBand) nbs' bds' :
  fillBands band infos nbs bds = Ok (nbs', bds') ->
  length bds' = length bds + length infos.
Proof.
  revert nbs bds. induction infos as [|info infos IH]; intros nbs bds; simpl.
  - intros [= _ <-]. lia.
  - case_decide; [|done].
    intros Hrec%IH. rewrite length_app in Hrec. simpl in Hrec. lia.
Qed.

Lemma size_dom_insert_new `{Countable K} {A} (m : gmap K A) (k : K) (x : A) :
  m !! k = None -> size (dom (<[k := x]> m)) = S (size (dom m)).
Proof. intros Hk. by rewrite !size_dom, map_size_insert_None. Qed.

Lemma dom_cached `{Countable K} {A} (m : gmap K A) (k : K) (x : A) :
  m !! k = Some x -> dom m = {[k]} ∪ dom m.
Proof.
  intros Hk. apply set_eq. intros y. rewrite elem_of_union, elem_of_singleton.
  split; [by right|]. intros [->|?]; [|done]. apply elem_of_dom. eauto.
Qed.

Lemma subplotsFor_count (sub : nat) (s : subplot) (nbands : list (option nat))
    (sc0 : gmap nat (list (option nat))) (sps1 : list subplot) nsubplots sc sps :
  subplotsFor dir vals sub s nbands sc0 sps1 = Ok (nsubplots, sc, sps) ->
  dom sc = {[sub]} ∪ dom sc0
  /\ length sps + size vals * size (dom sc0)
     = length sps1 + size vals * size (dom sc).
Proof.
  unfold subplotsFor. destruct (sc0 !! sub) as [nsub0|] eqn:Hsub.
  - intros [= _ <- <-]. split; [by eapply dom_cached|done].
  - destruct (fillSubplots _ _ _ _ _ _ _ _) as [[nsub' sps']|] eqn:Hfill; [|done].
    simpl. intros [= _ <- <-].
    apply fillSubplots_length in Hfill. rewrite length_rangeVals in Hfill.
    rewrite size_dom_insert_new by done. split; [by rewrite dom_insert_L|]. nia.
Qed.

Lemma bandsFor_count (band : option nat)
    (bc : gmap (option nat) (list (option nat))) (bds : list subplotBand)
    nbands bc' bds' :
  bandsFor vals band bc bds = Ok (nbands, bc', bds') ->
  dom bc' = {[band]} ∪ dom bc
  /\ length bds' + size vals * size (dom bc) = length bds + size vals * size (dom bc').
Proof.
  unfold bandsFor. destruct (bc !! band) as [nbs0|] eqn:Hb.
  - intros [= _ <- <-]. split; [by eapply dom_cached|done].
  - destruct (fillBands _ _ _ _) as [[nbs' bds1]|] eqn:Hfill; [|done].
    simpl. intros [= _ <- <-].
    apply fillBands_length in Hfill. rewrite length_rangeVals in Hfill.
    rewrite size_dom_insert_new by done. split; [by rewrite dom_insert_L|]. nia.
Qed.

Lemma bandOfGroup_prefix (sps sps' : list subplot) (g : option nat) :
  sps `prefix_of` sps' -> is_Some (sps !! subplotOf h g) ->
  bandOfGroup dir h sps' g = bandOfGroup dir h sps g.
Proof.
  intros Hpre [s Hs]. unfold bandOfGroup.
  by rewrite Hs, (prefix_lookup_Some _ _ _ _ Hs Hpre).
Qed.

Lemma onceInv_step (done : list (option nat)) (g : option nat) (st st' : facetState) :
  allocated h g -> onceInv done st ->
  facetStep f dir vals grouped g st = Ok st' ->
  onceInv (done ++ [g]) st'.
Proof.
  intros Hal (Hpre & Hlen & Hlenb & Hdom & Hdomb & Hsome) Hstep.
  destruct (facetStep_Ok _ _ _ _ _ _ _ Hstep)
    as (s & nbands & bc & bds & nsubplots & sc & sps & v & info & a & ns
        & Hs & Hbf & Hsf & _ & _ & _ & _ & ->).
  rewrite (subplotOf_stable h (fnodes st) g h_wf Hpre Hal) in Hs, Hsf.
  destruct (bandsFor_count _ _ _ _ _ _ Hbf) as [Hdb Hlb].
  destruct (subplotsFor_count _ _ _ _ _ _ _ _ Hsf) as [Hds Hls].
  pose proof (subplotsFor_prefix _ _ _ _ _ _ _ _ _ _ Hsf) as Hsps.
  set (st1 := (mapGroup grouped g a sc bc sps bds st).2).
  destruct (splitScales_frame f (facetedBand dir ns) g (Some (length (fnodes st))) st1)
    as (Hn & Hsp & Hb & Hsc & Hbc & _).
  unfold onceInv. rewrite Hn, Hsp, Hb, Hsc, Hbc.
  unfold st1, mapGroup, Extend. cbn [snd fnodes fsubplots fbands subplotsC bandsC].
  assert (Hkeep : Forall (fun g0 => bandOfGroup dir h sps g0
                                    = bandOfGroup dir h (fsubplots st) g0) done).
  { eapply Forall_impl; [exact Hsome|]. intros g0 Hg0. by apply bandOfGroup_prefix. }
  split_and!.
  - etrans; [done|]. by apply prefix_app_r.
  - lia.
  - lia.
  - rewrite Hds, Hdom, fmap_app, list_to_set_app_L.
    change (subplotOf h <$> [g]) with [subplotOf h g].
    rewrite list_to_set_singleton_L. apply set_eq. intros x.
    rewrite !elem_of_union. tauto.
  - assert (Hbg : bandOfGroup dir h sps g = facetedBand dir s).
    { unfold bandOfGroup. by rewrite (prefix_lookup_Some _ _ _ _ Hs Hsps). }
    rewrite Hdb, Hdomb, fmap_app, list_to_set_app_L.
    rewrite (Forall_fmap_ext_1 _ _ _ Hkeep).
    change (bandOfGroup dir h sps <$> [g]) with [bandOfGroup dir h sps g].
    rewrite list_to_set_singleton_L, Hbg. apply set_eq. intros x.
    rewrite !elem_of_union. tauto.
  - apply Forall_app. split.
    + eapply Forall_impl; [exact Hsome|]. intros g0 [s0 Hs0].
      exists s0. by eapply prefix_lookup_Some.
    + constructor; [|constructor]. exists s. by eapply prefix_lookup_Some.
Qed.

Lemma onceInv_loop (gids done : list (option nat)) (st st' : facetState) :
  Forall (allocated h) gids -> onceInv done st ->
  facetLoop f dir vals grouped gids st = Ok st' ->
  onceInv (done ++ gids) st'.
Proof.
  revert done st. induction gids as [|g gids IH]; intros done st Hal Hinv; simpl.
  - intros [= <-]. by rewrite app_nil_r.
  - apply Forall_cons in Hal as [Hg Hal].
    destruct (facetStep f dir vals grouped g st) as [st1|] eqn:Hstep; [|done].
    cbv beta iota delta [bind]. intros Hloop.
    replace (done ++ g :: gids) with ((done ++ [g]) ++ gids) by by rewrite <- app_assoc.
    eapply IH; [done| |done]. by eapply onceInv_step.
Qed.

End SplitOnce.

(** X18: a facet application splits every subplot that holds a group once,
    into [len(vals)] new subplots, however many groups the subplot holds,
    and every band of such a subplot once, into [len(vals)] new bands:
    the numbers of subplots and of bands grow by [len(vals)] times the
    number of distinct subplots, respectively bands, of the groups. *)
Theorem apply_splits_once (f : FacetCommon) (p : Plot) (dir : string) (m : mem)
    (p' : Plot) (m' : mem) grouped h vals :
  heap_wf (gnodes m) -> grouping_wf (gnodes m) (data p) ->
  apply f p dir m = Ok (p', m') ->
  GroupBy (data p) [Col f] (gnodes m) = Ok (grouped, h) ->
  facetVals h (default (Sprint (subplotsM m)) (Labeler f)) (Tables grouped) = Ok vals ->
  length (subplotsM m')
  = length (subplotsM m)
    + size vals * size (list_to_set (subplotOf h <$> Tables grouped) : gset nat)
  /\ length (bandsM m')
     = length (bandsM m)
       + size vals
         * size (list_to_set (bandOfGroup dir h (subplotsM m') <$> Tables grouped)
                 : gset (option nat)).
Proof.
  intros Hwf Hg Happ Hgb Hvals. unfold apply in Happ.
  rewrite Hgb in Happ. cbv beta iota zeta delta [bind] in Happ.
  rewrite Hvals in Happ. cbv beta iota delta [bind] in Happ.
  destruct (facetLoop _ _ _ _ _ _) as [st|] eqn:Hloop; [|done].
  injection Happ as <- <-. simpl.
  destruct (GroupBy_heap_wf _ _ _ _ _ Hwf Hg Hgb) as (Hwfh & (_ & Hal & _) & _).
  assert (Hinv0 : onceInv dir vals h (subplotsM m) (bandsM m) []
                    {| fnodes := h; fsubplots := subplotsM m; fbands := bandsM m;
                       fscalers := scalersM m; subplotsC := ∅; bandsC := ∅;
                       scalesC := ∅; ndata := []; pscales := scaleAt p |}).
  { unfold onceInv. simpl. rewrite !dom_empty_L.
    split_and!; try done; rewrite size_empty; lia. }
  destruct (onceInv_loop f dir vals grouped h (subplotsM m) (bandsM m) Hwfh
              (Tables grouped) [] _ _ Hal Hinv0 Hloop)
    as (_ & Hlen & Hlenb & Hdom & Hdomb & _).
  simpl in *. by rewrite Hlen, Hlenb, Hdom, Hdomb.
Qed.

Lemma apply_splits_once_witness :
  exists grouped h vals,
    GroupBy (data facetPlot) [Col (facetBy "f1" false false)] (gnodes mem0)
    = Ok (grouped, h)
    /\ facetVals h (default (Sprint (subplotsM mem0)) (Labeler (facetBy "f1" false false)))
         (Tables grouped) = Ok vals
    /\ length (subplotsM facetMemX)
       = length (subplotsM mem0)
         + size vals * size (list_to_set (subplotOf h <$> Tables grouped) : gset nat)
    /\ length (bandsM facetMemX)
       = length (bandsM mem0)
         + size vals
           * size (list_to_set (bandOfGroup "x" h (subplotsM facetMemX) <$> Tables grouped)
                   : gset (option nat)).
Proof.
  do 3 eexists. split; [vm_compute; reflexivity|]. split; [vm_compute; reflexivity|].
  apply (apply_splits_once (facetBy "f1" false false) facetPlot "x" mem0 facetPlotX).
  - apply heap_wf_nil.
  - apply ofTable_wf, facetT_wf.
  - by vm_compute.
  - vm_compute; reflexivity.
  - vm_compute; reflexivity.
Defined.
